(** * RRT* planner with Bezier smoothing: a shallow embedding of
      [src/rrtstar_planner.cpp] and the properties of its planning call.

    [double] values are IEEE binary64 numbers (Rocq's primitive floats), so
    every comparison and every rounding below is the one the program does.
    The functions the program takes from the C math library, from the
    costmap and from the random number library are interfaces. *)

From Stdlib Require Import ZArith Lia Bool String Floats Sorted.
From stdpp Require Import base list.

Set Warnings "-inexact-float".

(* ================================================================== *)
(** * Part I: the model                                                 *)
(* ================================================================== *)

Abbreviation double := float.

(** ** Outcomes of a call

    Loops whose exit depends on floating-point values or on the data are
    bounded by a counter in the model.  [Timeout] says the bound was
    reached, [Fault] that the program dereferences a null or dangling
    pointer or overflows an [int]. *)

Inductive result (A : Type) : Type :=
| Ret (a : A)
| Timeout
| Fault.
Arguments Ret {A} a.
Arguments Timeout {A}.
Arguments Fault {A}.

#[global] Instance result_ret : MRet result := fun _ a => Ret a.
#[global] Instance result_bind : MBind result := fun _ _ f m =>
  match m with
  | Ret a => f a
  | Timeout => Timeout
  | Fault => Fault
  end.

(** ** Numbers *)

Module Double.

(** [std::min(a, b)] is [(b < a) ? b : a]. *)
Definition min (a b : double) : double := if (b <? a)%float then b else a.

(** Conversion of an [int] or [unsigned int] to [double]. *)
Definition of_int (z : Z) : double :=
  if (z <? 0)%Z then (- of_uint63 (Uint63Axioms.of_Z (- z)))%float
  else of_uint63 (Uint63Axioms.of_Z z).

Definition M_PI : double := 3.14159265358979323846%float.

End Double.

Definition INT_MAX : Z := 2147483647.
Definition UINT_MOD : N := 4294967296.

(** The functions of [<cmath>] the planner calls, other than [std::sqrt],
    which IEEE 754 fixes and [PrimFloat.sqrt] computes. *)
Class Libm := {
  hypot : double -> double -> double;
  log : double -> double;
  pow : double -> double -> double;
  ceil : double -> double;
}.

(** What the C standard (Annex F) fixes of those functions at zeros and
    NaN, and that squaring does not see the sign. *)
Class LibmLaws (M : Libm) : Prop := {
  hypot_zero : hypot 0 0 = 0%float;
  hypot_nan_zero : hypot nan 0 = nan;
  hypot_zero_nan : hypot 0 nan = nan;
  hypot_nan_nan : hypot nan nan = nan;
  ceil_zero : ceil 0 = 0%float;
  ceil_neg_zero : ceil (-0) = (-0)%float;
  ceil_nan : ceil nan = nan;
  pow_zero_half : pow 0 0.5 = 0%float;
  pow_even : forall x : double, pow (- x) 2 = pow x 2;
}.

(** [std::uniform_real_distribution<>(a, b)(gen)]: a draw returns a value
    and advances the generator. *)
Class RandomSource := {
  Gen : Type;
  uniform_real : double -> double -> Gen -> double * Gen;
}.

(** ** Messages *)

Module geometry_msgs.

Record Point := { x : double; y : double; z : double }.
Record Quaternion := { qx : double; qy : double; qz : double; qw : double }.
Record Pose := { position : Point; orientation : Quaternion }.
Record PoseStamped := { frame_id : string; pose : Pose }.

(** A default-constructed message. *)
Definition default_orientation : Quaternion :=
  {| qx := 0; qy := 0; qz := 0; qw := 1 |}.
Definition default_pose : PoseStamped :=
  {| frame_id := EmptyString;
     pose := {| position := {| x := 0; y := 0; z := 0 |};
                orientation := default_orientation |} |}.

Definition set_position (p : PoseStamped) (px py pz : double) : PoseStamped :=
  {| frame_id := frame_id p;
     pose := {| position := {| x := px; y := py; z := pz |};
                orientation := orientation (pose p) |} |}.

Definition set_orientation (p : PoseStamped) (q : Quaternion) : PoseStamped :=
  {| frame_id := frame_id p;
     pose := {| position := position (pose p); orientation := q |} |}.

Definition px (p : PoseStamped) : double := x (position (pose p)).
Definition py (p : PoseStamped) : double := y (position (pose p)).

End geometry_msgs.
Import geometry_msgs (PoseStamped).

Module nav_msgs.
Record Path := { frame_id : string; poses : list PoseStamped }.
End nav_msgs.

(** ** The costmap, as the planner queries it *)

Module nav2_costmap_2d.

Record Costmap2D := {
  getResolution : double;
  getOriginX : double;
  getOriginY : double;
  getSizeInCellsX : N;
  getSizeInCellsY : N;
  getCost : N -> N -> N;
  worldToMap : double -> double -> option (N * N);
}.

Definition FREE_SPACE : N := 0.

End nav2_costmap_2d.
Import nav2_costmap_2d.

(** ** Vertices and the tree

    Modelled from the spec: the [Vertex] struct is declared in a header that
    is not part of the sources.  It has a position, the cost of the edge to
    its parent and a parent pointer; [Vertex(x, y)] has no parent, and its
    edge cost, which the planner assigns before it reads it, is taken as 0.
    A pointer to a vertex owned by [tree_] is its index in [tree_]. *)

Module Vertex.
Record t := mk { x : double; y : double; cost : double; parent : option nat }.
Definition new (x y : double) : t := mk x y 0 None.
Definition set_cost (v : t) (c : double) : t := mk (x v) (y v) c (parent v).
Definition set_parent (v : t) (p : option nat) : t := mk (x v) (y v) (cost v) p.
End Vertex.

(** [*tree_[index]]; an index outside the vector is undefined behaviour. *)
Definition tree_at (tree_ : list Vertex.t) (index : nat) : result Vertex.t :=
  match tree_ !! index with
  | Some v => Ret v
  | None => Fault
  end.

Definition tree_back (tree_ : list Vertex.t) : result Vertex.t :=
  tree_at tree_ (pred (length tree_)).

(** ** The planner object: the members [configure] sets *)

Record RRTStar := {
  costmap_ : Costmap2D;
  global_frame_ : string;
  max_iterations_ : Z;
  interpolation_resolution_ : double;
}.

Definition configure (costmap : Costmap2D) (global_frame : string)
    (interpolation_resolution : double) : RRTStar :=
  {| costmap_ := costmap;
     global_frame_ := global_frame;
     max_iterations_ := 1000;
     interpolation_resolution_ := interpolation_resolution |}.

(** A loop over the elements of a vector, threading the variables the
    body assigns. *)
Fixpoint for_each {S A : Type} (body : S -> A -> result S) (l : list A) (s : S)
    : result S :=
  match l with
  | [] => Ret s
  | a :: l' => s' ← body s a; for_each body l' s'
  end.

(** ** The member functions *)

Section Planner.

Context {M : Libm} {R : RandomSource}.
Variable this : RRTStar.

(** Bound on the iterations of the inner loops (the sampling of a
    segment, the walk along parent pointers, the densification). *)
Variable gas : nat.

Local Open Scope float_scope.

(** *** calculateBallRadiusConstant *)

Definition count_column (x : N) (numFreeCells : N) : N :=
  foldl (fun n y =>
           if (getCost (costmap_ this) x y =? FREE_SPACE)%N
           then ((n + 1) mod UINT_MOD)%N else n)
        numFreeCells
        (N.of_nat <$> seq 0 (N.to_nat (getSizeInCellsY (costmap_ this)))).

Definition count_free_cells : N :=
  foldl (fun n x => count_column x n) 0%N
        (N.of_nat <$> seq 0 (N.to_nat (getSizeInCellsX (costmap_ this)))).

Definition calculateBallRadiusConstant : double :=
  let resolution := getResolution (costmap_ this) in
  let cellArea := resolution * resolution in
  let numFreeCells := count_free_cells in
  let freeVolume := cellArea * Double.of_int (Z.of_N numFreeCells) in
  let dimensions := 2%Z in
  let vUnitBall := Double.M_PI in
  let ball_radius_constant_ :=
    2.0 * (Double.of_int 1 + 1.0 / Double.of_int dimensions)
    * pow (freeVolume / vUnitBall) (1.0 / Double.of_int dimensions) in
  let goal_area_radius := 10.0 in
  Double.min goal_area_radius ball_radius_constant_.

(** *** calculateBallRadius *)

Definition calculateBallRadius (ball_radius_constant_ : double)
    (tree_size : Z) (dimensions : Z) (max_connection_distance : double) : double :=
  let term1 := (ball_radius_constant_ * log (Double.of_int tree_size))
               / Double.of_int tree_size in
  let term2 := pow term1 (1.0 / Double.of_int dimensions) in
  Double.min term2 max_connection_distance.

(** *** calculate_distance *)

Definition calculate_distance (x y : double) (vertex : Vertex.t) : double :=
  sqrt (pow (Vertex.x vertex - x) 2 + pow (Vertex.y vertex - y) 2).

(** *** findVerticesInsideCircle *)

Fixpoint inside_circle_loop (vs : list Vertex.t) (i : nat)
    (center_x center_y radius_squared : double) : list nat :=
  match vs with
  | [] => []
  | v :: vs' =>
      let distance_squared :=
        pow (Vertex.x v - center_x) 2 + pow (Vertex.y v - center_y) 2 in
      let rest := inside_circle_loop vs' (S i) center_x center_y radius_squared in
      if distance_squared <=? radius_squared then i :: rest else rest
  end.

Definition findVerticesInsideCircle (tree_ : list Vertex.t)
    (center_x center_y radius : double) : list nat :=
  inside_circle_loop tree_ 0 center_x center_y (radius * radius).

(** *** nearest_neighbor: [None] is the null pointer *)

Fixpoint nearest_loop (vs : list Vertex.t) (i : nat) (x y : double)
    (min_dist : double) (nearest_vertex : option nat) : option nat :=
  match vs with
  | [] => nearest_vertex
  | vertex :: vs' =>
      let dist := calculate_distance x y vertex in
      if dist <? min_dist
      then nearest_loop vs' (S i) x y dist (Some i)
      else nearest_loop vs' (S i) x y min_dist nearest_vertex
  end.

Definition nearest_neighbor (tree_ : list Vertex.t) (x y : double) : option nat :=
  nearest_loop tree_ 0 x y infinity None.

(** *** connectible *)

(** One sample of the segment: the cell exists and is free. *)
Definition sample_free (x y : double) : bool :=
  match worldToMap (costmap_ this) x y with
  | None => false
  | Some (mx, my) => (getCost (costmap_ this) mx my =? FREE_SPACE)%N
  end.

Fixpoint connectible_loop (fuel : nat) (i : Z)
    (steps x_increment y_increment x y : double) : result bool :=
  if Double.of_int i <? steps then
    match fuel with
    | O => Timeout
    | S fuel' =>
        match worldToMap (costmap_ this) x y with
        | None => Ret false
        | Some (mx, my) =>
            if negb (getCost (costmap_ this) mx my =? FREE_SPACE)%N then Ret false
            else if (i =? INT_MAX)%Z then Fault
            else connectible_loop fuel' (i + 1) steps x_increment y_increment
                   (x + x_increment) (y + y_increment)
        end
    end
  else Ret true.

Definition connectible_steps (start end_ : Vertex.t) : double :=
  ceil (hypot (Vertex.x end_ - Vertex.x start) (Vertex.y end_ - Vertex.y start)
        / interpolation_resolution_ this).

Definition connectible (start end_ : Vertex.t) : result bool :=
  let steps := connectible_steps start end_ in
  if 0 <? steps then
    let x_increment := (Vertex.x end_ - Vertex.x start) / steps in
    let y_increment := (Vertex.y end_ - Vertex.y start) / steps in
    connectible_loop gas 0 steps x_increment y_increment
      (Vertex.x start) (Vertex.y start)
  else Ret true.

(** *** calculate_cost_from_start *)

Fixpoint cost_walk (fuel : nat) (tree_ : list Vertex.t) (cur_ver : Vertex.t)
    (total_cost : double) : result double :=
  let total_cost := total_cost + Vertex.cost cur_ver in
  match Vertex.parent cur_ver with
  | None => Ret total_cost
  | Some p =>
      match fuel with
      | O => Timeout
      | S fuel' =>
          match tree_ !! p with
          | None => Fault
          | Some v => cost_walk fuel' tree_ v total_cost
          end
      end
  end.

Definition calculate_cost_from_start (tree_ : list Vertex.t)
    (vertex : Vertex.t) : result double :=
  cost_walk gas tree_ vertex 0.0.

(** *** createPlan: growth of the tree *)

(** The body of the rewiring loop, for one index of
    [vertices_inside_circle].  The loop assigns [tree_.back()] and
    [total_cost_for_new_position]. *)
Definition rewire_body (s : list Vertex.t * double) (index : nat)
    : result (list Vertex.t * double) :=
  let '(tree_, total_cost_for_new_position) := s in
  candidate ← tree_at tree_ index;
  back ← tree_back tree_;
  c ← calculate_cost_from_start tree_ candidate;
  let potential_cost :=
    c + calculate_distance (Vertex.x back) (Vertex.y back) candidate in
  if potential_cost <? total_cost_for_new_position then
    ok ← connectible back candidate;
    if ok : bool then
      let back := Vertex.set_parent back (Some index) in
      let back := Vertex.set_cost back
                    (calculate_distance (Vertex.x back) (Vertex.y back) candidate) in
      Ret (<[pred (length tree_) := back]> tree_, potential_cost)
    else Ret s
  else Ret s.

Definition x_dis : Gen -> double * Gen :=
  uniform_real (getOriginX (costmap_ this))
    (getOriginX (costmap_ this)
     + Double.of_int (Z.of_N (getSizeInCellsX (costmap_ this)))
       * getResolution (costmap_ this)).

Definition y_dis : Gen -> double * Gen :=
  uniform_real (getOriginY (costmap_ this))
    (getOriginY (costmap_ this)
     + Double.of_int (Z.of_N (getSizeInCellsY (costmap_ this)))
       * getResolution (costmap_ this)).

Definition goal_x_dis (goal : PoseStamped) : Gen -> double * Gen :=
  uniform_real (geometry_msgs.px goal - 5.0) (geometry_msgs.px goal + 5.0).

Definition goal_y_dis (goal : PoseStamped) : Gen -> double * Gen :=
  uniform_real (geometry_msgs.py goal - 5.0) (geometry_msgs.py goal + 5.0).

(** The body of the growth loop.  It returns the loop counter as the body
    leaves it: [i] after an insertion, [i - 1] after a discarded sample. *)
Definition grow_body (goal : PoseStamped) (ball_radius_constant_ : double)
    (i : Z) (gen : Gen) (tree_ : list Vertex.t)
    : result (Z * Gen * list Vertex.t) :=
  let '(rand_x, gen) :=
    (if (Z.rem i 5 =? 0)%Z then goal_x_dis goal else x_dis) gen in
  let '(rand_y, gen) :=
    (if (Z.rem i 5 =? 0)%Z then goal_y_dis goal else y_dis) gen in
  let new_position := Vertex.new rand_x rand_y in
  match nearest_neighbor tree_ rand_x rand_y with
  | None => Fault
  | Some n =>
      nearest ← tree_at tree_ n;
      let new_position := Vertex.set_parent new_position (Some n) in
      let new_position :=
        Vertex.set_cost new_position
          (calculate_distance (Vertex.x nearest) (Vertex.y nearest) new_position) in
      ok ← connectible nearest new_position;
      if ok : bool then
        let ball_radius :=
          calculateBallRadius ball_radius_constant_ (Z.of_nat (length tree_)) 2 2.0 in
        let vertices_inside_circle :=
          findVerticesInsideCircle tree_ (Vertex.x new_position)
            (Vertex.y new_position) ball_radius in
        let tree_ := tree_ ++ [new_position] in
        back ← tree_back tree_;
        total_cost_for_new_position ← calculate_cost_from_start tree_ back;
        s ← for_each rewire_body vertices_inside_circle
              (tree_, total_cost_for_new_position);
        Ret (i, gen, s.1)
      else Ret ((i - 1)%Z, gen, tree_)
  end.

(** [for (int i = 1; i <= max_iterations_ - 1; ++i)]; [fuel] bounds the
    number of samples drawn. *)
Fixpoint grow (fuel : nat) (goal : PoseStamped) (ball_radius_constant_ : double)
    (i : Z) (gen : Gen) (tree_ : list Vertex.t) : result (Gen * list Vertex.t) :=
  if (i <=? max_iterations_ this - 1)%Z then
    match fuel with
    | O => Timeout
    | S fuel' =>
        s ← grow_body goal ball_radius_constant_ i gen tree_;
        grow fuel' goal ball_radius_constant_ (s.1.1 + 1)%Z s.1.2 s.2
    end
  else Ret (gen, tree_).

(** *** createPlan: extraction of the path *)

Definition pose_at (x y : double) : PoseStamped :=
  geometry_msgs.set_position geometry_msgs.default_pose x y 0.0.

Fixpoint densify_loop (fuel : nat) (i : Z)
    (steps x_increment y_increment x y : double) (poses : list PoseStamped)
    : result (list PoseStamped) :=
  if Double.of_int i <? steps - 1 then
    match fuel with
    | O => Timeout
    | S fuel' =>
        let x := x + x_increment in
        let y := y + y_increment in
        if (i =? INT_MAX)%Z then Fault
        else densify_loop fuel' (i + 1) steps x_increment y_increment x y
               (pose_at x y :: poses)
    end
  else Ret poses.

(** [while (cur_ver)], from the goal vertex along the parent pointers. *)
Fixpoint extract_path (fuel : nat) (tree_ : list Vertex.t)
    (cur_ver : option Vertex.t) (poses : list PoseStamped)
    : result (list PoseStamped) :=
  match cur_ver with
  | None => Ret poses
  | Some v =>
      match fuel with
      | O => Timeout
      | S fuel' =>
          let poses := pose_at (Vertex.x v) (Vertex.y v) :: poses in
          match Vertex.parent v with
          | Some p =>
              par ← tree_at tree_ p;
              let steps :=
                ceil (hypot (Vertex.x v - Vertex.x par) (Vertex.y v - Vertex.y par)
                      * 10) in
              let x_increment := (Vertex.x par - Vertex.x v) / steps in
              let y_increment := (Vertex.y par - Vertex.y v) / steps in
              poses ← densify_loop gas 0 steps x_increment y_increment
                        (Vertex.x v) (Vertex.y v) poses;
              extract_path fuel' tree_ (Some par) poses
          | None => extract_path fuel' tree_ None poses
          end
      end
  end.

(** *** createPlan: connection of the goal *)

(** The body of the scan of [vertices_inside_circle].  The scan assigns
    [min_cost] and [end_vertex]. *)
Definition goal_scan_body (goal : PoseStamped) (tree_ : list Vertex.t)
    (s : double * Vertex.t) (index : nat) : result (double * Vertex.t) :=
  let '(min_cost, end_vertex) := s in
  candidate ← tree_at tree_ index;
  c ← calculate_cost_from_start tree_ candidate;
  let potential_cost :=
    c + calculate_distance (geometry_msgs.px goal) (geometry_msgs.py goal) candidate in
  if potential_cost <? min_cost then
    ok ← connectible end_vertex candidate;
    if ok : bool then
      let end_vertex := Vertex.set_parent end_vertex (Some index) in
      let end_vertex :=
        Vertex.set_cost end_vertex
          (calculate_distance (geometry_msgs.px goal) (geometry_msgs.py goal)
             candidate) in
      Ret (potential_cost, end_vertex)
    else Ret s
  else Ret s.

Definition goal_scan (goal : PoseStamped) (tree_ : list Vertex.t)
    (vertices_inside_circle : list nat) (end_vertex : Vertex.t)
    : result (double * Vertex.t) :=
  for_each (goal_scan_body goal tree_) vertices_inside_circle
    (infinity, end_vertex).

(** [while (true)]; [fuel] bounds the number of scans. *)
Fixpoint connect_goal (fuel : nat) (goal : PoseStamped) (tree_ : list Vertex.t)
    (vertices_inside_circle : list nat) (end_vertex : Vertex.t)
    (poses : list PoseStamped) : result (list Vertex.t * list PoseStamped) :=
  match fuel with
  | O => Timeout
  | S fuel' =>
      s ← goal_scan goal tree_ vertices_inside_circle end_vertex;
      let min_cost := s.1 in
      let end_vertex := s.2 in
      if min_cost <? 10000 then
        let tree_ := tree_ ++ [end_vertex] in
        poses ← extract_path gas tree_ (Some end_vertex) poses;
        Ret (tree_, poses)
      else connect_goal fuel' goal tree_ vertices_inside_circle end_vertex poses
  end.

(** *** smoothPath and computeBezierPoint *)

Definition computeBezierPoint (P0 P1 P2 P3 : PoseStamped) (t : double)
    : PoseStamped :=
  let x := pow (1 - t) 3 * geometry_msgs.px P0
           + 3 * pow (1 - t) 2 * t * geometry_msgs.px P1
           + 3 * (1 - t) * pow t 2 * geometry_msgs.px P2
           + pow t 3 * geometry_msgs.px P3 in
  let y := pow (1 - t) 3 * geometry_msgs.py P0
           + 3 * pow (1 - t) 2 * t * geometry_msgs.py P1
           + 3 * (1 - t) * pow t 2 * geometry_msgs.py P2
           + pow t 3 * geometry_msgs.py P3 in
  geometry_msgs.set_position geometry_msgs.default_pose x y 0.0.

(** [for (double t = 0; t <= 1.0; t += 0.05)]. *)
Fixpoint bezier_loop (fuel : nat) (P0 P1 P2 P3 : PoseStamped) (t : double)
    (smoothed_poses : list PoseStamped) : result (list PoseStamped) :=
  if t <=? 1.0 then
    match fuel with
    | O => Timeout
    | S fuel' =>
        bezier_loop fuel' P0 P1 P2 P3 (t + 0.05)
          (smoothed_poses ++ [computeBezierPoint P0 P1 P2 P3 t])
    end
  else Ret smoothed_poses.

Definition pose_idx (poses : list PoseStamped) (i : nat) : result PoseStamped :=
  match poses !! i with
  | Some p => Ret p
  | None => Fault
  end.

Definition smooth_window (poses smoothed_poses : list PoseStamped) (i : nat)
    : result (list PoseStamped) :=
  P0 ← pose_idx poses (i - 1);
  P1 ← pose_idx poses i;
  P2 ← pose_idx poses (i + 1);
  P3 ← pose_idx poses (i + 2);
  bezier_loop gas P0 P1 P2 P3 0 smoothed_poses.

Definition smoothPath (path : nav_msgs.Path) : result nav_msgs.Path :=
  let poses := nav_msgs.poses path in
  if (length poses <? 4)%nat then Ret path
  else
    first ← pose_idx poses 0;
    smoothed_poses ← for_each (smooth_window poses)
                       (seq 1 (length poses - 3)) [first];
    back ← pose_idx poses (length poses - 1);
    Ret {| nav_msgs.frame_id := nav_msgs.frame_id path;
           nav_msgs.poses := smoothed_poses ++ [back] |}.

(** *** createPlan *)

Definition start_vertex (start : PoseStamped) : Vertex.t :=
  Vertex.set_cost
    (Vertex.new (geometry_msgs.px start) (geometry_msgs.py start)) 0.

Definition goal_pose (goal : PoseStamped) : PoseStamped :=
  geometry_msgs.set_orientation
    (geometry_msgs.set_position geometry_msgs.default_pose
       (geometry_msgs.px goal) (geometry_msgs.py goal) 0.0)
    (geometry_msgs.orientation (geometry_msgs.pose goal)).

(** The planning call up to, and without, the call of [smoothPath]: the
    tree it leaves in [tree_] and the poses of [global_path]. *)
Definition plan_raw (fuel : nat) (start goal : PoseStamped) (gen : Gen)
    : result (list Vertex.t * list PoseStamped) :=
  let ball_radius_constant_ := calculateBallRadiusConstant in
  let tree_ := [start_vertex start] in
  let end_vertex :=
    Vertex.new (geometry_msgs.px goal) (geometry_msgs.py goal) in
  let poses := [goal_pose goal] in
  s ← grow fuel goal ball_radius_constant_ 1 gen tree_;
  let tree_ := s.2 in
  let ball_radius :=
    2 * calculateBallRadius ball_radius_constant_ (Z.of_nat (length tree_)) 2 2.0 in
  let vertices_inside_circle :=
    findVerticesInsideCircle tree_ (geometry_msgs.px goal) (geometry_msgs.py goal)
      ball_radius in
  connect_goal fuel goal tree_ vertices_inside_circle end_vertex poses.

Definition createPlan (fuel : nat) (start goal : PoseStamped) (gen : Gen)
    : result nav_msgs.Path :=
  let global_path := {| nav_msgs.frame_id := EmptyString; nav_msgs.poses := [] |} in
  if negb (String.eqb (geometry_msgs.frame_id start) (global_frame_ this))
  then Ret global_path
  else if negb (String.eqb (geometry_msgs.frame_id goal) (global_frame_ this))
  then Ret global_path
  else
    s ← plan_raw fuel start goal gen;
    smoothPath {| nav_msgs.frame_id := global_frame_ this;
                  nav_msgs.poses := s.2 |}.

End Planner.

(** ** Instances used to run the model

    [ceil] is computed exactly.  [hypot] and [pow] are computed by their
    textbook formulae, which are exact on the inputs of the examples below
    (axis-parallel segments, squares and cubes of small dyadic numbers);
    [log] is a series approximation.  The theorems hold for every [Libm]. *)

Module Ref.

Definition ceil (x : double) : double :=
  match Prim2SF x with
  | S754_finite s m e =>
      if (0 <=? e)%Z then x
      else
        let q := Z.shiftr (Zpos m) (- e) in
        if s then (- Double.of_int q)%float
        else if (Z.shiftl q (- e) =? Zpos m)%Z then Double.of_int q
        else Double.of_int (q + 1)
  | _ => x
  end.

Definition hypot (x y : double) : double :=
  if is_infinity x || is_infinity y then infinity
  else sqrt (x * x + y * y)%float.

Definition pow (x y : double) : double :=
  if (y =? 2)%float then (x * x)%float
  else if (y =? 3)%float then (x * x * x)%float
  else if (y =? 0.5)%float then sqrt x
  else if (y =? 1)%float then x
  else nan.

(** [2 * atanh z], by its series up to the term of degree 21. *)
Definition two_atanh (z : double) : double :=
  let z2 := (z * z)%float in
  let horner := fun (acc k : double) => (1 / k + z2 * acc)%float in
  (2 * z * foldl horner 0 [21; 19; 17; 15; 13; 11; 9; 7; 5; 3; 1])%float.

Definition log (x : double) : double :=
  if (x <? 0)%float then nan
  else if (x =? 0)%float then neg_infinity
  else if is_infinity x then x
  else if is_nan x then x
  else
    let (m, e) := Z.frexp x in
    let (m, e) := if (m <? 0.75)%float then ((2 * m)%float, (e - 1)%Z) else (m, e) in
    (Double.of_int e * 0.69314718055994531 + two_atanh ((m - 1) / (m + 1)))%float.

#[export] Instance libm : Libm := Build_Libm hypot log pow ceil.

(** [static_cast<unsigned int>] of a non-negative [double]. *)
Definition trunc (x : double) : N :=
  match Prim2SF x with
  | S754_finite false m e =>
      if (0 <=? e)%Z then Z.to_N (Z.shiftl (Zpos m) e)
      else Z.to_N (Z.shiftr (Zpos m) (- e))
  | S754_zero _ => 0%N
  | _ => UINT_MOD
  end.

(** A costmap with origin (0, 0): a grid of [size_x] by [size_y] cells of
    side [resolution], free but for the cells of [occupied].
    [worldToMap] is the one of [nav2_costmap_2d::Costmap2D]. *)
Definition grid (resolution : double) (size_x size_y : N)
    (occupied : list (N * N)) : Costmap2D :=
  {| getResolution := resolution;
     getOriginX := 0;
     getOriginY := 0;
     getSizeInCellsX := size_x;
     getSizeInCellsY := size_y;
     getCost := fun mx my =>
       if existsb (fun c => (c.1 =? mx)%N && (c.2 =? my)%N) occupied
       then 254%N else FREE_SPACE;
     worldToMap := fun wx wy =>
       if (wx <? 0)%float || (wy <? 0)%float then None
       else
         let mx := trunc (wx / resolution) in
         let my := trunc (wy / resolution) in
         if (mx <? size_x)%N && (my <? size_y)%N then Some (mx, my) else None |}.

(** A linear congruential generator. *)
#[export] Instance lcg : RandomSource :=
  {| Gen := Z;
     uniform_real := fun a b g =>
       let g' := ((g * 1103515245 + 12345) mod 2147483648)%Z in
       (((b - a) * (Double.of_int g' / 2147483648) + a)%float, g') |}.

Definition pose (x y : double) : PoseStamped :=
  geometry_msgs.set_position geometry_msgs.default_pose x y 0.

End Ref.

(** A planning call on a grid of 20 by 20 cells of side 1 with three
    occupied cells, from (0.5, 0.5) to (5.5, 5.5). *)
Definition example_planner : RRTStar :=
  configure (Ref.grid 1 20 20 [(3, 3)%N; (3, 4)%N; (4, 3)%N]) "map" 0.25.
Definition example_start : PoseStamped := Ref.pose 0.5 0.5.
Definition example_goal : PoseStamped := Ref.pose 5.5 5.5.

(** ** Vocabulary of the statements *)

(** The cells of the grid, in the order [calculateBallRadiusConstant] scans
    them, and how many of them are free. *)
Definition grid_cells (cm : Costmap2D) : list (N * N) :=
  x ← N.of_nat <$> seq 0 (N.to_nat (getSizeInCellsX cm));
  (fun y => (x, y)) <$> (N.of_nat <$> seq 0 (N.to_nat (getSizeInCellsY cm))).

Definition is_free (cm : Costmap2D) (c : N * N) : bool :=
  (getCost cm c.1 c.2 =? FREE_SPACE)%N.

Definition free_cell_count (cm : Costmap2D) : nat :=
  length (List.filter (is_free cm) (grid_cells cm)).

(** The parameters [t] the loop of [smoothPath] visits from [t], within
    [fuel] iterations, and whether the loop leaves by its condition. *)
Fixpoint bezier_params (fuel : nat) (t : double) : list double :=
  if (t <=? 1.0)%float then
    match fuel with
    | O => []
    | S fuel' => t :: bezier_params fuel' (t + 0.05)%float
    end
  else [].

Fixpoint bezier_exits (fuel : nat) (t : double) : bool :=
  if (t <=? 1.0)%float then
    match fuel with
    | O => false
    | S fuel' => bezier_exits fuel' (t + 0.05)%float
    end
  else true.

(** The samples of the window that starts at index [i - 1]. *)
Definition window_samples {M : Libm} (poses : list PoseStamped) (i : nat)
    : list PoseStamped :=
  let P k := nth k poses geometry_msgs.default_pose in
  computeBezierPoint (P (i - 1)) (P i) (P (i + 1)) (P (i + 2))
    <$> bezier_params 20 0.

(** The point the loop of [connectible] holds after [k] iterations. *)
Fixpoint sample_point (k : nat) (x y x_increment y_increment : double)
    : double * double :=
  match k with
  | O => (x, y)
  | S k' =>
      sample_point k' (x + x_increment)%float (y + y_increment)%float
        x_increment y_increment
  end.

Definition segment_sample {M : Libm} (this : RRTStar) (start end_ : Vertex.t)
    (k : nat) : double * double :=
  let steps := connectible_steps this start end_ in
  sample_point k (Vertex.x start) (Vertex.y start)
    ((Vertex.x end_ - Vertex.x start) / steps)%float
    ((Vertex.y end_ - Vertex.y start) / steps)%float.

Definition free_at (this : RRTStar) (p : double * double) : bool :=
  sample_free this p.1 p.2.

(** The loop condition [i < steps] holds for [i = 0, ..., k]: the loop
    comes to sample number [k], unless an earlier sample ends it. *)
Definition reaches (steps : double) (k : nat) : Prop :=
  forall j : nat, (j <= k)%nat -> (Double.of_int (Z.of_nat j) <? steps)%float = true.

(** Two costmaps that differ at most in the cost of the cell [c]. *)
Definition same_but_at (cm cm' : Costmap2D) (c : N * N) : Prop :=
  (forall x y, worldToMap cm x y = worldToMap cm' x y)
  /\ (forall mx my, (mx, my) <> c -> getCost cm mx my = getCost cm' mx my).

(** The reading of "the cell that contains the end point is not checked":
    its cost has no influence on the answer. *)
Definition endpoint_cell_unchecked {M : Libm} : Prop :=
  forall (this this' : RRTStar) (gas : nat) (A B : Vertex.t) (c : N * N),
    interpolation_resolution_ this = interpolation_resolution_ this' ->
    worldToMap (costmap_ this) (Vertex.x B) (Vertex.y B) = Some c ->
    same_but_at (costmap_ this) (costmap_ this') c ->
    (Vertex.x A, Vertex.y A) <> (Vertex.x B, Vertex.y B) ->
    connectible this gas A B = connectible this' gas A B.

(** Two outcomes of the same kind, with related values. *)
Definition result_rel {A : Type} (P : A -> A -> Prop) (r1 r2 : result A) : Prop :=
  match r1, r2 with
  | Ret a, Ret b => P a b
  | Timeout, Timeout => True
  | Fault, Fault => True
  | _, _ => False
  end.

(** Two states of the goal scan with the same [min_cost] and the same
    position of [end_vertex]. *)
Definition same_scan (s1 s2 : double * Vertex.t) : Prop :=
  s1.1 = s2.1 /\ Vertex.x s1.2 = Vertex.x s2.2 /\ Vertex.y s1.2 = Vertex.y s2.2.

(** Every parent pointer of the tree points into the tree. *)
Definition parents_in_range (tree_ : list Vertex.t) : Prop :=
  forall (i : nat) (v : Vertex.t) (p : nat),
    tree_ !! i = Some v -> Vertex.parent v = Some p -> (p < length tree_)%nat.

(** The invariant of the search tree: the first element is the start
    vertex; every other vertex has a parent that was inserted before it and
    an edge cost that is at least 0. *)
Definition tree_inv (start : PoseStamped) (tree_ : list Vertex.t) : Prop :=
  tree_ !! 0%nat = Some (start_vertex start)
  /\ forall (i : nat) (v : Vertex.t),
       tree_ !! i = Some v -> (0 < i)%nat ->
       exists p : nat,
         Vertex.parent v = Some p /\ (p < i)%nat
         /\ (0 <=? Vertex.cost v)%float = true.

(** The vertex [k] parent links above the vertex of index [i]. *)
Fixpoint ancestor (tree_ : list Vertex.t) (k : nat) (i : nat) : option nat :=
  match k with
  | O => Some i
  | S k' => v ← tree_ !! i; p ← Vertex.parent v; ancestor tree_ k' p
  end.

(** The new vertex [v] can be reached through the vertex of index [c]:
    the segment between them is connectible, and the cost of the vertex
    [c] from the start plus the length of the segment is [r]. *)
Definition via_cost {M : Libm} (this : RRTStar) (gas : nat)
    (tree_ : list Vertex.t) (v : Vertex.t) (c : nat) (r : double) : Prop :=
  exists (candidate : Vertex.t) (cost_c : double),
    tree_ !! c = Some candidate
    /\ calculate_cost_from_start gas tree_ candidate = Ret cost_c
    /\ r = (cost_c + calculate_distance (Vertex.x v) (Vertex.y v) candidate)%float
    /\ connectible this gas v candidate = Ret true.

(** What an insertion leaves of the new vertex [v], appended to [tree_]:
    its parent is the nearest neighbour, at the total cost [total0], or a
    vertex of the near set through which the cost [best] is less; no
    vertex of the near set gives a verified cost below [best]. *)
Definition chosen_parent {M : Libm} (this : RRTStar) (gas : nat)
    (tree_ : list Vertex.t) (near : list nat) (v : Vertex.t) : Prop :=
  exists (n : nat) (nearest : Vertex.t) (total0 best : double),
    nearest_neighbor tree_ (Vertex.x v) (Vertex.y v) = Some n
    /\ tree_ !! n = Some nearest
    /\ calculate_cost_from_start gas
         (tree_ ++ [Vertex.mk (Vertex.x v) (Vertex.y v)
                      (calculate_distance (Vertex.x nearest) (Vertex.y nearest) v)
                      (Some n)])
         (Vertex.mk (Vertex.x v) (Vertex.y v)
            (calculate_distance (Vertex.x nearest) (Vertex.y nearest) v) (Some n))
       = Ret total0
    /\ ((Vertex.parent v = Some n
         /\ Vertex.cost v = calculate_distance (Vertex.x nearest) (Vertex.y nearest) v
         /\ best = total0)
        \/ (exists (c : nat) (candidate : Vertex.t),
              c ∈ near /\ tree_ !! c = Some candidate
              /\ via_cost this gas tree_ v c best
              /\ Vertex.parent v = Some c
              /\ Vertex.cost v
                 = calculate_distance (Vertex.x v) (Vertex.y v) candidate
              /\ (best <? total0)%float = true))
    /\ forall (c : nat) (r : double),
         c ∈ near -> via_cost this gas tree_ v c r -> (r <? best)%float = false.

(** The state of the rewiring loop after the indices [done]. *)
Definition rewired {M : Libm} (this : RRTStar) (gas : nat)
    (tree_ : list Vertex.t) (v0 : Vertex.t) (total0 : double)
    (done : list nat) (s : list Vertex.t * double) : Prop :=
  exists v : Vertex.t,
    s.1 = tree_ ++ [v]
    /\ Vertex.x v = Vertex.x v0 /\ Vertex.y v = Vertex.y v0
    /\ ((v = v0 /\ s.2 = total0)
        \/ (exists (c : nat) (candidate : Vertex.t),
              c ∈ done /\ tree_ !! c = Some candidate
              /\ via_cost this gas tree_ v0 c s.2
              /\ Vertex.parent v = Some c
              /\ Vertex.cost v
                 = calculate_distance (Vertex.x v0) (Vertex.y v0) candidate
              /\ (s.2 <? total0)%float = true))
    /\ forall (c : nat) (r : double),
         c ∈ done -> via_cost this gas tree_ v0 c r -> (r <? s.2)%float = false.

(** The goal vertex [end_vertex] can be connected to the vertex of index
    [c] at the cost [r]. *)
Definition goal_via {M : Libm} (this : RRTStar) (gas : nat) (goal : PoseStamped)
    (tree_ : list Vertex.t) (end_vertex : Vertex.t) (c : nat) (r : double) : Prop :=
  exists (candidate : Vertex.t) (cost_c : double),
    tree_ !! c = Some candidate
    /\ calculate_cost_from_start gas tree_ candidate = Ret cost_c
    /\ r = (cost_c + calculate_distance (geometry_msgs.px goal)
                       (geometry_msgs.py goal) candidate)%float
    /\ connectible this gas end_vertex candidate = Ret true.

(** The state of the goal scan after the indices [done]. *)
Definition scanned {M : Libm} (this : RRTStar) (gas : nat) (goal : PoseStamped)
    (tree_ : list Vertex.t) (end_vertex : Vertex.t) (done : list nat)
    (s : double * Vertex.t) : Prop :=
  Vertex.x s.2 = Vertex.x end_vertex /\ Vertex.y s.2 = Vertex.y end_vertex
  /\ ((s.1 = infinity /\ s.2 = end_vertex)
      \/ (exists (c : nat) (candidate : Vertex.t),
            c ∈ done /\ tree_ !! c = Some candidate
            /\ goal_via this gas goal tree_ end_vertex c s.1
            /\ Vertex.parent s.2 = Some c
            /\ Vertex.cost s.2
               = calculate_distance (geometry_msgs.px goal)
                   (geometry_msgs.py goal) candidate
            /\ (s.1 <? infinity)%float = true))
  /\ forall (c : nat) (r : double),
       c ∈ done -> goal_via this gas goal tree_ end_vertex c r ->
       (r <? s.1)%float = false.

(** Every edge of the tree was found connectible, from the parent to the
    child or from the child to the parent. *)
Definition edges_checked {M : Libm} (this : RRTStar) (gas : nat)
    (tree_ : list Vertex.t) : Prop :=
  forall (i p : nat) (v w : Vertex.t),
    tree_ !! i = Some v -> Vertex.parent v = Some p -> tree_ !! p = Some w ->
    connectible this gas w v = Ret true \/ connectible this gas v w = Ret true.

(** The poses the densification of an edge emits in [n] turns, the last
    emitted first. *)
Definition densified (n : nat) (x y x_increment y_increment : double)
    : list PoseStamped :=
  rev ((fun k => let p := sample_point k x y x_increment y_increment in
                 pose_at p.1 p.2) <$> seq 1 n).

(** The state of the search after the vertices [pre]: no vertex of [pre]
    is closer than [min_dist]; [nearest_vertex] is null and [min_dist]
    infinite, or [nearest_vertex] is at the distance [min_dist], which is
    below infinity and below the distance of every vertex before it that
    has one. *)
Definition nearest_so_far {M : Libm} (x y : double) (pre : list Vertex.t)
    (min_dist : double) (nearest_vertex : option nat) : Prop :=
  (forall j w, pre !! j = Some w -> (calculate_distance x y w <? min_dist)%float = false)
  /\ match nearest_vertex with
     | None => min_dist = infinity
     | Some n =>
         exists v, pre !! n = Some v
                   /\ min_dist = calculate_distance x y v
                   /\ (calculate_distance x y v <? infinity)%float = true
                   /\ forall j w, (j < n)%nat -> pre !! j = Some w ->
                                  is_nan (calculate_distance x y w) = false ->
                                  (calculate_distance x y v <? calculate_distance x y w)%float
                                  = true
     end.

(** A tree with the start vertex first, which alone has no parent. *)
Definition rooted (start : PoseStamped) (tree_ : list Vertex.t) : Prop :=
  tree_ !! 0%nat = Some (start_vertex start)
  /\ forall (i : nat) (v : Vertex.t),
       tree_ !! i = Some v -> Vertex.parent v = None -> i = 0%nat.

(** A pose of which the planner assigns the position only: default header
    and orientation, [z = 0]. *)
Definition plain (p : PoseStamped) : Prop :=
  geometry_msgs.frame_id p = EmptyString
  /\ geometry_msgs.z (geometry_msgs.position (geometry_msgs.pose p)) = 0%float
  /\ geometry_msgs.orientation (geometry_msgs.pose p)
     = geometry_msgs.default_orientation.

(** A tree of three vertices, the last at the position of its parent; a
    path of five poses; a pose put in a frame. *)
Definition example_tree : list Vertex.t :=
  [start_vertex example_start; Vertex.mk 1.5 0.5 1 (Some 0%nat);
   Vertex.mk 1.5 0.5 0 (Some 1%nat)].

Definition example_path : nav_msgs.Path :=
  {| nav_msgs.frame_id := "map";
     nav_msgs.poses := [Ref.pose 0 0; Ref.pose 1 0; Ref.pose 2 1; Ref.pose 3 1;
                        Ref.pose 4 2] |}.

Definition in_frame (frame : string) (p : PoseStamped) : PoseStamped :=
  {| geometry_msgs.frame_id := frame; geometry_msgs.pose := geometry_msgs.pose p |}.

(** The reading of "a grid with no free cell gives the constant 0". *)
Definition no_free_cell_gives_zero {M : Libm} : Prop :=
  forall this : RRTStar,
    free_cell_count (costmap_ this) = 0%nat ->
    calculateBallRadiusConstant this = 0%float.

(** The point a turn of the growth loop draws, and the generator after
    the two draws: around the goal when [i] is a multiple of 5, in the box
    of the map otherwise. *)
Definition draw {R : RandomSource} (this : RRTStar) (goal : PoseStamped) (i : Z)
    (gen : Gen) : double * double * Gen :=
  let '(rand_x, gen) :=
    (if (Z.rem i 5 =? 0)%Z then goal_x_dis goal else x_dis this) gen in
  let '(rand_y, gen) :=
    (if (Z.rem i 5 =? 0)%Z then goal_y_dis goal else y_dis this) gen in
  (rand_x, rand_y, gen).

(** The number of steps the extraction of the path cuts the edge from [v]
    to its parent [par] into, and the number [n] of turns its inner loop
    makes: the condition [i < steps - 1] holds for [i = 0, ..., n - 1] and
    fails for [i = n], within the bounds of the model. *)
Definition edge_steps {M : Libm} (v par : Vertex.t) : double :=
  ceil (hypot (Vertex.x v - Vertex.x par) (Vertex.y v - Vertex.y par) * 10).

Definition densify_trips {M : Libm} (gas : nat) (v par : Vertex.t) (n : nat)
    : Prop :=
  (n <= gas)%nat /\ (Z.of_nat n <= INT_MAX)%Z
  /\ (forall j : nat,
         (j < n)%nat ->
         (Double.of_int (Z.of_nat j) <? edge_steps v par - 1)%float = true)
  /\ (Double.of_int (Z.of_nat n) <? edge_steps v par - 1)%float = false.

(** Every edge of the tree is cut into a number of steps the inner loop
    comes to the end of. *)
Definition walkable {M : Libm} (gas : nat) (tree_ : list Vertex.t) : Prop :=
  forall (i p : nat) (v par : Vertex.t),
    tree_ !! i = Some v -> Vertex.parent v = Some p -> tree_ !! p = Some par ->
    exists n : nat, densify_trips gas v par n.

(** A tree of three vertices that goes from the start around a corner;
    a point drawn next to its last vertex, as the growth loop appends it
    with the nearest neighbour as parent, and as the rewiring leaves it,
    with the root as parent. *)
Definition example_detour : list Vertex.t :=
  [start_vertex example_start; Vertex.mk 0.5 1.5 1 (Some 0%nat);
   Vertex.mk 1.5 1.5 1 (Some 1%nat)].

Definition example_appended : Vertex.t :=
  Vertex.mk 1.9234383851289749 0.80812008120119572 0.8111706898290113
    (Some 2%nat).

Definition example_rewired : Vertex.t :=
  Vertex.mk 1.9234383851289749 0.80812008120119572 1.4564047585400204
    (Some 0%nat).

(* ================================================================== *)
(** * Part II: properties                                               *)
(* ================================================================== *)

(** ** Facts of binary64 arithmetic *)

Module DoubleFacts.

Local Open Scope float_scope.

Lemma SFltb_trans a b c :
  SFltb a b = true -> SFltb b c = true -> SFltb a c = true.
Proof.
  unfold SFltb, SFcompare.
  destruct a as [sa|sa| |sa ma ea], b as [sb|sb| |sb mb eb], c as [sc|sc| |sc mc ec];
    try destruct sa; try destruct sb; try destruct sc; simpl; try congruence;
    change (Pos.compare_cont Eq) with Pos.compare;
    destruct (Z.compare_spec ea eb), (Z.compare_spec eb ec), (Z.compare_spec ea ec);
    simpl; try congruence; try lia;
    destruct (Pos.compare_spec ma mb), (Pos.compare_spec mb mc), (Pos.compare_spec ma mc);
    simpl; try congruence; try lia.
Qed.

Lemma SFcompare_refl a : a <> S754_nan -> SFcompare a a = Some Eq.
Proof.
  destruct a as [sa|sa| |sa ma ea]; try destruct sa; simpl; try congruence;
    intros _; rewrite Z.compare_refl; change (Pos.compare_cont Eq) with Pos.compare;
    rewrite Pos.compare_refl; reflexivity.
Qed.

Lemma ltb_trans (a b c : double) :
  (a <? b) = true -> (b <? c) = true -> (a <? c) = true.
Proof. rewrite !FloatAxioms.ltb_spec. apply SFltb_trans. Qed.

Lemma ltb_irrefl (a : double) : (a <? a) = false.
Proof.
  rewrite FloatAxioms.ltb_spec. unfold SFltb.
  destruct (Prim2SF a) eqn:E; try reflexivity;
    rewrite SFcompare_refl by congruence; reflexivity.
Qed.

Lemma ltb_asym (a b : double) : (a <? b) = true -> (b <? a) = false.
Proof.
  intros H. destruct (b <? a) eqn:E; [|reflexivity].
  pose proof (ltb_trans _ _ _ H E) as F. rewrite ltb_irrefl in F. discriminate.
Qed.

Lemma ltb_leb (a b : double) : (a <? b) = true -> (a <=? b) = true.
Proof.
  rewrite FloatAxioms.ltb_spec, FloatAxioms.leb_spec. unfold SFltb, SFleb.
  destruct (SFcompare _ _) as [[| |]|]; congruence.
Qed.

(** NaN is the one value that differs from itself. *)
Lemma is_nan_spec (a : double) : is_nan a = true <-> Prim2SF a = S754_nan.
Proof.
  unfold is_nan. rewrite FloatAxioms.eqb_spec. unfold SFeqb. split.
  - destruct (Prim2SF a) eqn:E; try reflexivity;
      rewrite SFcompare_refl by congruence; simpl; congruence.
  - intros ->. reflexivity.
Qed.

Lemma is_nan_eq (a : double) : is_nan a = true <-> a = nan.
Proof.
  rewrite is_nan_spec. split.
  - intros H. apply Prim2SF_inj. rewrite H. reflexivity.
  - intros ->. reflexivity.
Qed.

Lemma ltb_not_nan_l (a b : double) : (a <? b) = true -> is_nan a = false.
Proof.
  intros H. destruct (is_nan a) eqn:E; [|reflexivity].
  apply is_nan_eq in E. subst a. rewrite FloatAxioms.ltb_spec in H.
  change (Prim2SF nan) with S754_nan in H. discriminate.
Qed.

Lemma ltb_not_nan_r (a b : double) : (a <? b) = true -> is_nan b = false.
Proof.
  intros H. destruct (is_nan b) eqn:E; [|reflexivity].
  apply is_nan_eq in E. subst b. rewrite FloatAxioms.ltb_spec in H.
  change (Prim2SF nan) with S754_nan in H.
  unfold SFltb, SFcompare in H. destruct (Prim2SF a); discriminate.
Qed.

(** Two numbers are ordered. *)
Lemma leb_total (a b : double) :
  is_nan a = false -> is_nan b = false -> (b <? a) = false -> (a <=? b) = true.
Proof.
  intros Ha Hb.
  assert (Prim2SF a <> S754_nan) as Na
    by (intros E; apply is_nan_spec in E; congruence).
  assert (Prim2SF b <> S754_nan) as Nb
    by (intros E; apply is_nan_spec in E; congruence).
  rewrite FloatAxioms.ltb_spec, FloatAxioms.leb_spec. unfold SFltb, SFleb, SFcompare.
  destruct (Prim2SF a) as [sa|sa| |sa ma ea], (Prim2SF b) as [sb|sb| |sb mb eb];
    try congruence; try destruct sa; try destruct sb; simpl; try congruence;
    change (Pos.compare_cont Eq) with Pos.compare;
    rewrite (Z.compare_antisym ea eb), (Pos.compare_antisym ma mb);
    destruct (ea ?= eb)%Z; simpl; try congruence;
    destruct (ma ?= mb)%positive; simpl; congruence.
Qed.

(** *** Signs of rounded results *)

Lemma binary_round_aux_cases sx mx ex lx :
  let r := binary_round_aux prec emax sx mx ex lx in
  r = S754_zero sx \/ r = S754_infinity sx \/ r = S754_nan
  \/ exists m e, r = S754_finite sx m e.
Proof.
  unfold binary_round_aux.
  destruct (shr_fexp _ _ mx ex lx) as [m1 e1].
  destruct (shr_fexp _ _ _ e1 loc_Exact) as [m2 e2].
  destruct (shr_m m2); [| destruct (Z.leb _ _) |]; simpl; eauto 6.
Qed.

Lemma binary_round_aux_cases_pos m e :
  let r := binary_round_aux prec emax false (Zpos (Pos.mul m m)) (Z.add e e) loc_Exact in
  r = S754_zero false \/ r = S754_infinity false \/ r = S754_nan
  \/ exists m' e', r = S754_finite false m' e'.
Proof. apply binary_round_aux_cases. Qed.

Lemma binary_round_aux_opp mx ex lx :
  binary_round_aux prec emax true mx ex lx
  = SFopp (binary_round_aux prec emax false mx ex lx).
Proof.
  unfold binary_round_aux.
  destruct (shr_fexp _ _ mx ex lx) as [m1 e1].
  destruct (shr_fexp _ _ _ e1 loc_Exact) as [m2 e2].
  destruct (shr_m m2); [| destruct (Z.leb _ _) |]; reflexivity.
Qed.

Lemma sqrt_not_neg (a : double) : (sqrt a <? 0) = false.
Proof.
  rewrite FloatAxioms.ltb_spec, FloatAxioms.sqrt_spec.
  change (Prim2SF 0) with (S754_zero false).
  destruct (Prim2SF a) as [s|s| |s m e]; try destruct s; try reflexivity.
  unfold SF64sqrt, SFsqrt.
  destruct (SFsqrt_core_binary _ _ _ _) as [[mz ez] lz].
  destruct (binary_round_aux_cases false mz ez lz) as [H|[H|[H|(m'&e'&H)]]];
    simpl in H; rewrite H; reflexivity.
Qed.

(** *** Differences and quotients at zero and NaN *)

Lemma sub_diag (a : double) : a - a = 0 \/ a - a = nan.
Proof.
  assert (Prim2SF (a - a) = S754_zero false \/ Prim2SF (a - a) = S754_nan) as H.
  { rewrite FloatAxioms.sub_spec. unfold SF64sub, SFsub.
    destruct (Prim2SF a) as [s|s| |s m e]; try destruct s; auto.
    - left. rewrite Z.sub_diag. reflexivity.
    - left. rewrite Z.sub_diag. reflexivity. }
  destruct H as [H|H]; [left|right]; apply Prim2SF_inj; rewrite H; reflexivity.
Qed.

Lemma zero_div (r : double) : 0 / r = 0 \/ 0 / r = (-0) \/ 0 / r = nan.
Proof.
  assert (Prim2SF (0 / r) = S754_zero false \/ Prim2SF (0 / r) = S754_zero true
          \/ Prim2SF (0 / r) = S754_nan) as H.
  { rewrite FloatAxioms.div_spec. change (Prim2SF 0) with (S754_zero false).
    unfold SF64div, SFdiv.
    destruct (Prim2SF r) as [s|s| |s m e]; try destruct s; auto. }
  destruct H as [H|[H|H]]; [left|right;left|right;right];
    apply Prim2SF_inj; rewrite H; reflexivity.
Qed.

Lemma nan_div (r : double) : nan / r = nan.
Proof.
  apply Prim2SF_inj. rewrite FloatAxioms.div_spec. reflexivity.
Qed.

Lemma add_nan_r (a : double) : a + nan = nan.
Proof.
  apply Prim2SF_inj. rewrite FloatAxioms.add_spec.
  change (Prim2SF nan) with S754_nan.
  unfold SF64add, SFadd. destruct (Prim2SF a); reflexivity.
Qed.

(** *** Opposites *)

Lemma SFopp_involutive a : SFopp (SFopp a) = a.
Proof. destruct a as [s|s| |s m e]; simpl; rewrite ?negb_involutive; reflexivity. Qed.

Lemma binary_normalize_opp z e :
  binary_normalize prec emax (- z) e false
  = SFopp (binary_normalize prec emax z e false)
  \/ binary_normalize prec emax (- z) e false = binary_normalize prec emax z e false.
Proof.
  destruct z as [|p|p]; simpl; auto; left; unfold binary_round;
    destruct (shl_align _ _ _) as [mz ez].
  - apply binary_round_aux_opp.
  - rewrite binary_round_aux_opp, SFopp_involutive. reflexivity.
Qed.

Lemma SFsub_antisym a b :
  SFsub prec emax b a = SFopp (SFsub prec emax a b)
  \/ SFsub prec emax b a = SFsub prec emax a b.
Proof.
  destruct a as [sa|sa| |sa ma ea], b as [sb|sb| |sb mb eb];
    try (destruct sa, sb; simpl; auto; fail);
    try (destruct sa; simpl; auto; fail);
    try (destruct sb; simpl; auto; fail);
    try (simpl; auto; fail).
  unfold SFsub. rewrite (Z.min_comm eb ea).
  set (A := cond_Zopp sa _). set (B := cond_Zopp sb _).
  replace (B - A)%Z with (- (A - B))%Z by lia.
  apply binary_normalize_opp.
Qed.

Lemma sub_antisym (a b : double) : b - a = - (a - b) \/ b - a = a - b.
Proof.
  destruct (SFsub_antisym (Prim2SF a) (Prim2SF b)) as [H|H]; [left|right];
    apply Prim2SF_inj; rewrite ?FloatAxioms.opp_spec, !FloatAxioms.sub_spec; exact H.
Qed.

Lemma mul_opp_opp (a : double) : (- a) * (- a) = a * a.
Proof.
  apply Prim2SF_inj. rewrite !FloatAxioms.mul_spec, FloatAxioms.opp_spec.
  destruct (Prim2SF a) as [s|s| |s m e]; try destruct s; reflexivity.
Qed.

(** A number that is not negative is at least 0. *)
Lemma not_neg_nonneg (a : double) :
  is_nan a = false -> (a <? 0) = false -> (0 <=? a) = true.
Proof. intros Ha H. apply leb_total; auto. Qed.

Lemma add_not_nan_r (a b : double) : is_nan (a + b) = false -> is_nan b = false.
Proof.
  intros H. destruct (is_nan b) eqn:E; [|reflexivity].
  apply is_nan_eq in E. subst b. rewrite add_nan_r in H. discriminate.
Qed.

End DoubleFacts.

(** ** The connection radius and its constant *)

Section Radius.

Context {M : Libm}.
Local Open Scope float_scope.


Lemma min_le_l (a b : double) : is_nan a = false -> (Double.min a b <=? a) = true.
Proof.
  intros Ha. unfold Double.min. destruct (b <? a) eqn:E.
  - apply DoubleFacts.ltb_leb, E.
  - apply DoubleFacts.leb_total; auto. apply DoubleFacts.ltb_irrefl.
Qed.


End Radius.

(** *** The constant *)

Lemma mul_self_zero (r : double) :
  is_finite (r * r) = true -> (r * r * 0 = 0)%float.
Proof.
  intros Hf.
  assert (forall s, Prim2SF (r * r) <> S754_infinity s) as Hinf.
  { intros s E.
    assert (r * r = SF2Prim (S754_infinity s))%float as Er
      by (apply Prim2SF_inj; rewrite E; destruct s; reflexivity).
    rewrite Er in Hf. destruct s; discriminate. }
  assert (Prim2SF (r * r) <> S754_nan) as Hnan.
  { intros E. apply DoubleFacts.is_nan_spec in E.
    unfold is_finite in Hf. rewrite E in Hf. discriminate. }
  assert (Prim2SF (r * r) = S754_zero false
          \/ exists m e, Prim2SF (r * r) = S754_finite false m e) as Hsq.
  { revert Hinf Hnan. rewrite FloatAxioms.mul_spec. unfold SF64mul, SFmul.
    destruct (Prim2SF r) as [s|s| |s m e].
    - destruct s; auto.
    - intros H. exfalso. eapply H. reflexivity.
    - congruence.
    - replace (xorb s s) with false by (destruct s; reflexivity).
      destruct (DoubleFacts.binary_round_aux_cases_pos m e) as [H|[H|[H|(m'&e'&H)]]];
        rewrite H; intros Hi Hn; eauto; congruence. }
  apply Prim2SF_inj. rewrite FloatAxioms.mul_spec.
  change (Prim2SF 0) with (S754_zero false).
  destruct Hsq as [H|(m&e&H)]; rewrite H; reflexivity.
Qed.

Lemma mul_not_finite_zero (a : double) :
  is_finite a = false -> (a * 0 = nan)%float.
Proof.
  intros Hf. apply Prim2SF_inj. rewrite FloatAxioms.mul_spec.
  change (Prim2SF 0) with (S754_zero false). change (Prim2SF nan) with S754_nan.
  revert Hf. unfold is_finite, is_nan, is_infinity.
  rewrite !FloatAxioms.eqb_spec, FloatAxioms.abs_spec. unfold SFeqb.
  destruct (Prim2SF a) as [s|s| |s m e] eqn:E; try reflexivity.
  - destruct s; discriminate.
  - rewrite DoubleFacts.SFcompare_refl by discriminate. discriminate.
Qed.

Section Constant.

Context {M : Libm}.
Variable this : RRTStar.
Local Open Scope float_scope.

Let cm := costmap_ this.

Lemma count_column_mod (x : N) (ys : list N) (n : N) :
  (foldl (fun n y => if (getCost cm x y =? FREE_SPACE)%N
                     then ((n + 1) mod UINT_MOD)%N else n) n ys mod UINT_MOD
   = (n + N.of_nat (length (List.filter (is_free cm) ((fun y => (x, y)) <$> ys))))
     mod UINT_MOD)%N.
Proof.
  revert n. induction ys as [|y ys IH]; intros n; simpl.
  - rewrite N.add_0_r. reflexivity.
  - rewrite IH. unfold is_free at 2. simpl.
    destruct (getCost cm x y =? FREE_SPACE)%N; simpl.
    + rewrite N.Div0.add_mod_idemp_l. f_equal. unfold fmap. lia.
    + reflexivity.
Qed.

Lemma count_column_lt (x : N) (ys : list N) (n : N) :
  (n < UINT_MOD)%N ->
  (foldl (fun n y => if (getCost cm x y =? FREE_SPACE)%N
                     then ((n + 1) mod UINT_MOD)%N else n) n ys < UINT_MOD)%N.
Proof.
  revert n. induction ys as [|y ys IH]; intros n Hn; simpl; [exact Hn|].
  apply IH. destruct (getCost cm x y =? FREE_SPACE)%N; [|exact Hn].
  apply N.mod_lt. discriminate.
Qed.

(** The counter runs once over the grid: it holds the number of free
    cells, modulo the range of [unsigned int]. *)
Lemma count_free_cells_spec :
  count_free_cells this = (N.of_nat (free_cell_count cm) mod UINT_MOD)%N.
Proof.
  unfold count_free_cells, free_cell_count, grid_cells. fold cm.
  set (ys := N.of_nat <$> seq 0 (N.to_nat (getSizeInCellsY cm))).
  generalize (N.of_nat <$> seq 0 (N.to_nat (getSizeInCellsX cm))). intros xs.
  assert (forall n,
    (n < UINT_MOD)%N ->
    (foldl (fun n x => count_column this x n) n xs < UINT_MOD)%N
    /\ (foldl (fun n x => count_column this x n) n xs mod UINT_MOD
        = (n + N.of_nat (length (List.filter (is_free cm)
                                   (xs ≫= fun x => (fun y => (x, y)) <$> ys))))
          mod UINT_MOD)%N) as H.
  { induction xs as [|x xs IH]; intros n Hn; simpl.
    - split; [exact Hn|]. rewrite N.add_0_r. reflexivity.
    - assert (count_column this x n < UINT_MOD)%N as Hc
        by (apply count_column_lt, Hn).
      destruct (IH _ Hc) as [IH1 IH2]. split; [exact IH1|].
      rewrite IH2, List.filter_app, length_app, Nat2N.inj_add.
      rewrite N.add_assoc, <- N.Div0.add_mod_idemp_l.
      unfold count_column at 1. fold cm. fold ys.
      rewrite count_column_mod, N.Div0.add_mod_idemp_l. reflexivity. }
  destruct (H 0%N) as [H1 H2]; [reflexivity|].
  rewrite <- (N.mod_small _ _ H1). rewrite H2. reflexivity.
Qed.

(** C8 (amended).  Once per planning call the constant is
    [2 * (1 + 1/2) * (free_volume / pi)^(1/2)], with the free volume the
    cell area times the number of free cells counted by one scan of the
    grid (an [unsigned int] counter, so modulo 2^32), clamped to at most
    10.0.  A grid with no free cell gives the constant 0 when the cell
    area is finite; when it is not, the free volume is NaN and the
    constant is 10.0, as [std::min(10.0, NaN)] is 10.0. *)
Theorem calculateBallRadiusConstant_spec `{!LibmLaws M} :
  let resolution := getResolution cm in
  let free_volume :=
    resolution * resolution
    * Double.of_int (Z.of_N (N.of_nat (free_cell_count cm) mod UINT_MOD)) in
  calculateBallRadiusConstant this
  = Double.min 10.0 (2 * (1 + 1 / 2) * pow (free_volume / Double.M_PI) (1 / 2))
  /\ (calculateBallRadiusConstant this <=? 10.0) = true
  /\ (free_cell_count cm = 0%nat ->
      is_finite (resolution * resolution) = true ->
      calculateBallRadiusConstant this = 0)
  /\ (free_cell_count cm = 0%nat ->
      is_finite (resolution * resolution) = false ->
      pow nan 0.5 = nan ->
      calculateBallRadiusConstant this = 10.0).
Proof.
  intros resolution free_volume.
  assert (calculateBallRadiusConstant this
          = Double.min 10.0
              (2 * (1 + 1 / 2) * pow (free_volume / Double.M_PI) (1 / 2))) as E.
  { unfold calculateBallRadiusConstant. rewrite count_free_cells_spec. reflexivity. }
  split; [exact E|]. split; [|split].
  - rewrite E. apply min_le_l. reflexivity.
  - intros H0 Hfin. rewrite E. subst free_volume. rewrite H0.
    change (Double.of_int (Z.of_N (N.of_nat 0 mod UINT_MOD))) with 0.
    rewrite (mul_self_zero _ Hfin).
    change (0 / Double.M_PI) with 0. change (1 / 2) with 0.5.
    rewrite pow_zero_half. reflexivity.
  - intros H0 Hinf Hpow. rewrite E. subst free_volume. rewrite H0.
    change (Double.of_int (Z.of_N (N.of_nat 0 mod UINT_MOD))) with 0.
    rewrite (mul_not_finite_zero _ Hinf).
    change (nan / Double.M_PI) with nan. change (1 / 2) with 0.5.
    rewrite Hpow. reflexivity.
Qed.

End Constant.

(** C8 (as stated) fails: a grid of two cells of side 1e200, none of them
    free, has an infinite cell area; the free volume [inf * 0] is NaN, and
    the constant is 10.0, not 0. *)
Lemma no_free_cell_not_zero : ~ @no_free_cell_gives_zero Ref.libm.
Proof.
  intros H.
  specialize (H (configure (Ref.grid 1e200 2 1 [(0, 0)%N; (1, 0)%N]) "map" 0.25)
                eq_refl).
  apply (f_equal Prim2SF) in H. vm_compute in H. discriminate.
Qed.

(** ** Smoothing *)

Section Smoothing.

Context {M : Libm}.
Local Open Scope float_scope.

Lemma bezier_loop_params (fuel : nat) (P0 P1 P2 P3 : PoseStamped) (t : double)
    (acc : list PoseStamped) :
  bezier_loop fuel P0 P1 P2 P3 t acc
  = if bezier_exits fuel t
    then Ret (acc ++ (computeBezierPoint P0 P1 P2 P3 <$> bezier_params fuel t))
    else Timeout.
Proof.
  revert t acc. induction fuel as [|fuel IH]; intros t acc; simpl.
  - destruct (t <=? 1.0); [reflexivity|]. rewrite app_nil_r. reflexivity.
  - destruct (t <=? 1.0).
    + rewrite IH. destruct (bezier_exits fuel _); [|reflexivity].
      rewrite <- app_assoc. reflexivity.
    + rewrite app_nil_r. reflexivity.
Qed.

Lemma bezier_more_fuel (fuel k : nat) (t : double) :
  bezier_exits fuel t = true ->
  bezier_exits (fuel + k) t = true
  /\ bezier_params (fuel + k) t = bezier_params fuel t.
Proof.
  revert t. induction fuel as [|fuel IH]; intros t; simpl.
  - destruct (t <=? 1.0) eqn:E; [discriminate|]. intros _.
    destruct k; simpl; rewrite E; auto.
  - destruct (t <=? 1.0); [|auto]. intros H.
    destruct (IH _ H) as [H1 H2]. rewrite H1, H2. auto.
Qed.

(** The loop over [t] makes 20 steps, whatever the control points: the
    twentieth addition of 0.05 gives 1.0000000000000002. *)
Lemma bezier_loop_20 (gas : nat) (P0 P1 P2 P3 : PoseStamped)
    (acc : list PoseStamped) :
  (20 <= gas)%nat ->
  bezier_loop gas P0 P1 P2 P3 0 acc
  = Ret (acc ++ (computeBezierPoint P0 P1 P2 P3 <$> bezier_params 20 0)).
Proof.
  intros Hg. replace gas with (20 + (gas - 20))%nat by lia.
  rewrite bezier_loop_params.
  destruct (bezier_more_fuel 20 (gas - 20) 0) as [H1 H2];
    [vm_compute; reflexivity|].
  rewrite H1, H2. reflexivity.
Qed.

Lemma pose_idx_nth (poses : list PoseStamped) (i : nat) :
  (i < length poses)%nat ->
  pose_idx poses i = Ret (nth i poses geometry_msgs.default_pose).
Proof.
  intros Hi. unfold pose_idx.
  destruct (poses !! i) as [p|] eqn:E.
  - f_equal. symmetry. apply nth_lookup_Some with (d := geometry_msgs.default_pose) in E.
    exact E.
  - apply lookup_ge_None in E. lia.
Qed.

Lemma smooth_window_samples (gas : nat) (poses acc : list PoseStamped) (i : nat) :
  (20 <= gas)%nat -> (i + 2 < length poses)%nat ->
  smooth_window gas poses acc i = Ret (acc ++ window_samples poses i).
Proof.
  intros Hg Hi. unfold smooth_window.
  rewrite !pose_idx_nth by lia. simpl.
  rewrite bezier_loop_20 by exact Hg. reflexivity.
Qed.

Lemma smooth_windows (gas : nat) (poses : list PoseStamped) (l : list nat)
    (acc : list PoseStamped) :
  (20 <= gas)%nat -> Forall (fun i => i + 2 < length poses)%nat l ->
  for_each (smooth_window gas poses) l acc
  = Ret (acc ++ (l ≫= window_samples poses)).
Proof.
  intros Hg Hl. revert acc. induction Hl as [|i l Hi Hl IH]; intros acc; simpl.
  - rewrite app_nil_r. reflexivity.
  - rewrite smooth_window_samples by assumption. simpl.
    rewrite IH, <- app_assoc. reflexivity.
Qed.

(** What [smoothPath] returns for a path of four waypoints or more. *)
Lemma smoothPath_long (gas : nat) (path : nav_msgs.Path) :
  (20 <= gas)%nat -> (4 <= length (nav_msgs.poses path))%nat ->
  smoothPath gas path
  = Ret {| nav_msgs.frame_id := nav_msgs.frame_id path;
           nav_msgs.poses :=
             let poses := nav_msgs.poses path in
             nth 0 poses geometry_msgs.default_pose
             :: (seq 1 (length poses - 3) ≫= window_samples poses)
             ++ [nth (length poses - 1) poses geometry_msgs.default_pose] |}.
Proof.
  intros Hg Hn. unfold smoothPath.
  destruct (Nat.ltb_spec (length (nav_msgs.poses path)) 4) as [?|_]; [lia|].
  rewrite !pose_idx_nth by lia. simpl.
  rewrite smooth_windows; [|exact Hg|].
  - reflexivity.
  - apply Forall_forall. intros i Hi. apply elem_of_seq in Hi. lia.
Qed.

Lemma window_samples_length (poses : list PoseStamped) (i : nat) :
  length (window_samples poses i) = 20%nat.
Proof. unfold window_samples. rewrite length_fmap. vm_compute. reflexivity. Qed.

Lemma windows_length (poses : list PoseStamped) (l : list nat) :
  length (l ≫= window_samples poses) = (20 * length l)%nat.
Proof.
  induction l as [|i l IH]; [reflexivity|].
  change ((i :: l) ≫= window_samples poses)
    with (window_samples poses i ++ (l ≫= window_samples poses)).
  rewrite length_app, window_samples_length, IH. simpl. lia.
Qed.

(** C1 (as the code behaves).  [smoothPath] returns a path of fewer than
    four waypoints unchanged.  For four waypoints [a, b, c, d] it returns
    [a], the samples of the one Bezier segment and [d]; the segment has 20
    samples, not 21: the parameters run from 0 to 0.95000000000000029, and
    the next value, 1.0000000000000002, fails [t <= 1.0], so the end point
    [t = 1] of the segment is not sampled.  A path of [n >= 4] waypoints
    gives [2 + 20 * (n - 3)] poses. *)
Theorem smoothPath_four_waypoints (gas : nat) (frame : string)
    (a b c d : PoseStamped) :
  (20 <= gas)%nat ->
  (forall path, (length (nav_msgs.poses path) < 4)%nat ->
                smoothPath gas path = Ret path)
  /\ smoothPath gas {| nav_msgs.frame_id := frame; nav_msgs.poses := [a; b; c; d] |}
     = Ret {| nav_msgs.frame_id := frame;
              nav_msgs.poses :=
                a :: (computeBezierPoint a b c d <$> bezier_params 20 0) ++ [d] |}
  /\ length (computeBezierPoint a b c d <$> bezier_params 20 0) = 20%nat
  /\ last (bezier_params 20 0) = Some 0.95000000000000029
  /\ Forall (fun t => (t <? 1.0) = true) (bezier_params 20 0)
  /\ (forall path path',
        (4 <= length (nav_msgs.poses path))%nat ->
        smoothPath gas path = Ret path' ->
        length (nav_msgs.poses path')
        = (2 + 20 * (length (nav_msgs.poses path) - 3))%nat).
Proof.
  intros Hg. split; [|split; [|split; [|split; [|split]]]].
  - intros path Hlt. unfold smoothPath.
    destruct (Nat.ltb_spec (length (nav_msgs.poses path)) 4) as [_|?]; [reflexivity|lia].
  - rewrite smoothPath_long by (simpl; lia). reflexivity.
  - rewrite length_fmap. vm_compute. reflexivity.
  - vm_compute. reflexivity.
  - vm_compute. repeat constructor.
  - intros path path' Hn H. rewrite smoothPath_long in H by assumption.
    injection H as <-. simpl.
    rewrite length_app, windows_length, length_seq. simpl. lia.
Qed.

End Smoothing.

(** ** The connectivity check *)

Section Connectible.

Context {M : Libm}.
Local Open Scope float_scope.

Lemma connectible_loop_unfold (this : RRTStar) (fuel : nat) (i : Z)
    (steps xi yi x y : double) :
  connectible_loop this (S fuel) i steps xi yi x y
  = if Double.of_int i <? steps then
      if sample_free this x y then
        if (i =? INT_MAX)%Z then Fault
        else connectible_loop this fuel (i + 1) steps xi yi (x + xi) (y + yi)
      else Ret false
    else Ret true.
Proof.
  simpl. unfold sample_free.
  destruct (Double.of_int i <? steps); [|reflexivity].
  destruct (worldToMap _ x y) as [[mx my]|]; [|reflexivity].
  destruct (getCost _ mx my =? FREE_SPACE)%N; reflexivity.
Qed.

Lemma connectible_loop_zero (this : RRTStar) (i : Z) (steps xi yi x y : double) :
  connectible_loop this 0 i steps xi yi x y
  = if Double.of_int i <? steps then Timeout else Ret true.
Proof. reflexivity. Qed.

Lemma reaches_shift (steps : double) (i : Z) (k : nat) :
  (forall j : nat, (j <= S k)%nat -> (Double.of_int (i + Z.of_nat j) <? steps) = true) ->
  (Double.of_int i <? steps) = true
  /\ forall j : nat, (j <= k)%nat -> (Double.of_int (i + 1 + Z.of_nat j) <? steps) = true.
Proof.
  intros H. split.
  - specialize (H 0%nat). rewrite Z.add_0_r in H. apply H. lia.
  - intros j Hj. specialize (H (S j)).
    replace (i + 1 + Z.of_nat j)%Z with (i + Z.of_nat (S j))%Z by lia.
    apply H. lia.
Qed.

(** A positive answer: every sample the loop comes to is free. *)
Lemma connectible_loop_true (this : RRTStar) (fuel : nat) :
  forall (i : Z) (steps xi yi x y : double),
    connectible_loop this fuel i steps xi yi x y = Ret true ->
    forall k : nat,
      (forall j : nat, (j <= k)%nat ->
                       (Double.of_int (i + Z.of_nat j) <? steps) = true) ->
      free_at this (sample_point k x y xi yi) = true.
Proof.
  induction fuel as [|fuel IH]; intros i steps xi yi x y Hr k Hk.
  - rewrite connectible_loop_zero in Hr.
    specialize (Hk 0%nat). rewrite Z.add_0_r in Hk. rewrite Hk in Hr by lia.
    discriminate.
  - rewrite connectible_loop_unfold in Hr.
    assert ((Double.of_int i <? steps) = true) as Hi.
    { specialize (Hk 0%nat). rewrite Z.add_0_r in Hk. apply Hk. lia. }
    rewrite Hi in Hr.
    destruct (sample_free this x y) eqn:Hf; [|discriminate].
    destruct (i =? INT_MAX)%Z; [discriminate|].
    destruct k as [|k]; [exact Hf|].
    simpl. apply (IH _ _ _ _ _ _ Hr). apply reaches_shift, Hk.
Qed.

(** A negative answer, at once: the first sample that is not free ends the
    loop, after [k + 1] iterations. *)
Lemma connectible_loop_false (this : RRTStar) (k : nat) :
  forall (fuel : nat) (i : Z) (steps xi yi x y : double),
    (forall j : nat, (j <= k)%nat ->
                     (Double.of_int (i + Z.of_nat j) <? steps) = true) ->
    (forall j : nat, (j < k)%nat -> free_at this (sample_point j x y xi yi) = true) ->
    free_at this (sample_point k x y xi yi) = false ->
    (i + Z.of_nat k <= INT_MAX)%Z -> (k < fuel)%nat ->
    connectible_loop this fuel i steps xi yi x y = Ret false.
Proof.
  induction k as [|k IH]; intros fuel i steps xi yi x y Hk Hfree Hbad Hmax Hfuel;
    (destruct fuel as [|fuel]; [lia|]); rewrite connectible_loop_unfold.
  - specialize (Hk 0%nat). rewrite Z.add_0_r in Hk. rewrite Hk by lia.
    unfold free_at in Hbad. simpl in Hbad. rewrite Hbad. reflexivity.
  - destruct (reaches_shift _ _ _ Hk) as [Hi Hk']. rewrite Hi.
    pose proof (Hfree 0%nat ltac:(lia)) as H0. unfold free_at in H0. simpl in H0.
    rewrite H0.
    destruct (Z.eqb_spec i INT_MAX) as [->|_]; [lia|].
    apply IH; auto; try lia.
    intros j Hj. apply (Hfree (S j)). lia.
Qed.

(** The answer is a function of the samples the loop comes to. *)
Lemma connectible_loop_ext (this this' : RRTStar) (fuel : nat) :
  forall (i : Z) (steps xi yi x y : double),
    (forall k : nat,
        (forall j : nat, (j <= k)%nat ->
                         (Double.of_int (i + Z.of_nat j) <? steps) = true) ->
        free_at this (sample_point k x y xi yi)
        = free_at this' (sample_point k x y xi yi)) ->
    connectible_loop this fuel i steps xi yi x y
    = connectible_loop this' fuel i steps xi yi x y.
Proof.
  induction fuel as [|fuel IH]; intros i steps xi yi x y H.
  - reflexivity.
  - rewrite !connectible_loop_unfold.
    destruct (Double.of_int i <? steps) eqn:Hi; [|reflexivity].
    assert (sample_free this x y = sample_free this' x y) as E.
    { apply (H 0%nat). intros j Hj. replace j with 0%nat by lia.
      rewrite Z.add_0_r. exact Hi. }
    rewrite <- E. destruct (sample_free this x y); [|reflexivity].
    destruct (i =? INT_MAX)%Z; [reflexivity|].
    apply IH. intros k Hk. apply (H (S k)).
    intros j Hj. destruct j as [|j].
    + rewrite Z.add_0_r. exact Hi.
    + replace (i + Z.of_nat (S j))%Z with (i + 1 + Z.of_nat j)%Z by lia.
      apply Hk. lia.
Qed.

(** The number of steps of a segment from a point to itself is not
    positive: it is 0, -0 or NaN. *)
Lemma steps_refl `{!LibmLaws M} (this : RRTStar) (A : Vertex.t) :
  (0 <? connectible_steps this A A) = false.
Proof.
  unfold connectible_steps.
  assert (forall r, (0 <? ceil (0 / r)) = false) as Hz.
  { intros r. destruct (DoubleFacts.zero_div r) as [E|[E|E]]; rewrite E.
    - rewrite ceil_zero. reflexivity.
    - rewrite ceil_neg_zero. reflexivity.
    - rewrite ceil_nan. reflexivity. }
  assert (forall r, (0 <? ceil (nan / r)) = false) as Hn.
  { intros r. rewrite DoubleFacts.nan_div, ceil_nan. reflexivity. }
  destruct (DoubleFacts.sub_diag (Vertex.x A)) as [Ex|Ex],
           (DoubleFacts.sub_diag (Vertex.y A)) as [Ey|Ey]; rewrite Ex, Ey.
  - rewrite hypot_zero. apply Hz.
  - rewrite hypot_zero_nan. apply Hn.
  - rewrite hypot_nan_zero. apply Hn.
  - rewrite hypot_nan_nan. apply Hn.
Qed.

(** C5. [connectible A B] answers true only if every sample of the
    segment, cut into [ceil (distance / interpolation_resolution)] steps,
    lies in a cell of the grid that is free; the first sample that does not
    ends the check with the answer false; a segment of no step is
    connectible, and so is the segment from a point to itself. *)
Theorem connectible_spec `{!LibmLaws M} (this : RRTStar) (gas : nat)
    (A B : Vertex.t) :
  let steps := connectible_steps this A B in
  (connectible this gas A B = Ret true ->
   forall k : nat, reaches steps k ->
                   free_at this (segment_sample this A B k) = true)
  /\ (forall k : nat,
        reaches steps k ->
        (forall j : nat, (j < k)%nat ->
                         free_at this (segment_sample this A B j) = true) ->
        free_at this (segment_sample this A B k) = false ->
        (Z.of_nat k <= INT_MAX)%Z -> (k < gas)%nat ->
        connectible this gas A B = Ret false)
  /\ ((0 <? steps) = false -> connectible this gas A B = Ret true)
  /\ connectible this gas A A = Ret true.
Proof.
  intros steps. split; [|split; [|split]].
  - intros Hr k Hk. unfold connectible in Hr. fold steps in Hr.
    assert ((0 <? steps) = true) as H0 by (apply (Hk 0%nat); lia).
    rewrite H0 in Hr. apply (connectible_loop_true _ _ _ _ _ _ _ _ Hr).
    intros j Hj. apply Hk, Hj.
  - intros k Hk Hfree Hbad Hmax Hgas. unfold connectible. fold steps.
    assert ((0 <? steps) = true) as H0 by (apply (Hk 0%nat); lia).
    rewrite H0. apply (connectible_loop_false this k); auto.
  - intros H0. unfold connectible. fold steps. rewrite H0. reflexivity.
  - unfold connectible. rewrite steps_refl. reflexivity.
Qed.

(** The answer of [connectible A B] is a function of the samples the loop
    comes to. *)
Lemma connectible_samples_only (this this' : RRTStar) (gas : nat) (A B : Vertex.t) :
  interpolation_resolution_ this = interpolation_resolution_ this' ->
  (forall k : nat,
      reaches (connectible_steps this A B) k ->
      free_at this (segment_sample this A B k)
      = free_at this' (segment_sample this A B k)) ->
  connectible this gas A B = connectible this' gas A B.
Proof.
  intros Hres H. unfold connectible, connectible_steps. rewrite <- Hres.
  fold (connectible_steps this A B).
  destruct (0 <? connectible_steps this A B); [|reflexivity].
  apply connectible_loop_ext. intros k Hk. apply H. exact Hk.
Qed.

(** The answer depends on the position of the end point only. *)
Lemma connectible_pos_r (this : RRTStar) (gas : nat) (A B B' : Vertex.t) :
  Vertex.x B = Vertex.x B' -> Vertex.y B = Vertex.y B' ->
  connectible this gas A B = connectible this gas A B'.
Proof.
  intros Hx Hy. unfold connectible, connectible_steps. rewrite Hx, Hy. reflexivity.
Qed.

End Connectible.

(** *** The end point of a segment *)

(** C9 (as stated) fails: with cells of side 1 and steps of 0.25, the
    segment from (0.5, 0.5) to (1.5, 0.5) is connectible when the cell
    (1, 0) of its end point is free and not connectible when that cell is
    occupied, the rest of the grid being the same: the samples at 1.0 and
    1.25 lie in that cell. *)
Lemma endpoint_cell_checked : ~ @endpoint_cell_unchecked Ref.libm.
Proof.
  intros H.
  specialize (H (configure (Ref.grid 1 3 1 [(1, 0)%N]) "map" 0.25)
                (configure (Ref.grid 1 3 1 []) "map" 0.25)
                10%nat (Vertex.new 0.5 0.5) (Vertex.new 1.5 0.5) (1, 0)%N
                eq_refl eq_refl).
  assert (Ret false = Ret true :> result bool) as E; [|discriminate].
  apply H.
  - split; [reflexivity|].
    intros mx my Hne. cbn -[N.eqb].
    destruct (N.eqb_spec 1 mx) as [<-|?], (N.eqb_spec 0 my) as [<-|?];
      simpl; congruence.
  - vm_compute. discriminate.
Qed.

(** The samples are sums of rounded increments: the last of them can be
    the end point itself.  From x = 10000000000000002 to
    x = 10000000000000004 in two steps of 1, the second sample is the end
    point. *)
Lemma sample_can_equal_endpoint :
  let this := configure (Ref.grid 1 3 1 []) "map" 1 in
  let A := Vertex.new 10000000000000002 0.5 in
  let B := Vertex.new 10000000000000004 0.5 in
  connectible_steps (M := Ref.libm) this A B = 2%float
  /\ segment_sample (M := Ref.libm) this A B 1 = (Vertex.x B, Vertex.y B).
Proof. vm_compute. split; reflexivity. Qed.

(** C9 (amended).  The answer of [connectible A B] is a function of the
    samples number 0, ..., steps - 1, which are got from [A] by adding the
    increment; no check is made of the end point [B] as such, so the cell
    of [B] is looked at only when one of those samples lies in it.  A
    segment that ends in an occupied cell, or outside the grid, can be
    reported connectible, and [connectible A B] can differ from
    [connectible B A]. *)
Theorem connectible_endpoint :
  (forall (M : Libm) (this this' : RRTStar) (gas : nat) (A B : Vertex.t),
      interpolation_resolution_ this = interpolation_resolution_ this' ->
      (forall k : nat,
          reaches (connectible_steps this A B) k ->
          free_at this (segment_sample this A B k)
          = free_at this' (segment_sample this A B k)) ->
      connectible this gas A B = connectible this' gas A B)
  /\ (let this := configure (Ref.grid 1 3 1 [(1, 0)%N]) "map" 0.25 in
      let A := Vertex.new 0.75 0.5 in
      let B := Vertex.new 1 0.5 in
      worldToMap (costmap_ this) (Vertex.x B) (Vertex.y B) = Some (1, 0)%N
      /\ getCost (costmap_ this) 1 0 <> FREE_SPACE
      /\ connectible (M := Ref.libm) this 10 A B = Ret true
      /\ connectible (M := Ref.libm) this 10 B A = Ret false)
  /\ (let this := configure (Ref.grid 1 3 1 []) "map" 0.25 in
      let A := Vertex.new 2.75 0.5 in
      let B := Vertex.new 3 0.5 in
      worldToMap (costmap_ this) (Vertex.x B) (Vertex.y B) = None
      /\ connectible (M := Ref.libm) this 10 A B = Ret true).
Proof.
  split; [|split].
  - intros M. apply @connectible_samples_only.
  - vm_compute. repeat split; discriminate.
  - vm_compute. repeat split.
Qed.

(** ** Loops over vectors *)

Lemma bind_Ret_inv {A B : Type} (m : result A) (f : A -> result B) (b : B) :
  m ≫= f = Ret b -> exists a, m = Ret a /\ f a = Ret b.
Proof. destruct m as [a| |]; simpl; intros H; try discriminate. eauto. Qed.

Lemma for_each_inv {S A : Type} (P : S -> Prop) (body : S -> A -> result S)
    (l : list A) :
  (forall s a s', a ∈ l -> P s -> body s a = Ret s' -> P s') ->
  forall s s', P s -> for_each body l s = Ret s' -> P s'.
Proof.
  induction l as [|a l IH]; intros Hstep s s' Hs Hr; simpl in Hr.
  - injection Hr as <-. exact Hs.
  - apply bind_Ret_inv in Hr as (s1 & H1 & H2).
    apply (IH (fun s a s' Ha => Hstep s a s' (list_elem_of_further _ _ _ Ha)) s1 s');
      [|exact H2].
    apply (Hstep s a s1); [apply list_elem_of_here|exact Hs|exact H1].
Qed.

(** ** Growth of the tree *)

Section Growth.

Context {M : Libm} {R : RandomSource}.
Variable this : RRTStar.
Variable gas : nat.
Local Open Scope float_scope.

Lemma rewire_body_length (tree_ tree' : list Vertex.t) (b b' : double) (index : nat) :
  rewire_body this gas (tree_, b) index = Ret (tree', b') ->
  length tree' = length tree_.
Proof.
  unfold rewire_body. intros H.
  apply bind_Ret_inv in H as (candidate & _ & H).
  apply bind_Ret_inv in H as (back & _ & H).
  apply bind_Ret_inv in H as (c & _ & H).
  destruct (_ <? b); [|injection H as <- _; reflexivity].
  apply bind_Ret_inv in H as ([|] & _ & H); injection H as <- _.
  - apply length_insert.
  - reflexivity.
Qed.

Lemma rewire_loop_length (l : list nat) (s s' : list Vertex.t * double) :
  for_each (rewire_body this gas) l s = Ret s' -> length s'.1 = length s.1.
Proof.
  apply (for_each_inv (fun s0 => length s0.1 = length s.1)); [|reflexivity].
  intros [t b] a [t' b'] _ Hs Hr. simpl in *.
  rewrite <- Hs. eapply rewire_body_length, Hr.
Qed.

(** One turn of the growth loop either inserts one vertex and leaves the
    counter, or leaves the tree and takes the counter back by one. *)
Lemma grow_body_cases (goal : PoseStamped) (brc : double) (i i' : Z)
    (gen gen' : Gen) (tree_ tree' : list Vertex.t) :
  grow_body this gas goal brc i gen tree_ = Ret (i', gen', tree') ->
  (i' = i /\ length tree' = S (length tree_))
  \/ (i' = (i - 1)%Z /\ tree' = tree_).
Proof.
  unfold grow_body.
  destruct ((if (Z.rem i 5 =? 0)%Z then _ else _) gen) as [rand_x gen1].
  destruct ((if (Z.rem i 5 =? 0)%Z then _ else _) gen1) as [rand_y gen2].
  destruct (nearest_neighbor _ _ _) as [n|]; [|discriminate].
  intros H. apply bind_Ret_inv in H as (nearest & _ & H).
  apply bind_Ret_inv in H as ([|] & _ & H).
  - apply bind_Ret_inv in H as (back & _ & H).
    apply bind_Ret_inv in H as (total & _ & H).
    apply bind_Ret_inv in H as (s & Hs & H).
    injection H as <- <- <-. left. split; [reflexivity|].
    apply rewire_loop_length in Hs. rewrite Hs. simpl.
    rewrite length_app. simpl. lia.
  - injection H as <- <- <-. right. auto.
Qed.

Lemma grow_length (goal : PoseStamped) (brc : double) (fuel : nat) :
  forall (i : Z) (gen gen' : Gen) (tree_ tree' : list Vertex.t),
    grow this gas fuel goal brc i gen tree_ = Ret (gen', tree') ->
    Z.of_nat (length tree_) = i ->
    Z.of_nat (length tree') = Z.max i (max_iterations_ this).
Proof.
  induction fuel as [|fuel IH]; intros i gen gen' tree_ tree' H Hi; simpl in H.
  - destruct (Z.leb_spec i (max_iterations_ this - 1)); [discriminate|].
    injection H as <- <-. lia.
  - destruct (Z.leb_spec i (max_iterations_ this - 1)).
    + apply bind_Ret_inv in H as ([[i1 gen1] tree1] & Hb & H). simpl in H.
      apply grow_body_cases in Hb as [[-> Hl]|[-> ->]].
      * apply IH in H; [|lia]. lia.
      * replace (i - 1 + 1)%Z with i in H by lia. apply IH in H; [|lia]. lia.
    + injection H as <- <-. lia.
Qed.

(** One turn of the growth loop, by the answer of the connectivity check
    between the nearest neighbour and the point drawn. *)
Lemma grow_body_turn (goal : PoseStamped) (brc : double) (i i' : Z)
    (gen gen' : Gen) (tree_ tree' : list Vertex.t) :
  grow_body this gas goal brc i gen tree_ = Ret (i', gen', tree') ->
  let d := draw this goal i gen in
  exists (n : nat) (nearest : Vertex.t) (ok : bool),
    nearest_neighbor tree_ d.1.1 d.1.2 = Some n /\ tree_ !! n = Some nearest
    /\ connectible this gas nearest (Vertex.new d.1.1 d.1.2) = Ret ok
    /\ gen' = d.2
    /\ if ok then i' = i /\ length tree' = S (length tree_)
       else i' = (i - 1)%Z /\ tree' = tree_.
Proof.
  unfold grow_body, draw.
  destruct ((if (Z.rem i 5 =? 0)%Z then _ else _) gen) as [rand_x gen1].
  destruct ((if (Z.rem i 5 =? 0)%Z then _ else _) gen1) as [rand_y gen2].
  cbn [fst snd].
  destruct (nearest_neighbor _ _ _) as [n|]; [|discriminate].
  intros H. apply bind_Ret_inv in H as (nearest & Hnear & H).
  unfold tree_at in Hnear.
  destruct (tree_ !! n) as [w|] eqn:Hw; [|discriminate]. injection Hnear as ->.
  apply bind_Ret_inv in H as (ok & Hok & H).
  exists n, nearest, ok. split; [reflexivity|]. split; [exact Hw|].
  split; [rewrite <- Hok; apply connectible_pos_r; reflexivity|].
  destruct ok.
  - apply bind_Ret_inv in H as (back & _ & H).
    apply bind_Ret_inv in H as (total & _ & H).
    apply bind_Ret_inv in H as (s & Hs & H).
    injection H as <- <- <-. split; [reflexivity|]. split; [reflexivity|].
    apply rewire_loop_length in Hs. rewrite Hs. simpl.
    rewrite length_app. simpl. lia.
  - injection H as <- <- <-. auto.
Qed.

End Growth.

(** C7. With the budget of 1000 that [configure] sets, the growth loop
    ends with a tree of exactly 1000 vertices, the root included, however
    many samples it drew.  In a turn, the point drawn whose segment from
    its nearest neighbour is not connectible is discarded: the tree stays
    as it is and the loop counter is taken back, so that the same slot is
    tried again; when the segment is connectible the turn keeps its slot
    and inserts exactly one vertex.  Either way the size of the tree is the
    number of slots used, and the loop goes on at the same slot after a
    discarded point and at the next one after an insertion. *)
Theorem growth_budget {M : Libm} {R : RandomSource} (costmap : Costmap2D)
    (global_frame : string) (resolution : double) (gas fuel : nat)
    (start goal : PoseStamped) (brc : double) (gen gen' : Gen)
    (tree' : list Vertex.t) :
  let this := configure costmap global_frame resolution in
  grow this gas fuel goal brc 1 gen [start_vertex start] = Ret (gen', tree') ->
  length tree' = 1000%nat
  /\ forall (i i1 : Z) (g g1 : Gen) (t t1 : list Vertex.t),
       grow_body this gas goal brc i g t = Ret (i1, g1, t1) ->
       let d := draw this goal i g in
       exists (n : nat) (nearest : Vertex.t) (ok : bool),
         nearest_neighbor t d.1.1 d.1.2 = Some n /\ t !! n = Some nearest
         /\ connectible this gas nearest (Vertex.new d.1.1 d.1.2) = Ret ok
         /\ g1 = d.2
         /\ (if ok then i1 = i /\ length t1 = S (length t)
             else i1 = (i - 1)%Z /\ t1 = t)
         /\ (Z.of_nat (length t) = i -> Z.of_nat (length t1) = (i1 + 1)%Z)
         /\ ((i <= 999)%Z ->
             forall f : nat,
               grow this gas (S f) goal brc i g t
               = grow this gas f goal brc (if ok then i + 1 else i)%Z g1 t1).
Proof.
  intros this H. split.
  - apply grow_length in H; [|reflexivity]. simpl in H. lia.
  - intros i i1 g g1 t t1 Hb d.
    destruct (grow_body_turn this gas _ _ _ _ _ _ _ _ Hb)
      as (n & nearest & ok & Hn & Hnear & Hok & Hg & Hcase).
    exists n, nearest, ok.
    split; [exact Hn|]. split; [exact Hnear|]. split; [exact Hok|].
    split; [exact Hg|]. split; [exact Hcase|]. split.
    + intros Hi. destruct ok; destruct Hcase as [-> Ht]; [|subst t1]; lia.
    + intros Hi f. cbn [grow]. cbn [max_iterations_ this configure].
      destruct (Z.leb_spec i (1000 - 1)); [|lia].
      rewrite Hb. cbn [mbind result_bind fst snd].
      destruct ok; destruct Hcase as [-> Ht]; f_equal; lia.
Qed.

(** ** Connection of the goal and extraction of the path *)

Section Goal.

Context {M : Libm}.
Variable this : RRTStar.
Variable gas : nat.
Local Open Scope float_scope.

Lemma connectible_pos (A A' B : Vertex.t) :
  Vertex.x A = Vertex.x A' -> Vertex.y A = Vertex.y A' ->
  connectible this gas A B = connectible this gas A' B.
Proof.
  intros Hx Hy. unfold connectible, connectible_steps. rewrite Hx, Hy. reflexivity.
Qed.

Lemma for_each_rel {S A : Type} (P : S -> S -> Prop) (body : S -> A -> result S)
    (l : list A) :
  (forall s1 s2 a, P s1 s2 -> result_rel P (body s1 a) (body s2 a)) ->
  forall s1 s2, P s1 s2 -> result_rel P (for_each body l s1) (for_each body l s2).
Proof.
  intros Hb. induction l as [|a l IH]; intros s1 s2 Hs; simpl; [exact Hs|].
  specialize (Hb s1 s2 a Hs).
  destruct (body s1 a) as [t1| |], (body s2 a) as [t2| |];
    try contradiction; try exact I.
  apply IH, Hb.
Qed.

Lemma goal_scan_body_rel (goal : PoseStamped) (tree_ : list Vertex.t)
    (s1 s2 : double * Vertex.t) (index : nat) :
  same_scan s1 s2 ->
  result_rel same_scan (goal_scan_body this gas goal tree_ s1 index)
                       (goal_scan_body this gas goal tree_ s2 index).
Proof.
  destruct s1 as [m1 e1], s2 as [m2 e2]. intros (Hm & Hx & Hy). simpl in *. subst m2.
  unfold goal_scan_body.
  destruct (tree_at tree_ index) as [candidate| |]; simpl; auto.
  destruct (calculate_cost_from_start gas tree_ candidate) as [c| |]; simpl; auto.
  destruct (_ <? m1); simpl; [|repeat split; auto].
  rewrite (connectible_pos e1 e2) by assumption.
  destruct (connectible this gas e2 candidate) as [[|]| |]; simpl; repeat split; auto.
Qed.

Lemma goal_scan_body_pos (goal : PoseStamped) (tree_ : list Vertex.t)
    (s s' : double * Vertex.t) (index : nat) :
  goal_scan_body this gas goal tree_ s index = Ret s' ->
  Vertex.x s'.2 = Vertex.x s.2 /\ Vertex.y s'.2 = Vertex.y s.2.
Proof.
  destruct s as [m e]. unfold goal_scan_body. intros H.
  apply bind_Ret_inv in H as (candidate & _ & H).
  apply bind_Ret_inv in H as (c & _ & H).
  destruct (_ <? m); [|injection H as <-; auto].
  apply bind_Ret_inv in H as ([|] & _ & H); injection H as <-; auto.
Qed.

Lemma goal_scan_pos (goal : PoseStamped) (tree_ : list Vertex.t) (vs : list nat)
    (end_vertex : Vertex.t) (s : double * Vertex.t) :
  goal_scan this gas goal tree_ vs end_vertex = Ret s ->
  Vertex.x s.2 = Vertex.x end_vertex /\ Vertex.y s.2 = Vertex.y end_vertex.
Proof.
  unfold goal_scan.
  apply (for_each_inv
           (fun s0 => Vertex.x s0.2 = Vertex.x end_vertex
                      /\ Vertex.y s0.2 = Vertex.y end_vertex)); [|auto].
  intros s0 a s1 _ [Hx Hy] Hb. apply goal_scan_body_pos in Hb as [Hx' Hy'].
  split; congruence.
Qed.

(** A scan that has failed fails again: it reads the tree, the costmap
    and the position of the goal, and none of them has changed. *)
Lemma goal_scan_again (goal : PoseStamped) (tree_ : list Vertex.t) (vs : list nat)
    (end_vertex : Vertex.t) (s : double * Vertex.t) :
  goal_scan this gas goal tree_ vs end_vertex = Ret s ->
  exists end_vertex', goal_scan this gas goal tree_ vs s.2 = Ret (s.1, end_vertex').
Proof.
  intros H. pose proof (goal_scan_pos _ _ _ _ _ H) as [Hx Hy].
  assert (result_rel same_scan
            (goal_scan this gas goal tree_ vs end_vertex)
            (goal_scan this gas goal tree_ vs s.2)) as Hrel.
  { apply for_each_rel; [apply goal_scan_body_rel|]. repeat split; simpl; auto. }
  rewrite H in Hrel.
  destruct (goal_scan this gas goal tree_ vs s.2) as [[m e]| |]; simpl in Hrel;
    try contradiction.
  destruct Hrel as (Hm & _). simpl in Hm. subst m. eauto.
Qed.

Lemma connect_goal_never (goal : PoseStamped) (tree_ : list Vertex.t)
    (vs : list nat) (poses : list PoseStamped) (min_cost : double) (fuel : nat) :
  (min_cost <? 10000) = false ->
  forall end_vertex end_vertex',
    goal_scan this gas goal tree_ vs end_vertex = Ret (min_cost, end_vertex') ->
    connect_goal this gas fuel goal tree_ vs end_vertex poses = Timeout.
Proof.
  intros Hc. induction fuel as [|fuel IH]; intros ev ev' Hs; simpl; [reflexivity|].
  rewrite Hs. simpl. rewrite Hc.
  apply goal_scan_again in Hs as (ev'' & Hs). simpl in Hs.
  apply (IH ev' ev''), Hs.
Qed.

(** *** The raw path *)

Lemma densify_suffix (fuel : nat) :
  forall (i : Z) (steps xi yi x y : double) (poses poses' : list PoseStamped),
    densify_loop fuel i steps xi yi x y poses = Ret poses' ->
    exists pre, poses' = pre ++ poses.
Proof.
  induction fuel as [|fuel IH]; intros i steps xi yi x y poses poses' H; simpl in H.
  - destruct (_ <? _); [discriminate|]. injection H as <-. exists []. reflexivity.
  - destruct (_ <? _).
    + destruct (i =? INT_MAX)%Z; [discriminate|].
      apply IH in H as (pre & ->). exists (pre ++ [pose_at (x + xi) (y + yi)]).
      rewrite <- app_assoc. reflexivity.
    + injection H as <-. exists []. reflexivity.
Qed.

Lemma extract_suffix (fuel : nat) :
  forall (tree_ : list Vertex.t) (cur_ver : option Vertex.t)
         (poses poses' : list PoseStamped),
    extract_path gas fuel tree_ cur_ver poses = Ret poses' ->
    exists pre, poses' = pre ++ poses.
Proof.
  induction fuel as [|fuel IH]; intros tree_ cur poses poses' H;
    destruct cur as [v|]; simpl in H; try discriminate;
    try (injection H as <-; exists []; reflexivity).
  destruct (Vertex.parent v) as [p|].
  - apply bind_Ret_inv in H as (par & _ & H).
    apply bind_Ret_inv in H as (poses1 & Hd & H).
    apply densify_suffix in Hd as (pre1 & ->).
    apply IH in H as (pre & ->).
    exists (pre ++ pre1 ++ [pose_at (Vertex.x v) (Vertex.y v)]).
    rewrite <- !app_assoc. reflexivity.
  - apply IH in H as (pre & ->).
    exists (pre ++ [pose_at (Vertex.x v) (Vertex.y v)]).
    rewrite <- app_assoc. reflexivity.
Qed.

(** The walk starts with the pose of the vertex it starts from: that pose
    ends up right before the poses that were there. *)
Lemma extract_from (fuel : nat) (tree_ : list Vertex.t) (v : Vertex.t)
    (poses poses' : list PoseStamped) :
  extract_path gas fuel tree_ (Some v) poses = Ret poses' ->
  exists pre, poses' = pre ++ pose_at (Vertex.x v) (Vertex.y v) :: poses.
Proof.
  destruct fuel as [|fuel]; simpl; [discriminate|].
  destruct (Vertex.parent v) as [p|]; intros H.
  - apply bind_Ret_inv in H as (par & _ & H).
    apply bind_Ret_inv in H as (poses1 & Hd & H).
    apply densify_suffix in Hd as (pre1 & ->).
    apply extract_suffix in H as (pre & ->).
    exists (pre ++ pre1). rewrite <- app_assoc. reflexivity.
  - apply extract_suffix in H as (pre & ->). exists pre. reflexivity.
Qed.

Lemma connect_goal_path (goal : PoseStamped) (tree_ : list Vertex.t)
    (vs : list nat) (poses : list PoseStamped) (fuel : nat) :
  forall (end_vertex : Vertex.t) (tree' : list Vertex.t) (poses' : list PoseStamped),
    connect_goal this gas fuel goal tree_ vs end_vertex poses = Ret (tree', poses') ->
    exists end_vertex' pre,
      tree' = tree_ ++ [end_vertex']
      /\ Vertex.x end_vertex' = Vertex.x end_vertex
      /\ Vertex.y end_vertex' = Vertex.y end_vertex
      /\ poses' = pre ++ pose_at (Vertex.x end_vertex) (Vertex.y end_vertex) :: poses.
Proof.
  induction fuel as [|fuel IH]; intros ev tree' poses' H; simpl in H; [discriminate|].
  apply bind_Ret_inv in H as ([mc ev1] & Hs & H). simpl in H.
  apply goal_scan_pos in Hs as [Hx Hy]. simpl in Hx, Hy.
  destruct (mc <? 10000).
  - apply bind_Ret_inv in H as (poses1 & He & H). injection H as <- <-.
    apply extract_from in He as (pre & ->).
    exists ev1, pre. rewrite Hx, Hy. auto.
  - apply IH in H as (ev2 & pre & -> & Hx2 & Hy2 & ->).
    exists ev2, pre. rewrite <- Hx, <- Hy. repeat split; congruence.
Qed.

End Goal.

(** C10. In every plan that is found, the raw path (before smoothing)
    ends with the position of the goal twice: the pose of the goal vertex,
    the first one the walk from the goal to the root emits, and after it
    the pose inserted before the growth of the tree, which stays the last
    element, every pose of the walk being put in front of it. *)
Theorem raw_path_ends_with_goal_twice {M : Libm} {R : RandomSource}
    (this : RRTStar) (gas fuel : nat) (start goal : PoseStamped) (gen : Gen)
    (tree' : list Vertex.t) (raw : list PoseStamped) :
  plan_raw this gas fuel start goal gen = Ret (tree', raw) ->
  exists pre,
    raw = pre ++ [pose_at (geometry_msgs.px goal) (geometry_msgs.py goal);
                  goal_pose goal]
    /\ geometry_msgs.position
         (geometry_msgs.pose (pose_at (geometry_msgs.px goal) (geometry_msgs.py goal)))
       = geometry_msgs.position (geometry_msgs.pose (goal_pose goal))
    /\ geometry_msgs.px (goal_pose goal) = geometry_msgs.px goal
    /\ geometry_msgs.py (goal_pose goal) = geometry_msgs.py goal.
Proof.
  unfold plan_raw. intros H.
  apply bind_Ret_inv in H as ([gen1 tree1] & _ & H). simpl in H.
  apply connect_goal_path in H as (ev & pre & _ & _ & _ & ->).
  exists pre. simpl. auto.
Qed.

(** ** The search tree *)

Section Tree.

Context {M : Libm}.
Local Open Scope float_scope.

Lemma tree_at_Ret (tree_ : list Vertex.t) (i : nat) (v : Vertex.t) :
  tree_at tree_ i = Ret v <-> tree_ !! i = Some v.
Proof.
  unfold tree_at. destruct (tree_ !! i); split; intros H; try discriminate; congruence.
Qed.

Lemma tree_back_snoc (tree_ : list Vertex.t) (v : Vertex.t) :
  tree_back (tree_ ++ [v]) = Ret v.
Proof.
  unfold tree_back. apply tree_at_Ret.
  rewrite length_app, Nat.add_1_r. simpl. apply list_lookup_middle. reflexivity.
Qed.

Lemma insert_back_snoc (tree_ : list Vertex.t) (v v' : Vertex.t) :
  <[pred (length (tree_ ++ [v])) := v']> (tree_ ++ [v]) = tree_ ++ [v'].
Proof.
  rewrite length_app, Nat.add_1_r. simpl.
  replace (length tree_) with (length tree_ + 0)%nat at 1 by lia.
  rewrite insert_app_r. reflexivity.
Qed.

(** *** Nearest neighbour and near set *)

Lemma nearest_loop_Some (vs : list Vertex.t) :
  forall (i : nat) (x y min_dist : double) (nearest_vertex : option nat) (n : nat),
    nearest_loop vs i x y min_dist nearest_vertex = Some n ->
    nearest_vertex = Some n
    \/ exists v, vs !! (n - i)%nat = Some v /\ (i <= n)%nat
                 /\ is_nan (calculate_distance x y v) = false.
Proof.
  induction vs as [|v vs IH]; intros i x y md nv n H; simpl in H; [auto|].
  destruct (calculate_distance x y v <? md) eqn:E.
  - apply IH in H as [H|(w & Hw & Hi & Hn)].
    + injection H as <-. right. exists v. rewrite Nat.sub_diag. repeat split; auto.
      eapply DoubleFacts.ltb_not_nan_l, E.
    + right. exists w. replace (n - i)%nat with (S (n - S i)) by lia.
      repeat split; auto. lia.
  - apply IH in H as [H|(w & Hw & Hi & Hn)]; [auto|].
    right. exists w. replace (n - i)%nat with (S (n - S i)) by lia.
    repeat split; auto. lia.
Qed.

Lemma nearest_neighbor_Some (tree_ : list Vertex.t) (x y : double) (n : nat) :
  nearest_neighbor tree_ x y = Some n ->
  exists v, tree_ !! n = Some v /\ is_nan (calculate_distance x y v) = false.
Proof.
  unfold nearest_neighbor. intros H.
  apply nearest_loop_Some in H as [H|(v & Hv & _ & Hn)]; [discriminate|].
  rewrite Nat.sub_0_r in Hv. eauto.
Qed.

Lemma inside_circle_loop_range (vs : list Vertex.t) :
  forall (i : nat) (cx cy r2 : double) (n : nat),
    n ∈ inside_circle_loop vs i cx cy r2 -> (i <= n < i + length vs)%nat.
Proof.
  induction vs as [|v vs IH]; intros i cx cy r2 n H; simpl in H.
  - apply elem_of_nil in H. contradiction.
  - destruct (_ <=? r2).
    + apply elem_of_cons in H as [->|H]; [simpl; lia|].
      apply IH in H. simpl. lia.
    + apply IH in H. simpl. lia.
Qed.

Lemma near_set_range (tree_ : list Vertex.t) (cx cy radius : double) :
  Forall (fun n => (n < length tree_)%nat)
         (findVerticesInsideCircle tree_ cx cy radius).
Proof.
  apply Forall_forall. intros n H. apply inside_circle_loop_range in H. lia.
Qed.

(** *** The cost from the start *)

Lemma cost_walk_app (tree_ l : list Vertex.t) (fuel : nat) :
  parents_in_range tree_ ->
  forall (cur_ver : Vertex.t) (total_cost : double),
    (forall p, Vertex.parent cur_ver = Some p -> (p < length tree_)%nat) ->
    cost_walk fuel (tree_ ++ l) cur_ver total_cost
    = cost_walk fuel tree_ cur_ver total_cost.
Proof.
  intros Hr. induction fuel as [|fuel IH]; intros cur acc Hp; simpl.
  - reflexivity.
  - destruct (Vertex.parent cur) as [p|] eqn:Ep; [|reflexivity].
    rewrite lookup_app_l by auto.
    destruct (tree_ !! p) as [v|] eqn:Ev; [|reflexivity].
    apply IH. intros q Hq. eapply Hr; eauto.
Qed.

Lemma cost_from_start_app (gas : nat) (tree_ l : list Vertex.t) (i : nat) (v : Vertex.t) :
  parents_in_range tree_ -> tree_ !! i = Some v ->
  calculate_cost_from_start gas (tree_ ++ l) v
  = calculate_cost_from_start gas tree_ v.
Proof.
  intros Hr Hv. apply cost_walk_app; [exact Hr|]. intros p Hp. eapply Hr; eauto.
Qed.

Lemma calculate_distance_pos (x y : double) (v v' : Vertex.t) :
  Vertex.x v = Vertex.x v' -> Vertex.y v = Vertex.y v' ->
  calculate_distance x y v = calculate_distance x y v'.
Proof. unfold calculate_distance. intros -> ->. reflexivity. Qed.

Lemma calculate_distance_not_neg (x y : double) (v : Vertex.t) :
  is_nan (calculate_distance x y v) = false ->
  (0 <=? calculate_distance x y v) = true.
Proof.
  intros H. apply DoubleFacts.not_neg_nonneg; [exact H|].
  apply DoubleFacts.sqrt_not_neg.
Qed.

(** The distance does not depend on the side it is measured from. *)
Lemma calculate_distance_sym `{!LibmLaws M} (a b : Vertex.t) :
  calculate_distance (Vertex.x a) (Vertex.y a) b
  = calculate_distance (Vertex.x b) (Vertex.y b) a.
Proof.
  unfold calculate_distance.
  assert (forall u w : double, pow (u - w) 2 = pow (w - u) 2) as H.
  { intros u w. destruct (DoubleFacts.sub_antisym w u) as [E|E]; rewrite E.
    - apply pow_even.
    - reflexivity. }
  rewrite (H (Vertex.x b)), (H (Vertex.y b)). reflexivity.
Qed.

End Tree.

(** ** Insertion and rewiring *)

Lemma for_each_prefix_inv {S A : Type} (P : list A -> S -> Prop) (Q : A -> Prop)
    (body : S -> A -> result S) :
  (forall done a s s', Q a -> P done s -> body s a = Ret s' -> P (done ++ [a]) s') ->
  forall l done s s',
    Forall Q l -> P done s -> for_each body l s = Ret s' -> P (done ++ l) s'.
Proof.
  intros Hstep. induction l as [|a l IH]; intros done s s' Hl Hs Hr; simpl in Hr.
  - injection Hr as <-. rewrite app_nil_r. exact Hs.
  - apply bind_Ret_inv in Hr as (s1 & H1 & H2).
    apply Forall_cons in Hl as [Ha Hl].
    replace (done ++ a :: l) with ((done ++ [a]) ++ l)
      by (rewrite <- app_assoc; reflexivity).
    apply (IH _ s1); eauto.
Qed.

Section Rewire.

Context {M : Libm}.
Variable this : RRTStar.
Variable gas : nat.
Local Open Scope float_scope.

Lemma via_cost_pos (tree_ : list Vertex.t) (v v' : Vertex.t) (c : nat) (r : double) :
  Vertex.x v = Vertex.x v' -> Vertex.y v = Vertex.y v' ->
  via_cost this gas tree_ v c r -> via_cost this gas tree_ v' c r.
Proof.
  intros Hx Hy (cand & cst & H1 & H2 & H3 & H4).
  exists cand, cst. rewrite <- Hx, <- Hy.
  rewrite <- (connectible_pos this gas v v') by assumption. auto.
Qed.

(** One turn of the rewiring loop, on a tree whose last vertex is the new
    one: it reads the vertices before it and assigns the last one only. *)
Lemma rewire_body_eq (tree_ : list Vertex.t) (v : Vertex.t) (b : double)
    (index : nat) (candidate : Vertex.t) :
  parents_in_range tree_ -> tree_ !! index = Some candidate ->
  rewire_body this gas (tree_ ++ [v], b) index
  = c ← calculate_cost_from_start gas tree_ candidate;
    let potential_cost :=
      c + calculate_distance (Vertex.x v) (Vertex.y v) candidate in
    if potential_cost <? b then
      ok ← connectible this gas v candidate;
      if ok : bool then
        Ret (tree_ ++ [Vertex.mk (Vertex.x v) (Vertex.y v)
                         (calculate_distance (Vertex.x v) (Vertex.y v) candidate)
                         (Some index)],
             potential_cost)
      else Ret (tree_ ++ [v], b)
    else Ret (tree_ ++ [v], b).
Proof.
  intros Hr Hc. unfold rewire_body.
  assert (tree_at (tree_ ++ [v]) index = Ret candidate) as ->.
  { apply tree_at_Ret. rewrite lookup_app_l; [exact Hc|].
    eapply lookup_lt_Some, Hc. }
  rewrite tree_back_snoc. simpl.
  rewrite (cost_from_start_app gas tree_ [v] index candidate Hr Hc).
  destruct (calculate_cost_from_start gas tree_ candidate) as [c| |]; simpl; auto.
  destruct (_ <? b); [|reflexivity].
  destruct (connectible this gas v candidate) as [[|]| |]; simpl; auto.
  rewrite insert_back_snoc. reflexivity.
Qed.

(** A turn of the rewiring loop leaves the vertices before the new one,
    and the position of the new one; it assigns at most the parent and the
    edge cost of the new vertex. *)
Lemma rewire_body_frame (tree_ : list Vertex.t) (v : Vertex.t) (b : double)
    (index : nat) (s' : list Vertex.t * double) :
  parents_in_range tree_ -> (index < length tree_)%nat ->
  rewire_body this gas (tree_ ++ [v], b) index = Ret s' ->
  exists v',
    s'.1 = tree_ ++ [v']
    /\ Vertex.x v' = Vertex.x v /\ Vertex.y v' = Vertex.y v
    /\ (v' = v
        \/ exists candidate,
             tree_ !! index = Some candidate
             /\ Vertex.parent v' = Some index
             /\ Vertex.cost v'
                = calculate_distance (Vertex.x v) (Vertex.y v) candidate).
Proof.
  intros Hr Hi H.
  destruct (lookup_lt_is_Some_2 tree_ index Hi) as [cand Hc].
  rewrite (rewire_body_eq _ _ _ _ cand Hr Hc) in H.
  apply bind_Ret_inv in H as (c0 & _ & H). simpl in H.
  destruct (_ <? b); [|injection H as <-; exists v; auto].
  apply bind_Ret_inv in H as ([|] & _ & H); injection H as <-;
    [|exists v; auto].
  eexists. simpl. split; [reflexivity|]. repeat split; auto.
  right. exists cand. auto.
Qed.

Lemma rewire_body_rewired (tree_ : list Vertex.t) (v0 : Vertex.t) (total0 : double)
    (done : list nat) (index : nat) (s s' : list Vertex.t * double) :
  parents_in_range tree_ -> (index < length tree_)%nat ->
  rewired this gas tree_ v0 total0 done s ->
  rewire_body this gas s index = Ret s' ->
  rewired this gas tree_ v0 total0 (done ++ [index]) s'.
Proof.
  intros Hr Hi (v & Ht & Hx & Hy & Hch & Hopt) Hb.
  destruct s as [t b]. simpl in Ht, Hch, Hopt. subst t.
  destruct (lookup_lt_is_Some_2 tree_ index Hi) as [cand Hc].
  rewrite (rewire_body_eq _ _ _ _ cand Hr Hc) in Hb.
  apply bind_Ret_inv in Hb as (c0 & Hc0 & Hb). simpl in Hb.
  rewrite Hx, Hy in Hb.
  set (pc := c0 + calculate_distance (Vertex.x v0) (Vertex.y v0) cand) in *.
  assert (forall r, via_cost this gas tree_ v0 index r -> r = pc) as Hdet.
  { intros r (cand' & cst & H1 & H2 & H3 & _).
    assert (cand' = cand) as -> by congruence.
    assert (cst = c0) as -> by congruence. exact H3. }
  assert ((pc <? b) = false \/ connectible this gas v0 cand <> Ret true ->
          rewired this gas tree_ v0 total0 (done ++ [index]) (tree_ ++ [v], b)) as Hsame.
  { intros Hwhy. exists v. simpl. repeat split; auto.
    - destruct Hch as [?|(c & cd & Hin & ?)]; [auto|].
      right. exists c, cd. split; [apply elem_of_app; auto|auto].
    - intros c r Hin Hv. apply elem_of_app in Hin as [Hin|Hin]; [eauto|].
      apply list_elem_of_singleton in Hin. subst c.
      pose proof (Hdet r Hv) as ->.
      destruct Hwhy as [Hge|Hno]; [exact Hge|].
      destruct Hv as (cand' & cst & H1 & _ & _ & H4).
      assert (cand' = cand) as -> by congruence. contradiction. }
  destruct (pc <? b) eqn:Hlt; [|injection Hb as <-; apply Hsame; auto].
  rewrite (connectible_pos this gas v v0) in Hb by assumption.
  apply bind_Ret_inv in Hb as ([|] & Hok & Hb); injection Hb as <-;
    [|apply Hsame; right; congruence].
  eexists. simpl. split; [reflexivity|]. repeat split; auto.
  - right. exists index, cand. repeat split; auto.
    + apply elem_of_app. right. apply list_elem_of_singleton. reflexivity.
    + exists cand, c0. auto.
    + destruct Hch as [[_ ->]|(_ & _ & _ & _ & _ & _ & _ & Hb0)]; [exact Hlt|].
      eapply DoubleFacts.ltb_trans; eauto.
  - intros c r Hin Hv. apply elem_of_app in Hin as [Hin|Hin].
    + destruct (r <? pc) eqn:E; [|reflexivity].
      rewrite <- (Hopt c r Hin Hv). symmetry.
      eapply DoubleFacts.ltb_trans; eauto.
    + apply list_elem_of_singleton in Hin. subst c.
      rewrite (Hdet r Hv). apply DoubleFacts.ltb_irrefl.
Qed.

End Rewire.

Section Insertion.

Context {M : Libm} {R : RandomSource}.
Variable this : RRTStar.
Variable gas : nat.
Local Open Scope float_scope.

Lemma rewired_chosen (tree_ : list Vertex.t) (near : list nat)
    (rand_x rand_y : double) (n : nat) (nearest : Vertex.t) (total0 : double)
    (s : list Vertex.t * double) :
  let v0 := Vertex.mk rand_x rand_y
              (calculate_distance (Vertex.x nearest) (Vertex.y nearest)
                 (Vertex.mk rand_x rand_y 0 (Some n)))
              (Some n) in
  nearest_neighbor tree_ rand_x rand_y = Some n ->
  tree_ !! n = Some nearest ->
  calculate_cost_from_start gas (tree_ ++ [v0]) v0 = Ret total0 ->
  rewired this gas tree_ v0 total0 near s ->
  exists v, s.1 = tree_ ++ [v]
            /\ Vertex.x v = rand_x /\ Vertex.y v = rand_y
            /\ chosen_parent this gas tree_ near v.
Proof.
  intros v0 Hn Hnear Htot (v & Ht & Hx & Hy & Hch & Hopt).
  simpl in Hx, Hy. exists v. repeat split; auto.
  assert (Vertex.mk (Vertex.x v) (Vertex.y v)
            (calculate_distance (Vertex.x nearest) (Vertex.y nearest) v) (Some n)
          = v0) as Ev0.
  { unfold v0. rewrite Hx, Hy. f_equal. apply calculate_distance_pos; auto. }
  exists n, nearest, total0, s.2. rewrite Ev0.
  split; [rewrite Hx, Hy; exact Hn|]. split; [exact Hnear|].
  split; [exact Htot|]. split.
  - destruct Hch as [[-> Hb]|(c & cand & Hin & Hc & Hv & Hp & Hcost & Hlt)].
    + left. repeat split; auto.
    + right. exists c, cand. repeat split; auto.
      * apply (via_cost_pos this gas tree_ v0 v); auto.
      * rewrite Hcost, Hx, Hy. reflexivity.
  - intros c r Hin Hv. apply (Hopt c r Hin).
    apply (via_cost_pos this gas tree_ v v0); auto.
Qed.

(** What the body of the growth loop does to the tree: nothing, or it
    appends one vertex, with the parent the rewiring chose. *)
Lemma grow_body_insert (goal : PoseStamped) (brc : double) (i i' : Z)
    (gen gen' : Gen) (tree_ tree' : list Vertex.t) :
  parents_in_range tree_ ->
  grow_body this gas goal brc i gen tree_ = Ret (i', gen', tree') ->
  tree' = tree_
  \/ exists v,
       tree' = tree_ ++ [v]
       /\ chosen_parent this gas tree_
            (findVerticesInsideCircle tree_ (Vertex.x v) (Vertex.y v)
               (calculateBallRadius brc (Z.of_nat (length tree_)) 2 2.0))
            v.
Proof.
  intros Hr. unfold grow_body.
  destruct ((if (Z.rem i 5 =? 0)%Z then _ else _) gen) as [rand_x gen1].
  destruct ((if (Z.rem i 5 =? 0)%Z then _ else _) gen1) as [rand_y gen2].
  destruct (nearest_neighbor _ _ _) as [n|] eqn:Hn; [|discriminate].
  intros H. apply bind_Ret_inv in H as (nearest & Hnear & H).
  apply tree_at_Ret in Hnear.
  apply bind_Ret_inv in H as ([|] & _ & H); [|injection H as <- <- <-; auto].
  right. rewrite tree_back_snoc in H.
  apply bind_Ret_inv in H as (back & Hback & H). injection Hback as <-.
  apply bind_Ret_inv in H as (total0 & Htot & H).
  apply bind_Ret_inv in H as (s & Hs & H). injection H as <- <- <-.
  simpl in Hs.
  eapply (for_each_prefix_inv (rewired this gas tree_ _ total0)
            (fun a => (a < length tree_)%nat)) with (done := []) in Hs.
  - simpl in Hs.
    eapply rewired_chosen in Hs as (v & Ht & Hx & Hy & Hch); eauto.
    exists v. split; [exact Ht|]. rewrite Hx, Hy. exact Hch.
  - intros done a s0 s1 Ha. apply rewire_body_rewired; auto.
  - apply near_set_range.
  - eexists. simpl. split; [reflexivity|]. repeat split; auto.
    intros c r Hin. apply elem_of_nil in Hin. contradiction.
Qed.

End Insertion.

(** C3. An insertion leaves every vertex that was in the tree as it was,
    parent and edge cost included: it appends the new vertex, and every
    turn of the rewiring assigns at most the parent and the edge cost of
    that vertex.  The parent it ends with is the nearest neighbour, or the
    vertex of the near set through which the verified cost from the start
    is least: no vertex of the near set with a connectible segment gives a
    smaller cost. *)
Theorem insertion_frame {M : Libm} {R : RandomSource} (this : RRTStar)
    (gas : nat) (goal : PoseStamped) (brc : double) (i i' : Z) (gen gen' : Gen)
    (tree_ tree' : list Vertex.t) :
  parents_in_range tree_ ->
  grow_body this gas goal brc i gen tree_ = Ret (i', gen', tree') ->
  (forall (j : nat) (w : Vertex.t), tree_ !! j = Some w -> tree' !! j = Some w)
  /\ (tree' = tree_
      \/ exists v,
           tree' = tree_ ++ [v]
           /\ chosen_parent this gas tree_
                (findVerticesInsideCircle tree_ (Vertex.x v) (Vertex.y v)
                   (calculateBallRadius brc (Z.of_nat (length tree_)) 2 2.0))
                v)
  /\ (forall (v : Vertex.t) (b : double) (index : nat)
             (s' : list Vertex.t * double),
        (index < length tree_)%nat ->
        rewire_body this gas (tree_ ++ [v], b) index = Ret s' ->
        exists v',
          s'.1 = tree_ ++ [v']
          /\ Vertex.x v' = Vertex.x v /\ Vertex.y v' = Vertex.y v
          /\ (v' = v
              \/ exists candidate,
                   tree_ !! index = Some candidate
                   /\ Vertex.parent v' = Some index
                   /\ Vertex.cost v'
                      = calculate_distance (Vertex.x v) (Vertex.y v) candidate)).
Proof.
  intros Hr H. pose proof (grow_body_insert this gas _ _ _ _ _ _ _ _ Hr H) as Hi.
  split; [|split; [exact Hi|]].
  - destruct Hi as [->|(v & -> & _)]; [auto|].
    intros j w Hj. rewrite lookup_app_l; [exact Hj|]. eapply lookup_lt_Some, Hj.
  - intros v b index s' Hlt Hb. eapply rewire_body_frame; eauto.
Qed.

(** ** The invariant of the tree *)

Section Invariant.

Context {M : Libm} {L : LibmLaws M} {R : RandomSource}.
Variable this : RRTStar.
Variable gas : nat.
Variable start : PoseStamped.
Local Open Scope float_scope.

Lemma tree_inv_init : tree_inv start [start_vertex start].
Proof.
  split; [reflexivity|]. intros i v Hi Hpos.
  destruct i; [lia|]. simpl in Hi. discriminate.
Qed.

Lemma tree_inv_range (tree_ : list Vertex.t) :
  tree_inv start tree_ -> parents_in_range tree_.
Proof.
  intros [H0 Hi] i v p Hv Hp. destruct i as [|i].
  - rewrite H0 in Hv. injection Hv as <-. discriminate.
  - destruct (Hi (S i) v Hv ltac:(lia)) as (q & Hq & Hlt & _).
    assert (q = p) as -> by congruence.
    apply lookup_lt_Some in Hv. lia.
Qed.

Lemma tree_inv_snoc (tree_ : list Vertex.t) (v : Vertex.t) (p : nat) :
  tree_inv start tree_ ->
  Vertex.parent v = Some p -> (p < length tree_)%nat ->
  (0 <=? Vertex.cost v) = true ->
  tree_inv start (tree_ ++ [v]).
Proof.
  intros [H0 Hi] Hp Hlt Hc. split.
  - rewrite lookup_app_l; [exact H0|]. eapply lookup_lt_Some, H0.
  - intros i w Hw Hpos. apply lookup_snoc_Some in Hw as [[_ Hw]|[-> <-]]; eauto.
Qed.

Lemma tree_inv_prefix (tree_ l : list Vertex.t) :
  tree_inv start (tree_ ++ l) -> (0 < length tree_)%nat -> tree_inv start tree_.
Proof.
  intros [H0 Hi] Hlen. split.
  - rewrite lookup_app_l in H0; auto.
  - intros i v Hv Hpos. apply (Hi i v); [|exact Hpos].
    rewrite lookup_app_l; [exact Hv|]. eapply lookup_lt_Some, Hv.
Qed.

(** The vertex an insertion appends obeys the invariant. *)
Lemma chosen_parent_inv (tree_ : list Vertex.t) (radius : double) (v : Vertex.t) :
  chosen_parent this gas tree_
    (findVerticesInsideCircle tree_ (Vertex.x v) (Vertex.y v) radius) v ->
  exists p, Vertex.parent v = Some p /\ (p < length tree_)%nat
            /\ (0 <=? Vertex.cost v) = true.
Proof.
  intros (n & nearest & total0 & best & Hn & Hnear & _ & Hch & _).
  destruct Hch as [(Hp & Hc & _)|(c & cand & Hin & Hcand & Hv & Hp & Hc & Hlt)].
  - exists n. split; [exact Hp|]. split; [eapply lookup_lt_Some, Hnear|].
    rewrite Hc, calculate_distance_sym.
    apply nearest_neighbor_Some in Hn as (w & Hw & Hnan).
    assert (w = nearest) as -> by congruence.
    apply calculate_distance_not_neg, Hnan.
  - exists c. split; [exact Hp|]. split; [eapply lookup_lt_Some, Hcand|].
    rewrite Hc. apply calculate_distance_not_neg.
    destruct Hv as (cand' & cst & H1 & _ & H3 & _).
    assert (cand' = cand) as -> by congruence.
    apply DoubleFacts.ltb_not_nan_l in Hlt. rewrite H3 in Hlt.
    eapply DoubleFacts.add_not_nan_r, Hlt.
Qed.

Lemma grow_body_inv (goal : PoseStamped) (brc : double) (i i' : Z)
    (gen gen' : Gen) (tree_ tree' : list Vertex.t) :
  tree_inv start tree_ ->
  grow_body this gas goal brc i gen tree_ = Ret (i', gen', tree') ->
  tree_inv start tree' /\ tree_ `prefix_of` tree'.
Proof.
  intros Hinv H.
  apply grow_body_insert in H as [->|(v & -> & Hch)];
    [split; [exact Hinv|reflexivity]| |apply tree_inv_range, Hinv].
  split; [|apply prefix_app_r; reflexivity].
  apply chosen_parent_inv in Hch as (p & Hp & Hlt & Hc).
  eapply tree_inv_snoc; eauto.
Qed.

Lemma grow_inv (goal : PoseStamped) (brc : double) (fuel : nat) :
  forall (i : Z) (gen gen' : Gen) (tree_ tree' : list Vertex.t),
    tree_inv start tree_ ->
    grow this gas fuel goal brc i gen tree_ = Ret (gen', tree') ->
    tree_inv start tree' /\ tree_ `prefix_of` tree'.
Proof.
  induction fuel as [|fuel IH]; intros i gen gen' tree_ tree' Hinv H; simpl in H.
  - destruct (i <=? _)%Z; [discriminate|]. injection H as <- <-. auto.
  - destruct (i <=? _)%Z; [|injection H as <- <-; auto].
    apply bind_Ret_inv in H as ([[i1 gen1] tree1] & Hb & H). simpl in H.
    apply grow_body_inv in Hb as [Hinv1 Hpre1]; [|exact Hinv].
    apply IH in H as [Hinv2 Hpre2]; [|exact Hinv1].
    split; [exact Hinv2|]. etrans; eauto.
Qed.

(** A turn of the rewiring loop keeps the invariant. *)
Lemma rewire_body_inv (tree_ : list Vertex.t) (v : Vertex.t) (b : double)
    (index : nat) (s' : list Vertex.t * double) :
  tree_inv start (tree_ ++ [v]) -> (index < length tree_)%nat ->
  rewire_body this gas (tree_ ++ [v], b) index = Ret s' ->
  tree_inv start s'.1 /\ exists v', s'.1 = tree_ ++ [v'].
Proof.
  intros Hinv Hi H.
  assert (tree_inv start tree_) as Hinv0 by (eapply tree_inv_prefix; eauto; lia).
  destruct (lookup_lt_is_Some_2 tree_ index Hi) as [cand Hc].
  rewrite (rewire_body_eq this gas _ _ _ _ cand (tree_inv_range _ Hinv0) Hc) in H.
  apply bind_Ret_inv in H as (c0 & _ & H). simpl in H.
  destruct (_ <? b) eqn:Hlt; [|injection H as <-; eauto].
  apply bind_Ret_inv in H as ([|] & _ & H); injection H as <-; [|eauto].
  simpl. split; [|eauto].
  eapply tree_inv_snoc; eauto. simpl.
  apply calculate_distance_not_neg.
  eapply DoubleFacts.add_not_nan_r, DoubleFacts.ltb_not_nan_l, Hlt.
Qed.

(** *** The goal vertex *)

Lemma goal_scan_parent (goal : PoseStamped) (tree_ : list Vertex.t)
    (vs : list nat) (end_vertex : Vertex.t) (s : double * Vertex.t) :
  goal_scan this gas goal tree_ vs end_vertex = Ret s ->
  s.1 = infinity
  \/ exists p, Vertex.parent s.2 = Some p /\ p ∈ vs
               /\ (0 <=? Vertex.cost s.2) = true.
Proof.
  unfold goal_scan.
  apply (for_each_inv
           (fun s0 => s0.1 = infinity
                      \/ exists p, Vertex.parent s0.2 = Some p /\ p ∈ vs
                                   /\ (0 <=? Vertex.cost s0.2) = true));
    [|auto].
  intros [mc ev] a s1 Ha Hs Hb. unfold goal_scan_body in Hb.
  apply bind_Ret_inv in Hb as (cand & _ & Hb).
  apply bind_Ret_inv in Hb as (c0 & _ & Hb).
  destruct (_ <? mc) eqn:Hlt; [|injection Hb as <-; exact Hs].
  apply bind_Ret_inv in Hb as ([|] & _ & Hb); injection Hb as <-; [|exact Hs].
  right. exists a. simpl. repeat split; auto.
  apply calculate_distance_not_neg.
  eapply DoubleFacts.add_not_nan_r, DoubleFacts.ltb_not_nan_l, Hlt.
Qed.

Lemma connect_goal_inv (goal : PoseStamped) (tree_ : list Vertex.t)
    (vs : list nat) (poses : list PoseStamped) (fuel : nat) :
  tree_inv start tree_ -> Forall (fun n => (n < length tree_)%nat) vs ->
  forall (end_vertex : Vertex.t) (tree' : list Vertex.t) (poses' : list PoseStamped),
    connect_goal this gas fuel goal tree_ vs end_vertex poses = Ret (tree', poses') ->
    tree_inv start tree' /\ exists v, tree' = tree_ ++ [v].
Proof.
  intros Hinv Hvs.
  induction fuel as [|fuel IH]; intros ev tree' poses' H; simpl in H; [discriminate|].
  apply bind_Ret_inv in H as ([mc ev1] & Hs & H). simpl in H.
  destruct (mc <? 10000) eqn:Hlt; [|eapply IH, H].
  apply bind_Ret_inv in H as (poses1 & _ & H). injection H as <- <-.
  split; [|eauto].
  apply goal_scan_parent in Hs as [Hinf|(p & Hp & Hin & Hc)]; simpl in *.
  - subst mc. discriminate.
  - eapply tree_inv_snoc; eauto.
    rewrite Forall_forall in Hvs. apply Hvs, Hin.
Qed.

Lemma plan_raw_inv (fuel : nat) (goal : PoseStamped) (gen : Gen)
    (tree' : list Vertex.t) (raw : list PoseStamped) :
  plan_raw this gas fuel start goal gen = Ret (tree', raw) ->
  tree_inv start tree'.
Proof.
  unfold plan_raw. intros H.
  apply bind_Ret_inv in H as ([gen1 tree1] & Hg & H). simpl in H.
  apply grow_inv in Hg as [Hinv _]; [|apply tree_inv_init].
  eapply connect_goal_inv in H as [H _]; eauto. apply near_set_range.
Qed.

(** *** Parent chains *)

Lemma ancestor_root (tree_ : list Vertex.t) :
  tree_inv start tree_ ->
  forall i : nat, (i < length tree_)%nat ->
                  exists k : nat, (k <= i)%nat /\ ancestor tree_ k i = Some 0%nat.
Proof.
  intros [H0 Hi] i. induction i as [i IH] using lt_wf_ind. intros Hlt.
  destruct i as [|i]; [exists 0%nat; auto|].
  destruct (lookup_lt_is_Some_2 tree_ (S i) Hlt) as [v Hv].
  destruct (Hi (S i) v Hv ltac:(lia)) as (p & Hp & Hpi & _).
  destruct (IH p Hpi ltac:(lia)) as (k & Hk & Ha).
  exists (S k). split; [lia|]. simpl. rewrite Hv. simpl. rewrite Hp. exact Ha.
Qed.

Lemma ancestor_lt (tree_ : list Vertex.t) :
  tree_inv start tree_ ->
  forall (k i j : nat), (0 < k)%nat -> ancestor tree_ k i = Some j -> (j < i)%nat.
Proof.
  intros [H0 Hi] k. induction k as [|k IH]; intros i j Hk Ha; [lia|].
  simpl in Ha. destruct (tree_ !! i) as [v|] eqn:Hv; [|discriminate]. simpl in Ha.
  destruct (Vertex.parent v) as [p|] eqn:Hp; [|discriminate]. simpl in Ha.
  assert (p < i)%nat as Hpi.
  { destruct i as [|i].
    - rewrite H0 in Hv. injection Hv as <-. discriminate.
    - destruct (Hi (S i) v Hv ltac:(lia)) as (q & Hq & Hlt & _). congruence. }
  destruct k as [|k]; [injection Ha as <-; exact Hpi|].
  apply IH in Ha; lia.
Qed.

Lemma cost_walk_returns (tree_ : list Vertex.t) (fuel : nat) :
  tree_inv start tree_ ->
  forall (i : nat) (v : Vertex.t) (acc : double),
    tree_ !! i = Some v -> (i <= fuel)%nat ->
    exists c, cost_walk fuel tree_ v acc = Ret c.
Proof.
  intros [H0 Hi]. induction fuel as [|fuel IH]; intros i v acc Hv Hfuel.
  - assert (i = 0%nat) as -> by lia. rewrite H0 in Hv. injection Hv as <-.
    simpl. eauto.
  - simpl. destruct (Vertex.parent v) as [p|] eqn:Hp; [|eauto].
    destruct i as [|i].
    + rewrite H0 in Hv. injection Hv as <-. discriminate.
    + destruct (Hi (S i) v Hv ltac:(lia)) as (q & Hq & Hlt & _).
      assert (q = p) as -> by congruence.
      apply lookup_lt_Some in Hv.
      destruct (lookup_lt_is_Some_2 tree_ p ltac:(lia)) as [w Hw].
      rewrite Hw. eapply IH; eauto. lia.
Qed.

End Invariant.

(** C6. Throughout a planning call the first element of the tree is the
    start vertex, with edge cost 0 and no parent; vertices are appended and
    never removed; every other vertex has an edge cost of at least 0 and a
    parent inserted before it, so that its parent chain has no cycle and
    ends at the root within as many steps as its index, which is less than
    the size of the tree.  Every insertion, every turn of the rewiring and
    the insertion of the goal vertex keep this. *)
Theorem tree_invariant {M : Libm} {L : LibmLaws M} {R : RandomSource}
    (this : RRTStar) (gas : nat) (start goal : PoseStamped) :
  (tree_inv start [start_vertex start]
   /\ start_vertex start
      = Vertex.mk (geometry_msgs.px start) (geometry_msgs.py start) 0 None)
  /\ (forall (brc : double) (i i' : Z) (gen gen' : Gen) (tree_ tree' : list Vertex.t),
        tree_inv start tree_ ->
        grow_body this gas goal brc i gen tree_ = Ret (i', gen', tree') ->
        tree_inv start tree' /\ tree_ `prefix_of` tree')
  /\ (forall (tree_ : list Vertex.t) (v : Vertex.t) (b : double) (index : nat)
             (s' : list Vertex.t * double),
        tree_inv start (tree_ ++ [v]) -> (index < length tree_)%nat ->
        rewire_body this gas (tree_ ++ [v], b) index = Ret s' ->
        tree_inv start s'.1 /\ exists v', s'.1 = tree_ ++ [v'])
  /\ (forall (fuel : nat) (gen : Gen) (tree' : list Vertex.t)
             (raw : list PoseStamped),
        plan_raw this gas fuel start goal gen = Ret (tree', raw) ->
        tree_inv start tree')
  /\ (forall (tree_ : list Vertex.t),
        tree_inv start tree_ ->
        forall i : nat,
          (i < length tree_)%nat ->
          (exists k : nat, (k <= i)%nat /\ ancestor tree_ k i = Some 0%nat)
          /\ (forall k j : nat, (0 < k)%nat -> ancestor tree_ k i = Some j ->
                                (j < i)%nat)
          /\ (forall v : Vertex.t,
                tree_ !! i = Some v -> (i <= gas)%nat ->
                exists c, calculate_cost_from_start gas tree_ v = Ret c)).
Proof.
  split; [split; [apply tree_inv_init|reflexivity]|].
  split; [intros; eapply grow_body_inv; eauto|].
  split; [intros; eapply rewire_body_inv; eauto|].
  split; [intros; eapply plan_raw_inv; eauto|].
  intros tree_ Hinv i Hi. split; [eapply ancestor_root; eauto|].
  split; [intros k j; eapply ancestor_lt; eauto|].
  intros v Hv Hg. eapply cost_walk_returns; eauto.
Qed.

(** ** The goal connector returns *)

Section Extraction.

Context {M : Libm}.
Variable this : RRTStar.
Variable gas : nat.
Local Open Scope float_scope.

Lemma densified_S (n : nat) (x y xi yi : double) :
  densified (S n) x y xi yi
  = densified n (x + xi) (y + yi) xi yi ++ [pose_at (x + xi) (y + yi)].
Proof.
  unfold densified. simpl seq. rewrite fmap_cons. simpl rev.
  rewrite <- fmap_S_seq, <- list_fmap_compose. reflexivity.
Qed.

Lemma densify_loop_trips (n : nat) :
  forall (fuel : nat) (i : Z) (steps xi yi x y : double) (poses : list PoseStamped),
    (forall j : nat, (j < n)%nat ->
                     (Double.of_int (i + Z.of_nat j) <? steps - 1) = true) ->
    (Double.of_int (i + Z.of_nat n) <? steps - 1) = false ->
    (n <= fuel)%nat -> (i + Z.of_nat n <= INT_MAX)%Z ->
    densify_loop fuel i steps xi yi x y poses
    = Ret (densified n x y xi yi ++ poses).
Proof.
  induction n as [|n IH]; intros fuel i steps xi yi x y poses Hin Hout Hf Hi.
  - rewrite Z.add_0_r in Hout. destruct fuel; simpl; rewrite Hout; reflexivity.
  - destruct fuel as [|fuel]; [lia|]. simpl.
    pose proof (Hin 0%nat ltac:(lia)) as H0. rewrite Z.add_0_r in H0. rewrite H0.
    destruct (Z.eqb_spec i INT_MAX) as [->|_]; [lia|].
    rewrite (IH fuel (i + 1)%Z); try lia.
    + rewrite densified_S, <- app_assoc. reflexivity.
    + intros j Hj. specialize (Hin (S j) ltac:(lia)).
      replace (i + 1 + Z.of_nat j)%Z with (i + Z.of_nat (S j))%Z by lia. exact Hin.
    + replace (i + 1 + Z.of_nat n)%Z with (i + Z.of_nat (S n))%Z by lia. exact Hout.
Qed.

(** The walk from a vertex of a rooted tree ends with the pose of the
    start, which it puts first. *)
Lemma extract_head (start : PoseStamped) (tree_ : list Vertex.t) :
  rooted start tree_ ->
  forall (fuel i : nat) (v : Vertex.t) (poses poses' : list PoseStamped),
    tree_ !! i = Some v ->
    extract_path gas fuel tree_ (Some v) poses = Ret poses' ->
    exists rest,
      poses' = pose_at (geometry_msgs.px start) (geometry_msgs.py start) :: rest.
Proof.
  intros [H0 Hroot].
  induction fuel as [|fuel IH]; intros i v poses poses' Hv H; simpl in H;
    [discriminate|].
  destruct (Vertex.parent v) as [p|] eqn:Hp.
  - apply bind_Ret_inv in H as (par & Hpar & H). apply tree_at_Ret in Hpar.
    apply bind_Ret_inv in H as (poses1 & _ & H). eapply IH; eauto.
  - pose proof (Hroot i v Hv Hp) as ->.
    assert (v = start_vertex start) as -> by congruence.
    destruct fuel; simpl in H; injection H as <-; eexists; reflexivity.
Qed.

Lemma tree_inv_rooted (start : PoseStamped) (tree_ : list Vertex.t) :
  tree_inv start tree_ -> rooted start tree_.
Proof.
  intros [H0 Hi]. split; [exact H0|]. intros i v Hv Hp.
  destruct i as [|i]; [reflexivity|].
  destruct (Hi (S i) v Hv ltac:(lia)) as (p & Hq & _). congruence.
Qed.

(** The walk from a vertex that has a parent puts its pose and at least
    one more in front of the path. *)
Lemma extract_from_child (fuel : nat) (tree_ : list Vertex.t) (v : Vertex.t)
    (p : nat) (poses poses' : list PoseStamped) :
  Vertex.parent v = Some p ->
  extract_path gas fuel tree_ (Some v) poses = Ret poses' ->
  exists pre, pre <> []
              /\ poses' = pre ++ pose_at (Vertex.x v) (Vertex.y v) :: poses.
Proof.
  destruct fuel as [|fuel]; simpl; [discriminate|]. intros Hp. rewrite Hp.
  intros H. apply bind_Ret_inv in H as (par & _ & H).
  apply bind_Ret_inv in H as (poses1 & Hd & H).
  apply densify_suffix in Hd as (pre1 & ->).
  apply extract_from in H as (pre2 & ->).
  exists (pre2 ++ pose_at (Vertex.x par) (Vertex.y par) :: pre1). split.
  - intros E. apply app_eq_nil in E as [_ E]. discriminate.
  - rewrite <- app_assoc. reflexivity.
Qed.

(** In a tree that has the invariant and whose edges the inner loop comes
    to the end of, the walk from the vertex of index [i] returns within
    [i + 1] turns. *)
Lemma extract_returns (start : PoseStamped) (tree_ : list Vertex.t) :
  tree_inv start tree_ -> walkable gas tree_ ->
  forall (fuel i : nat) (v : Vertex.t) (poses : list PoseStamped),
    tree_ !! i = Some v -> (i < fuel)%nat ->
    exists poses', extract_path gas fuel tree_ (Some v) poses = Ret poses'.
Proof.
  intros [H0 Hi] Hw.
  induction fuel as [|fuel IH]; intros i v poses Hv Hlt; [lia|]. simpl.
  destruct (Vertex.parent v) as [p|] eqn:Hp.
  - assert (p < i)%nat as Hpi.
    { destruct i as [|i].
      - rewrite H0 in Hv. injection Hv as <-. discriminate.
      - destruct (Hi (S i) v Hv ltac:(lia)) as (q & Hq & Hqi & _). congruence. }
    pose proof (lookup_lt_Some _ _ _ Hv) as Hlen.
    destruct (lookup_lt_is_Some_2 tree_ p ltac:(lia)) as [par Hpar].
    unfold tree_at. rewrite Hpar. simpl.
    destruct (Hw i p v par Hv Hp Hpar) as (n & Hn1 & Hn2 & Hn3 & Hn4).
    unfold edge_steps in Hn3, Hn4.
    rewrite (densify_loop_trips n gas 0); auto. simpl.
    eapply (IH p); eauto. lia.
  - destruct fuel; simpl; eauto.
Qed.

(** C2. The goal connector stops at the first scan whose best verified
    cost is below 10000: one scan is enough.  It inserts the goal vertex,
    as the scan left it, into the tree, and emits the path of the walk from
    that vertex: the pose of the goal vertex and the poses before it are
    put in front of the path.  The connector does return, with a path that
    starts at the start, when the tree has the invariant and the walk comes
    to the end of every edge.  When the scan does not find such a cost, no
    later scan does, as nothing the scan reads changes and no sample is
    drawn: the loop does not end, whatever the number of scans allowed. *)
Theorem goal_connection `{!LibmLaws M} (start goal : PoseStamped)
    (tree_ : list Vertex.t) (vertices_inside_circle : list nat)
    (end_vertex end_vertex' : Vertex.t) (poses : list PoseStamped)
    (min_cost : double) :
  goal_scan this gas goal tree_ vertices_inside_circle end_vertex
  = Ret (min_cost, end_vertex') ->
  ((min_cost <? 10000) = true ->
   (forall fuel : nat,
       connect_goal this gas (S fuel) goal tree_ vertices_inside_circle
         end_vertex poses
       = poses' ← extract_path gas gas (tree_ ++ [end_vertex'])
                    (Some end_vertex') poses;
         Ret (tree_ ++ [end_vertex'], poses'))
   /\ (forall (fuel : nat) (tree' : list Vertex.t) (poses' : list PoseStamped),
         connect_goal this gas (S fuel) goal tree_ vertices_inside_circle
           end_vertex poses = Ret (tree', poses') ->
         tree' = tree_ ++ [end_vertex']
         /\ exists pre,
              poses'
              = pre ++ pose_at (Vertex.x end_vertex) (Vertex.y end_vertex) :: poses)
   /\ (tree_inv start tree_ ->
       Forall (fun n => (n < length tree_)%nat) vertices_inside_circle ->
       walkable gas (tree_ ++ [end_vertex']) -> (length tree_ < gas)%nat ->
       exists mid,
         forall fuel : nat,
           connect_goal this gas (S fuel) goal tree_ vertices_inside_circle
             end_vertex poses
           = Ret (tree_ ++ [end_vertex'],
                  pose_at (geometry_msgs.px start) (geometry_msgs.py start)
                  :: mid
                  ++ pose_at (Vertex.x end_vertex) (Vertex.y end_vertex) :: poses)))
  /\ ((min_cost <? 10000) = false ->
      forall fuel : nat,
        connect_goal this gas fuel goal tree_ vertices_inside_circle end_vertex poses
        = Timeout).
Proof.
  intros Hs. split; [|intros Hc fuel; eapply connect_goal_never; eauto].
  intros Hc.
  assert (forall fuel : nat,
             connect_goal this gas (S fuel) goal tree_ vertices_inside_circle
               end_vertex poses
             = poses' ← extract_path gas gas (tree_ ++ [end_vertex'])
                          (Some end_vertex') poses;
               Ret (tree_ ++ [end_vertex'], poses')) as Heq
    by (intros fuel; simpl; rewrite Hs; simpl; rewrite Hc; reflexivity).
  pose proof (goal_scan_pos _ _ _ _ _ _ _ Hs) as [Hx Hy]. simpl in Hx, Hy.
  split; [exact Heq|]. split.
  - intros fuel tree' poses' H. rewrite Heq in H.
    apply bind_Ret_inv in H as (poses1 & He & H). injection H as <- <-.
    split; [reflexivity|].
    apply extract_from in He as (pre & ->). exists pre. rewrite Hx, Hy. reflexivity.
  - intros Hinv Hvs Hwalk Hgas.
    assert (exists p, Vertex.parent end_vertex' = Some p
                      /\ tree_inv start (tree_ ++ [end_vertex']))
      as (p & Hp & Hinv').
    { destruct (goal_scan_parent _ _ _ _ _ _ _ Hs) as [Hinf|(p & Hp & Hin & Hcost)];
        simpl in *.
      - subst min_cost. discriminate.
      - exists p. split; [exact Hp|]. eapply tree_inv_snoc; eauto.
        rewrite Forall_forall in Hvs. apply Hvs, Hin. }
    destruct (extract_returns start _ Hinv' Hwalk gas (length tree_) end_vertex'
                poses (list_lookup_middle _ _ _ _ eq_refl) Hgas) as [poses' He].
    destruct (extract_head start _ (tree_inv_rooted _ _ Hinv') _ _ _ _ _
                (list_lookup_middle _ _ _ _ eq_refl) He) as [rest Hrest].
    destruct (extract_from_child _ _ _ _ _ _ Hp He) as (pre & Hne & Hpre).
    destruct pre as [|a mid]; [contradiction|].
    assert (a = pose_at (geometry_msgs.px start) (geometry_msgs.py start)) as ->
      by (rewrite Hrest in Hpre; simpl in Hpre; congruence).
    exists mid. intros fuel. rewrite Heq, He. simpl.
    rewrite Hpre, Hx, Hy. reflexivity.
Qed.

End Extraction.

(** ** The statements at concrete inputs *)

(** The instance [Ref.libm] obeys the laws. *)
Lemma ref_libm_laws : LibmLaws Ref.libm.
Proof.
  split; try (vm_compute; reflexivity).
  intros x. apply DoubleFacts.mul_opp_opp.
Qed.

Lemma smoothPath_four_waypoints_witness :
  (20 <= 20)%nat
  /\ exists path',
       smoothPath (M := Ref.libm) 20
         {| nav_msgs.frame_id := "map";
            nav_msgs.poses := [Ref.pose 0 0; Ref.pose 1 0; Ref.pose 2 0; Ref.pose 3 0] |}
       = Ret path'
       /\ length (nav_msgs.poses path') = 22%nat.
Proof.
  split; [lia|].
  destruct (smoothPath_four_waypoints (M := Ref.libm) 20 "map"
              (Ref.pose 0 0) (Ref.pose 1 0) (Ref.pose 2 0) (Ref.pose 3 0)
              ltac:(lia)) as (_ & H & Hlen & _).
  eexists. split; [exact H|]. reflexivity.
Defined.

Lemma connectible_spec_witness :
  LibmLaws Ref.libm
  /\ connectible (M := Ref.libm) (configure (Ref.grid 1 3 1 []) "map" 0.25) 0
       (Vertex.new 0.5 0.5) (Vertex.new 0.5 0.5) = Ret true.
Proof.
  split; [exact ref_libm_laws|].
  apply (connectible_spec (M := Ref.libm) (LibmLaws0 := ref_libm_laws)
           (configure (Ref.grid 1 3 1 []) "map" 0.25) 0
           (Vertex.new 0.5 0.5) (Vertex.new 0.5 0.5)).
Defined.

Lemma calculateBallRadiusConstant_spec_witness :
  LibmLaws Ref.libm
  /\ calculateBallRadiusConstant (M := Ref.libm)
       (configure (Ref.grid 0.5 2 1 [(0, 0)%N; (1, 0)%N]) "map" 0.25) = 0%float.
Proof.
  split; [exact ref_libm_laws|].
  apply (calculateBallRadiusConstant_spec (M := Ref.libm) (LibmLaws0 := ref_libm_laws)
           (configure (Ref.grid 0.5 2 1 [(0, 0)%N; (1, 0)%N]) "map" 0.25));
    reflexivity.
Defined.

Lemma growth_budget_witness :
  exists gen' tree',
    grow (M := Ref.libm) (R := Ref.lcg) example_planner 1000 3000 example_goal
      (calculateBallRadiusConstant (M := Ref.libm) example_planner)
      1 42%Z [start_vertex example_start] = Ret (gen', tree')
    /\ length tree' = 1000%nat.
Proof.
  assert (exists r,
             grow (M := Ref.libm) (R := Ref.lcg) example_planner 1000 3000
               example_goal
               (calculateBallRadiusConstant (M := Ref.libm) example_planner)
               1 42%Z [start_vertex example_start] = Ret r) as [[gen' tree'] H]
    by (eexists; vm_compute; reflexivity).
  exists gen', tree'. split; [exact H|].
  exact (proj1 (growth_budget (M := Ref.libm) (R := Ref.lcg) _ _ _ _ _ _ _ _ _ _ _ H)).
Defined.

Lemma raw_path_ends_with_goal_twice_witness :
  exists tree' raw pre,
    plan_raw (M := Ref.libm) (R := Ref.lcg) example_planner 1000 3000
      example_start example_goal 42%Z = Ret (tree', raw)
    /\ raw = pre ++ [pose_at 5.5 5.5; goal_pose example_goal].
Proof.
  assert (exists r,
             plan_raw (M := Ref.libm) (R := Ref.lcg) example_planner 1000 3000
               example_start example_goal 42%Z = Ret r) as [[tree' raw] H]
    by (eexists; vm_compute; reflexivity).
  destruct (raw_path_ends_with_goal_twice (M := Ref.libm) (R := Ref.lcg)
              _ _ _ _ _ _ _ _ H) as (pre & Hraw & _).
  exists tree', raw, pre. split; [exact H|exact Hraw].
Defined.

Lemma tree_invariant_witness :
  LibmLaws Ref.libm
  /\ exists tree' raw,
       plan_raw (M := Ref.libm) (R := Ref.lcg) example_planner 1000 3000
         example_start example_goal 42%Z = Ret (tree', raw)
       /\ tree_inv example_start tree'.
Proof.
  split; [exact ref_libm_laws|].
  assert (exists r,
             plan_raw (M := Ref.libm) (R := Ref.lcg) example_planner 1000 3000
               example_start example_goal 42%Z = Ret r) as [[tree' raw] H]
    by (eexists; vm_compute; reflexivity).
  exists tree', raw. split; [exact H|].
  destruct (tree_invariant (M := Ref.libm) (L := ref_libm_laws) (R := Ref.lcg)
              example_planner 1000 example_start example_goal)
    as (_ & _ & _ & Hplan & _).
  eapply Hplan, H.
Defined.

Lemma insertion_frame_witness :
  parents_in_range example_detour
  /\ (grow_body (M := Ref.libm) (R := Ref.lcg) example_planner 1000 example_goal
        10 3 43%Z example_detour
      = Ret (3%Z, 86771233%Z, example_detour ++ [example_rewired])
      /\ nearest_neighbor (M := Ref.libm) example_detour
           (Vertex.x example_rewired) (Vertex.y example_rewired) = Some 2%nat
      /\ (forall j w, example_detour !! j = Some w ->
                      (example_detour ++ [example_rewired]) !! j = Some w)
      /\ chosen_parent (M := Ref.libm) example_planner 1000 example_detour
           (findVerticesInsideCircle (M := Ref.libm) example_detour
              (Vertex.x example_rewired) (Vertex.y example_rewired)
              (calculateBallRadius (M := Ref.libm) 10 3 2 2.0))
           example_rewired)
  /\ (rewire_body (M := Ref.libm) example_planner 1000
        (example_detour ++ [example_appended], 2.8111706898290114%float) 0
      = Ret (example_detour ++ [example_rewired], 1.4564047585400204%float)
      /\ exists candidate,
           example_detour !! 0%nat = Some candidate
           /\ Vertex.cost example_rewired
              = calculate_distance (M := Ref.libm) (Vertex.x example_appended)
                  (Vertex.y example_appended) candidate).
Proof.
  assert (parents_in_range example_detour) as Hr.
  { intros i v p Hv Hp.
    destruct i as [|[|[|i]]]; simpl in Hv; try discriminate;
      injection Hv as <-; simpl in Hp; try discriminate;
      injection Hp as <-; simpl; lia. }
  assert (grow_body (M := Ref.libm) (R := Ref.lcg) example_planner 1000
            example_goal 10 3 43%Z example_detour
          = Ret (3%Z, 86771233%Z, example_detour ++ [example_rewired])) as H
    by (vm_compute; reflexivity).
  assert (rewire_body (M := Ref.libm) example_planner 1000
            (example_detour ++ [example_appended], 2.8111706898290114%float) 0
          = Ret (example_detour ++ [example_rewired], 1.4564047585400204%float))
    as Hturn by (vm_compute; reflexivity).
  destruct (insertion_frame (M := Ref.libm) (R := Ref.lcg)
              _ _ _ _ _ _ _ _ _ _ Hr H) as (Hframe & Hins & Hrew).
  split; [exact Hr|]. split; [|split; [exact Hturn|]].
  - split; [exact H|]. split; [vm_compute; reflexivity|]. split; [exact Hframe|].
    destruct Hins as [E|(v & E & Hch)].
    + apply (f_equal length) in E. simpl in E. lia.
    + apply app_inv_head in E. injection E as <-. exact Hch.
  - destruct (Hrew example_appended _ 0%nat _ ltac:(simpl; lia) Hturn)
      as (v' & E & _ & _ & [Hsame|(cand & Hc & _ & Hcost)]).
    + cbn [fst] in E. apply app_inv_head in E. injection E as <-.
      vm_compute in Hsame. discriminate.
    + cbn [fst] in E. apply app_inv_head in E. injection E as <-.
      exists cand. split; [exact Hc|exact Hcost].
Defined.

(** Two goal connections on a tree of one vertex at (0.5, 0.5), which is
    in the near set.  The goal (1.5, 0.5) is connected by the first scan,
    and the path goes from the start over the nine points of the edge to
    the goal.  The goal (3.5, 3.5) lies in an occupied cell: the segment
    from it is not connectible, and no scan connects it. *)
Lemma goal_connection_witness :
  LibmLaws Ref.libm
  /\ (exists mid,
         length mid = 9%nat
         /\ forall fuel : nat,
              connect_goal (M := Ref.libm) example_planner 1000 (S fuel)
                (Ref.pose 1.5 0.5) [start_vertex example_start] [0%nat]
                (Vertex.new 1.5 0.5) []
              = Ret ([start_vertex example_start;
                      Vertex.mk 1.5 0.5 1 (Some 0%nat)],
                     pose_at 0.5 0.5 :: mid ++ [pose_at 1.5 0.5]))
  /\ forall fuel : nat,
       connect_goal (M := Ref.libm) example_planner 1000 fuel (Ref.pose 3.5 3.5)
         [start_vertex example_start] [0%nat] (Vertex.new 3.5 3.5) []
       = Timeout.
Proof.
  split; [exact ref_libm_laws|]. split.
  - assert (goal_scan (M := Ref.libm) example_planner 1000 (Ref.pose 1.5 0.5)
              [start_vertex example_start] [0%nat] (Vertex.new 1.5 0.5)
            = Ret (1%float, Vertex.mk 1.5 0.5 1 (Some 0%nat))) as Hs
      by (vm_compute; reflexivity).
    assert (walkable (M := Ref.libm) 1000
              ([start_vertex example_start] ++ [Vertex.mk 1.5 0.5 1 (Some 0%nat)]))
      as Hwalk.
    { intros i p v par Hv Hp Hpar.
      destruct i as [|[|i]]; simpl in Hv; try discriminate; injection Hv as <-;
        simpl in Hp; [discriminate|]. injection Hp as <-.
      simpl in Hpar. injection Hpar as <-. exists 9%nat.
      split; [lia|]. split; [vm_compute; discriminate|]. split.
      - intros j Hj.
        do 9 (destruct j as [|j]; [vm_compute; reflexivity|]). lia.
      - vm_compute. reflexivity. }
    destruct (proj1 (@goal_connection Ref.libm example_planner 1000 ref_libm_laws
                       example_start (Ref.pose 1.5 0.5)
                       [start_vertex example_start] [0%nat] (Vertex.new 1.5 0.5)
                       _ [] _ Hs) eq_refl)
      as (_ & _ & Hret).
    destruct Hret as [mid Hmid].
    + apply tree_inv_init.
    + repeat constructor.
    + exact Hwalk.
    + simpl. lia.
    + exists mid. split; [|exact Hmid].
      specialize (Hmid 0%nat). vm_compute in Hmid.
      injection Hmid as Hmid. apply (f_equal length) in Hmid.
      rewrite length_app in Hmid. simpl in Hmid. lia.
  - apply (proj2 (@goal_connection Ref.libm example_planner 1000 ref_libm_laws
                    example_start (Ref.pose 3.5 3.5)
                    [start_vertex example_start] [0%nat] (Vertex.new 3.5 3.5)
                    (Vertex.new 3.5 3.5) [] infinity
                    ltac:(vm_compute; reflexivity))).
    reflexivity.
Defined.

(* ================================================================== *)
(** * Part III: further properties of the member functions              *)
(* ================================================================== *)

(** ** More facts of binary64 arithmetic *)

Module DoubleOrder.

Local Open Scope float_scope.

Lemma ltb_infinity (a b : double) : (a <? b) = true -> (a <? infinity) = true.
Proof.
  rewrite !FloatAxioms.ltb_spec. change (Prim2SF infinity) with (S754_infinity false).
  unfold SFltb, SFcompare.
  destruct (Prim2SF a) as [sa|sa| |sa ma ea], (Prim2SF b) as [sb|sb| |sb mb eb];
    try destruct sa; try destruct sb; simpl; congruence.
Qed.

(** Below a bound that a number does not undercut is below that number. *)
Lemma ltb_nlt_trans (a m c : double) :
  (a <? m) = true -> (c <? m) = false -> is_nan c = false -> (a <? c) = true.
Proof.
  intros Ham Hcm Hc.
  assert (is_nan m = false) as Hm by (eapply DoubleFacts.ltb_not_nan_r, Ham).
  assert ((m <=? c) = true) as Hmc by (apply DoubleFacts.leb_total; auto).
  revert Ham Hmc. rewrite !FloatAxioms.ltb_spec, FloatAxioms.leb_spec.
  unfold SFltb, SFleb, SFcompare.
  destruct (Prim2SF a) as [sa|sa| |sa ma ea], (Prim2SF m) as [sm|sm| |sm mm em],
           (Prim2SF c) as [sc|sc| |sc mc ec];
    try destruct sa; try destruct sm; try destruct sc; simpl; try congruence;
    change (Pos.compare_cont Eq) with Pos.compare;
    destruct (Z.compare_spec ea em), (Z.compare_spec em ec), (Z.compare_spec ea ec);
    simpl; try congruence; try lia;
    destruct (Pos.compare_spec ma mm), (Pos.compare_spec mm mc),
             (Pos.compare_spec ma mc);
    simpl; try congruence; try lia.
Qed.

Lemma leb_nan_r (a : double) : (a <=? nan) = false.
Proof.
  rewrite FloatAxioms.leb_spec. change (Prim2SF nan) with S754_nan.
  unfold SFleb, SFcompare. destruct (Prim2SF a); reflexivity.
Qed.

End DoubleOrder.

(** ** Nearest neighbour *)

Section Nearest.

Context {M : Libm}.
Local Open Scope float_scope.

Lemma nearest_loop_spec (x y : double) (vs : list Vertex.t) :
  forall (pre : list Vertex.t) (min_dist : double) (nearest_vertex : option nat),
    nearest_so_far x y pre min_dist nearest_vertex ->
    exists min_dist',
      nearest_so_far x y (pre ++ vs) min_dist'
        (nearest_loop vs (length pre) x y min_dist nearest_vertex).
Proof.
  induction vs as [|v vs IH]; intros pre md nv Hs; simpl.
  - exists md. rewrite app_nil_r. exact Hs.
  - replace (pre ++ v :: vs) with ((pre ++ [v]) ++ vs)
      by (rewrite <- app_assoc; reflexivity).
    replace (S (length pre)) with (length (pre ++ [v]))
      by (rewrite length_app; simpl; lia).
    destruct Hs as [Hmin Hnv].
    destruct (calculate_distance x y v <? md) eqn:E; apply IH; split.
    + intros j w Hw. apply lookup_snoc_Some in Hw as [[_ Hw]|[_ <-]].
      * destruct (calculate_distance x y w <? calculate_distance x y v) eqn:F;
          [|reflexivity].
        rewrite <- (Hmin j w Hw). symmetry. eapply DoubleFacts.ltb_trans; eauto.
      * apply DoubleFacts.ltb_irrefl.
    + exists v. split; [apply list_lookup_middle; reflexivity|].
      split; [reflexivity|]. split; [eapply DoubleOrder.ltb_infinity, E|].
      intros j w Hj Hw Hn. rewrite lookup_app_l in Hw by exact Hj.
      eapply DoubleOrder.ltb_nlt_trans; eauto.
    + intros j w Hw. apply lookup_snoc_Some in Hw as [[_ Hw]|[_ <-]]; eauto.
    + destruct nv as [n|]; [|exact Hnv].
      destruct Hnv as (u & Hu & Hmd & Hinf & Hfirst).
      exists u. split; [rewrite lookup_app_l; [exact Hu|eapply lookup_lt_Some, Hu]|].
      repeat split; auto.
      intros j w Hj Hw. apply lookup_lt_Some in Hu.
      rewrite lookup_app_l in Hw by lia. eauto.
Qed.

Lemma nearest_neighbor_spec (tree_ : list Vertex.t) (x y : double) :
  exists min_dist,
    nearest_so_far x y tree_ min_dist (nearest_neighbor tree_ x y).
Proof.
  unfold nearest_neighbor.
  destruct (nearest_loop_spec x y tree_ [] infinity None) as (md & H).
  - split; [|reflexivity]. intros j w Hw. discriminate.
  - exists md. exact H.
Qed.

(** X1. The vertex [nearest_neighbor] returns is in the tree, at a
    distance below infinity; no vertex of the tree is closer, and it is
    closer than every vertex before it whose distance is a number: among
    vertices at the least distance the first one inserted is returned. *)
Theorem nearest_neighbor_first_minimum (tree_ : list Vertex.t) (x y : double)
    (n : nat) :
  nearest_neighbor tree_ x y = Some n ->
  exists v,
    tree_ !! n = Some v
    /\ (calculate_distance x y v <? infinity) = true
    /\ (forall j w, tree_ !! j = Some w ->
                    (calculate_distance x y w <? calculate_distance x y v) = false)
    /\ (forall j w, (j < n)%nat -> tree_ !! j = Some w ->
                    is_nan (calculate_distance x y w) = false ->
                    (calculate_distance x y v <? calculate_distance x y w) = true).
Proof.
  intros Hn. destruct (nearest_neighbor_spec tree_ x y) as (md & Hmin & Hnv).
  rewrite Hn in Hnv. destruct Hnv as (v & Hv & -> & Hinf & Hfirst).
  exists v. auto.
Qed.

(** X2. [nearest_neighbor] returns the null pointer exactly when no vertex
    of the tree is at a distance below infinity: on the empty tree, and on
    a tree whose distances to the point are all infinite or NaN.  The body
    of the growth loop dereferences what it returns: on the empty tree it
    faults. *)
Theorem nearest_neighbor_null {R : RandomSource} (tree_ : list Vertex.t)
    (x y : double) :
  (nearest_neighbor tree_ x y = None
   <-> forall j w, tree_ !! j = Some w ->
                   (calculate_distance x y w <? infinity) = false)
  /\ nearest_neighbor [] x y = None
  /\ forall (this : RRTStar) (gas : nat) (goal : PoseStamped) (brc : double)
            (i : Z) (gen : Gen),
       grow_body this gas goal brc i gen [] = Fault.
Proof.
  split; [|split; [reflexivity|]].
  - destruct (nearest_neighbor_spec tree_ x y) as (md & Hmin & Hnv). split.
    + intros Hn. rewrite Hn in Hnv. subst md. exact Hmin.
    + intros Hall. destruct (nearest_neighbor tree_ x y) as [n|]; [|reflexivity].
      destruct Hnv as (v & Hv & _ & Hinf & _).
      rewrite (Hall n v Hv) in Hinf. discriminate.
  - intros this gas goal brc i gen. unfold grow_body.
    destruct ((if (Z.rem i 5 =? 0)%Z then _ else _) gen) as [rand_x gen1].
    destruct ((if (Z.rem i 5 =? 0)%Z then _ else _) gen1) as [rand_y gen2].
    reflexivity.
Qed.

End Nearest.

(** ** Near set *)

Section NearSet.

Context {M : Libm}.
Local Open Scope float_scope.

Lemma inside_circle_loop_elem (vs : list Vertex.t) :
  forall (i : nat) (cx cy r2 : double) (n : nat),
    n ∈ inside_circle_loop vs i cx cy r2
    <-> exists v, (i <= n)%nat /\ vs !! (n - i)%nat = Some v
                  /\ (pow (Vertex.x v - cx) 2 + pow (Vertex.y v - cy) 2 <=? r2)
                     = true.
Proof.
  induction vs as [|v vs IH]; intros i cx cy r2 n; simpl.
  - split; [intros H; apply elem_of_nil in H; contradiction|].
    intros (w & _ & Hw & _). discriminate.
  - assert (n ∈ inside_circle_loop vs (S i) cx cy r2
            <-> exists w, (i < n)%nat /\ (v :: vs) !! (n - i)%nat = Some w
                          /\ (pow (Vertex.x w - cx) 2 + pow (Vertex.y w - cy) 2
                              <=? r2) = true) as Hrest.
    { rewrite IH. split; intros (w & Hi & Hw & Hd); exists w.
      - replace (n - i)%nat with (S (n - S i)) by lia. auto with lia.
      - replace (n - i)%nat with (S (n - S i)) in Hw by lia. auto with lia. }
    destruct (_ <=? r2) eqn:E.
    + rewrite elem_of_cons, Hrest. split.
      * intros [->|(w & Hi & Hw & Hd)].
        -- exists v. rewrite Nat.sub_diag. auto.
        -- exists w. auto with lia.
      * intros (w & Hi & Hw & Hd).
        destruct (decide (n = i)) as [->|Hne]; [auto|].
        right. exists w. auto with lia.
    + rewrite Hrest. split.
      * intros (w & Hi & Hw & Hd). exists w. auto with lia.
      * intros (w & Hi & Hw & Hd).
        destruct (decide (n = i)) as [->|Hne].
        -- rewrite Nat.sub_diag in Hw. injection Hw as <-. congruence.
        -- exists w. auto with lia.
Qed.

Lemma inside_circle_loop_sorted (vs : list Vertex.t) :
  forall (i : nat) (cx cy r2 : double),
    StronglySorted lt (inside_circle_loop vs i cx cy r2).
Proof.
  induction vs as [|v vs IH]; intros i cx cy r2; simpl; [constructor|].
  destruct (_ <=? r2); [|apply IH].
  constructor; [apply IH|].
  apply Forall_forall. intros n Hn. apply inside_circle_loop_range in Hn. lia.
Qed.

(** X3. [findVerticesInsideCircle] returns exactly the indices of the
    vertices whose squared distance to the centre is at most the square of
    the radius, in increasing order, each once. *)
Theorem findVerticesInsideCircle_spec (tree_ : list Vertex.t)
    (center_x center_y radius : double) :
  let near := findVerticesInsideCircle tree_ center_x center_y radius in
  (forall n : nat,
      n ∈ near
      <-> exists v, tree_ !! n = Some v
                    /\ (pow (Vertex.x v - center_x) 2
                        + pow (Vertex.y v - center_y) 2 <=? radius * radius) = true)
  /\ StronglySorted lt near
  /\ NoDup near.
Proof.
  intros near. assert (StronglySorted lt near) as Hs
    by apply inside_circle_loop_sorted.
  split; [|split; [exact Hs|]].
  - intros n. unfold near, findVerticesInsideCircle.
    rewrite inside_circle_loop_elem. rewrite Nat.sub_0_r.
    split; intros (v & H); exists v; [tauto|]. split; [lia|tauto].
  - clear -Hs. induction Hs as [|a l Hs IH Ha]; constructor; auto.
    intros Hin. rewrite Forall_forall in Ha. specialize (Ha a Hin). lia.
Qed.

Lemma inside_circle_loop_nan (vs : list Vertex.t) (i : nat) (cx cy : double) :
  inside_circle_loop vs i cx cy nan = [].
Proof.
  revert i. induction vs as [|v vs IH]; intros i; simpl; [reflexivity|].
  rewrite DoubleOrder.leb_nan_r. apply IH.
Qed.

(** X4. The radius enters [findVerticesInsideCircle] by its square only:
    a radius and its opposite give the same set, and a NaN radius gives the
    empty set, as nothing compares with NaN. *)
Theorem findVerticesInsideCircle_radius (tree_ : list Vertex.t)
    (center_x center_y radius : double) :
  findVerticesInsideCircle tree_ center_x center_y (- radius)
  = findVerticesInsideCircle tree_ center_x center_y radius
  /\ findVerticesInsideCircle tree_ center_x center_y nan = [].
Proof.
  unfold findVerticesInsideCircle. split.
  - rewrite DoubleFacts.mul_opp_opp. reflexivity.
  - change (nan * nan) with nan. apply inside_circle_loop_nan.
Qed.

(** X5. The distance of [calculate_distance] is never negative; it is at
    least 0 when it is a number, and it is the same from either of two
    vertices to the other. *)
Theorem calculate_distance_metric `{!LibmLaws M} (a b : Vertex.t) :
  (calculate_distance (Vertex.x a) (Vertex.y a) b <? 0) = false
  /\ (is_nan (calculate_distance (Vertex.x a) (Vertex.y a) b) = false ->
      (0 <=? calculate_distance (Vertex.x a) (Vertex.y a) b) = true)
  /\ calculate_distance (Vertex.x a) (Vertex.y a) b
     = calculate_distance (Vertex.x b) (Vertex.y b) a.
Proof.
  split; [apply DoubleFacts.sqrt_not_neg|].
  split; [apply calculate_distance_not_neg|apply calculate_distance_sym].
Qed.

End NearSet.

(** ** The goal scan *)

Section GoalScan.

Context {M : Libm}.
Variable this : RRTStar.
Variable gas : nat.
Local Open Scope float_scope.

Lemma goal_scan_body_scanned (goal : PoseStamped) (tree_ : list Vertex.t)
    (end_vertex : Vertex.t) (done : list nat) (index : nat)
    (s s' : double * Vertex.t) :
  scanned this gas goal tree_ end_vertex done s ->
  goal_scan_body this gas goal tree_ s index = Ret s' ->
  scanned this gas goal tree_ end_vertex (done ++ [index]) s'.
Proof.
  intros (Hx & Hy & Hch & Hopt) Hb. destruct s as [mc e].
  simpl in Hx, Hy, Hch, Hopt. unfold goal_scan_body in Hb.
  apply bind_Ret_inv in Hb as (cand & Hc & Hb). apply tree_at_Ret in Hc.
  apply bind_Ret_inv in Hb as (c0 & Hc0 & Hb). simpl in Hb.
  set (pc := c0 + calculate_distance (geometry_msgs.px goal)
                    (geometry_msgs.py goal) cand) in *.
  assert (forall r, goal_via this gas goal tree_ end_vertex index r -> r = pc)
    as Hdet.
  { intros r (cand' & cst & H1 & H2 & H3 & _).
    assert (cand' = cand) as -> by congruence.
    assert (cst = c0) as -> by congruence. exact H3. }
  assert ((pc <? mc) = false \/ connectible this gas end_vertex cand <> Ret true ->
          scanned this gas goal tree_ end_vertex (done ++ [index]) (mc, e))
    as Hsame.
  { intros Hwhy. repeat split; auto.
    - destruct Hch as [?|(c & cd & Hin & ?)]; [auto|].
      right. exists c, cd. split; [apply elem_of_app; auto|auto].
    - intros c r Hin Hv. apply elem_of_app in Hin as [Hin|Hin]; [eauto|].
      apply list_elem_of_singleton in Hin. subst c.
      pose proof (Hdet r Hv) as ->.
      destruct Hwhy as [Hge|Hno]; [exact Hge|].
      destruct Hv as (cand' & cst & H1 & _ & _ & H4).
      assert (cand' = cand) as -> by congruence. contradiction. }
  destruct (pc <? mc) eqn:Hlt; [|injection Hb as <-; apply Hsame; auto].
  rewrite (connectible_pos this gas e end_vertex) in Hb by assumption.
  apply bind_Ret_inv in Hb as ([|] & Hok & Hb); injection Hb as <-;
    [|apply Hsame; right; congruence].
  repeat split; auto.
  - right. exists index, cand. repeat split; auto.
    + apply elem_of_app. right. apply list_elem_of_singleton. reflexivity.
    + exists cand, c0. auto.
    + eapply DoubleOrder.ltb_infinity, Hlt.
  - intros c r Hin Hv. simpl. apply elem_of_app in Hin as [Hin|Hin].
    + destruct (r <? pc) eqn:E; [|reflexivity].
      rewrite <- (Hopt c r Hin Hv). symmetry.
      eapply DoubleFacts.ltb_trans; eauto.
    + apply list_elem_of_singleton in Hin. subst c.
      rewrite (Hdet r Hv). apply DoubleFacts.ltb_irrefl.
Qed.

Lemma goal_scan_scanned (goal : PoseStamped) (tree_ : list Vertex.t)
    (vs : list nat) (end_vertex : Vertex.t) (s : double * Vertex.t) :
  goal_scan this gas goal tree_ vs end_vertex = Ret s ->
  scanned this gas goal tree_ end_vertex vs s.
Proof.
  unfold goal_scan. intros H.
  eapply (for_each_prefix_inv (scanned this gas goal tree_ end_vertex)
            (fun _ => True)) with (done := []) in H.
  - exact H.
  - intros done a s0 s1 _. apply goal_scan_body_scanned.
  - apply Forall_forall. auto.
  - repeat split; auto. intros c r Hin. apply elem_of_nil in Hin. contradiction.
Qed.

(** X6. A scan of the goal connector leaves in [min_cost] the least
    verified cost of a connection of the goal to a vertex of the near set,
    and in [end_vertex] that vertex as parent, with the length of the
    segment as edge cost; when no vertex of the near set gives a
    connectible segment, [min_cost] stays infinite and [end_vertex] is
    unchanged.  The position of [end_vertex] is never assigned. *)
Theorem goal_scan_best (goal : PoseStamped) (tree_ : list Vertex.t)
    (vertices_inside_circle : list nat) (end_vertex end_vertex' : Vertex.t)
    (min_cost : double) :
  goal_scan this gas goal tree_ vertices_inside_circle end_vertex
  = Ret (min_cost, end_vertex') ->
  Vertex.x end_vertex' = Vertex.x end_vertex
  /\ Vertex.y end_vertex' = Vertex.y end_vertex
  /\ ((min_cost = infinity /\ end_vertex' = end_vertex)
      \/ (exists (c : nat) (candidate : Vertex.t),
            c ∈ vertices_inside_circle /\ tree_ !! c = Some candidate
            /\ goal_via this gas goal tree_ end_vertex c min_cost
            /\ Vertex.parent end_vertex' = Some c
            /\ Vertex.cost end_vertex'
               = calculate_distance (geometry_msgs.px goal)
                   (geometry_msgs.py goal) candidate
            /\ (min_cost <? infinity) = true))
  /\ forall (c : nat) (r : double),
       c ∈ vertices_inside_circle ->
       goal_via this gas goal tree_ end_vertex c r -> (r <? min_cost) = false.
Proof. intros H. apply goal_scan_scanned in H. exact H. Qed.

(** A connection of the goal is the work of the first scan. *)
Lemma connect_goal_first_scan (goal : PoseStamped) (tree_ : list Vertex.t)
    (vs : list nat) (poses : list PoseStamped) (fuel : nat)
    (end_vertex : Vertex.t) (tree' : list Vertex.t) (poses' : list PoseStamped) :
  connect_goal this gas fuel goal tree_ vs end_vertex poses = Ret (tree', poses') ->
  exists (min_cost : double) (ev : Vertex.t),
    goal_scan this gas goal tree_ vs end_vertex = Ret (min_cost, ev)
    /\ (min_cost <? 10000) = true
    /\ tree' = tree_ ++ [ev]
    /\ extract_path gas gas tree' (Some ev) poses = Ret poses'.
Proof.
  destruct fuel as [|fuel]; simpl; [discriminate|]. intros H.
  apply bind_Ret_inv in H as ([mc ev1] & Hs & H). simpl in H.
  destruct (mc <? 10000) eqn:Hlt.
  - apply bind_Ret_inv in H as (poses1 & He & H). injection H as <- <-.
    exists mc, ev1. auto.
  - apply goal_scan_again in Hs as (ev2 & Hs). simpl in Hs.
    rewrite (connect_goal_never this gas _ _ _ _ _ fuel Hlt _ _ Hs) in H.
    discriminate.
Qed.

(** The vertex the goal connector appends. *)
Lemma connect_goal_vertex (goal : PoseStamped) (tree_ : list Vertex.t)
    (vs : list nat) (poses : list PoseStamped) (fuel : nat)
    (end_vertex : Vertex.t) (tree' : list Vertex.t) (poses' : list PoseStamped) :
  connect_goal this gas fuel goal tree_ vs end_vertex poses = Ret (tree', poses') ->
  exists (ev : Vertex.t) (c : nat) (candidate : Vertex.t),
    tree' = tree_ ++ [ev]
    /\ Vertex.x ev = Vertex.x end_vertex /\ Vertex.y ev = Vertex.y end_vertex
    /\ Vertex.parent ev = Some c /\ tree_ !! c = Some candidate
    /\ connectible this gas ev candidate = Ret true
    /\ extract_path gas gas tree' (Some ev) poses = Ret poses'.
Proof.
  intros H. apply connect_goal_first_scan in H as (mc & ev & Hs & Hlt & -> & He).
  pose proof (goal_scan_scanned _ _ _ _ _ Hs) as (Hx & Hy & Hch & _).
  simpl in Hx, Hy, Hch.
  destruct Hch as [[-> _]|(c & cand & _ & Hc & Hv & Hp & _)]; [discriminate|].
  exists ev, c, cand. repeat split; auto.
  destruct Hv as (cand' & cst & H1 & _ & _ & H4).
  assert (cand' = cand) as -> by congruence.
  rewrite (connectible_pos this gas ev end_vertex); auto.
Qed.

End GoalScan.

(** ** The tree during and after the growth *)

Section GrowthFrame.

Context {M : Libm} {R : RandomSource}.
Variable this : RRTStar.
Variable gas : nat.
Local Open Scope float_scope.

Lemma parents_in_range_snoc (tree_ : list Vertex.t) (v : Vertex.t) (p : nat) :
  parents_in_range tree_ -> Vertex.parent v = Some p -> (p < length tree_)%nat ->
  parents_in_range (tree_ ++ [v]).
Proof.
  intros Hr Hp Hlt i w q Hw Hq. rewrite length_app. simpl.
  apply lookup_snoc_Some in Hw as [[_ Hw]|[_ <-]].
  - specialize (Hr i w q Hw Hq). lia.
  - assert (q = p) as -> by congruence. lia.
Qed.

(** The vertex an insertion appends: its parent is in the tree and the
    segment between them was found connectible. *)
Lemma grow_body_new_vertex (goal : PoseStamped) (brc : double) (i i' : Z)
    (gen gen' : Gen) (tree_ tree' : list Vertex.t) :
  parents_in_range tree_ ->
  grow_body this gas goal brc i gen tree_ = Ret (i', gen', tree') ->
  tree' = tree_
  \/ exists (v : Vertex.t) (p : nat) (w : Vertex.t),
       tree' = tree_ ++ [v] /\ Vertex.parent v = Some p /\ tree_ !! p = Some w
       /\ (connectible this gas w v = Ret true
           \/ connectible this gas v w = Ret true).
Proof.
  intros Hr. unfold grow_body.
  destruct ((if (Z.rem i 5 =? 0)%Z then _ else _) gen) as [rand_x gen1].
  destruct ((if (Z.rem i 5 =? 0)%Z then _ else _) gen1) as [rand_y gen2].
  destruct (nearest_neighbor _ _ _) as [n|] eqn:Hn; [|discriminate].
  intros H. apply bind_Ret_inv in H as (nearest & Hnear & H).
  apply tree_at_Ret in Hnear.
  apply bind_Ret_inv in H as ([|] & Hok & H); [|injection H as <- <- <-; auto].
  right. rewrite tree_back_snoc in H.
  apply bind_Ret_inv in H as (back & Hback & H). injection Hback as <-.
  match type of Hok with connectible _ _ _ ?v = _ => set (v0 := v) in * end.
  apply bind_Ret_inv in H as (total0 & Htot & H).
  apply bind_Ret_inv in H as (s & Hs & H). injection H as <- <- <-.
  simpl in Hs.
  eapply (for_each_prefix_inv (rewired this gas tree_ v0 total0)
            (fun a => (a < length tree_)%nat)) with (done := []) in Hs.
  - destruct Hs as (v & Ht & Hx & Hy & Hch & _). simpl in Hx, Hy.
    destruct Hch as [[-> _]|(c & cand & _ & Hc & Hv & Hp & _)].
    + exists v0, n, nearest. split; [exact Ht|]. repeat split; auto.
    + exists v, c, cand. repeat split; auto. right.
      destruct Hv as (cand' & cst & H1 & _ & _ & H4).
      assert (cand' = cand) as -> by congruence.
      rewrite <- H4. apply connectible_pos; auto.
  - intros done a s0 s1 Ha. apply rewire_body_rewired; auto.
  - apply near_set_range.
  - exists v0. simpl. split; [reflexivity|]. repeat split; auto.
    intros c r Hin. apply elem_of_nil in Hin. contradiction.
Qed.

Lemma edges_checked_snoc (tree_ : list Vertex.t) (v : Vertex.t) (p : nat)
    (w : Vertex.t) :
  parents_in_range tree_ -> edges_checked this gas tree_ ->
  Vertex.parent v = Some p -> tree_ !! p = Some w ->
  connectible this gas w v = Ret true \/ connectible this gas v w = Ret true ->
  edges_checked this gas (tree_ ++ [v]).
Proof.
  intros Hr He Hp Hw Hc i q u z Hu Hq Hz.
  apply lookup_snoc_Some in Hu as [[_ Hu]|[_ <-]].
  - pose proof (Hr i u q Hu Hq) as Hlt.
    rewrite lookup_app_l in Hz by exact Hlt. eapply He; eauto.
  - assert (q = p) as -> by congruence.
    rewrite lookup_app_l in Hz by (eapply lookup_lt_Some, Hw).
    assert (z = w) as -> by congruence. exact Hc.
Qed.

(** A property of trees that every appended vertex with a checked edge to
    a parent in the tree keeps is kept by the growth loop. *)
Lemma grow_snoc_inv (P : list Vertex.t -> Prop) (goal : PoseStamped)
    (brc : double) :
  (forall (tree_ : list Vertex.t) (v : Vertex.t) (p : nat) (w : Vertex.t),
      parents_in_range tree_ -> P tree_ ->
      Vertex.parent v = Some p -> tree_ !! p = Some w ->
      connectible this gas w v = Ret true \/ connectible this gas v w = Ret true ->
      P (tree_ ++ [v])) ->
  forall (fuel : nat) (i : Z) (gen gen' : Gen) (tree_ tree' : list Vertex.t),
    parents_in_range tree_ -> P tree_ ->
    grow this gas fuel goal brc i gen tree_ = Ret (gen', tree') ->
    parents_in_range tree' /\ P tree'.
Proof.
  intros Hstep.
  induction fuel as [|fuel IH]; intros i gen gen' tree_ tree' Hr HP H; simpl in H.
  - destruct (i <=? _)%Z; [discriminate|]. injection H as <- <-. auto.
  - destruct (i <=? _)%Z; [|injection H as <- <-; auto].
    apply bind_Ret_inv in H as ([[i1 gen1] tree1] & Hb & H). simpl in H.
    apply grow_body_new_vertex in Hb as [->|(v & p & w & -> & Hp & Hw & Hc)];
      [eapply IH; eauto| |exact Hr].
    eapply IH in H; eauto.
    eapply parents_in_range_snoc; eauto. eapply lookup_lt_Some, Hw.
Qed.

Lemma root_only_range (start : PoseStamped) :
  parents_in_range [start_vertex start]
  /\ edges_checked this gas [start_vertex start]
  /\ rooted start [start_vertex start].
Proof.
  split; [|split; [|split; [reflexivity|]]].
  - intros i v p Hv Hp. destruct i; simpl in Hv; [|discriminate].
    injection Hv as <-. discriminate.
  - intros i p v w Hv Hp. destruct i; simpl in Hv; [|discriminate].
    injection Hv as <-. discriminate.
  - intros i v Hv Hp. destruct i; [reflexivity|discriminate].
Qed.

Lemma rooted_snoc (start : PoseStamped) (tree_ : list Vertex.t) (v : Vertex.t)
    (p : nat) :
  rooted start tree_ -> Vertex.parent v = Some p -> rooted start (tree_ ++ [v]).
Proof.
  intros [H0 Hi] Hp. split.
  - rewrite lookup_app_l; [exact H0|]. eapply lookup_lt_Some, H0.
  - intros i w Hw Hn. apply lookup_snoc_Some in Hw as [[_ Hw]|[_ <-]]; eauto.
    congruence.
Qed.

(** X7. Throughout the growth of the tree no vertex that is in the tree
    changes, and neither does its cost from the start: the rewiring
    assigns the vertex just inserted and no other. *)
Theorem growth_keeps_costs (goal : PoseStamped) (brc : double) (fuel : nat)
    (i : Z) (gen gen' : Gen) (tree_ tree' : list Vertex.t) :
  parents_in_range tree_ ->
  grow this gas fuel goal brc i gen tree_ = Ret (gen', tree') ->
  parents_in_range tree'
  /\ forall (j : nat) (w : Vertex.t),
       tree_ !! j = Some w ->
       tree' !! j = Some w
       /\ calculate_cost_from_start gas tree' w
          = calculate_cost_from_start gas tree_ w.
Proof.
  intros Hr H.
  eapply (grow_snoc_inv
            (fun t => forall j w, tree_ !! j = Some w ->
                                  t !! j = Some w
                                  /\ calculate_cost_from_start gas t w
                                     = calculate_cost_from_start gas tree_ w))
    in H; auto.
  intros t v p u Hrt HP _ _ _ j w Hw. destruct (HP j w Hw) as [Hj Hc]. split.
  - rewrite lookup_app_l; [exact Hj|eapply lookup_lt_Some, Hj].
  - rewrite <- Hc. eapply cost_from_start_app; eauto.
Qed.

(** X8. Every edge of the tree a planning call leaves was found
    connectible when it was made, from the parent to the child (the
    nearest neighbour of a sample) or from the child to the parent (a
    rewired parent, the parent of the goal vertex); and every parent
    pointer points into the tree. *)
Theorem plan_edges_checked (fuel : nat) (start goal : PoseStamped) (gen : Gen)
    (tree' : list Vertex.t) (raw : list PoseStamped) :
  plan_raw this gas fuel start goal gen = Ret (tree', raw) ->
  parents_in_range tree' /\ edges_checked this gas tree'.
Proof.
  unfold plan_raw. intros H.
  apply bind_Ret_inv in H as ([gen1 tree1] & Hg & H). simpl in H.
  destruct (root_only_range start) as (Hr0 & He0 & _).
  apply (grow_snoc_inv (edges_checked this gas)) in Hg as (Hr & He); auto;
    [|intros; eapply edges_checked_snoc; eauto].
  apply connect_goal_vertex in H
    as (ev & c & cand & -> & _ & _ & Hp & Hc & Hok & _).
  split.
  - eapply parents_in_range_snoc; eauto. eapply lookup_lt_Some, Hc.
  - eapply edges_checked_snoc; eauto.
Qed.

End GrowthFrame.

(** X9. The tree a planning call leaves, when it returns: as many
    vertices as the budget of iterations, the start vertex first, and after
    them the goal vertex, at the position of the goal.  Its parent is a
    vertex within twice the connection radius of the goal, with a
    connectible segment and a verified cost from the start below 10000,
    and no vertex within that radius gives a smaller verified cost.  The
    plan is the work of the first scan of the connector: that scan, from
    the goal vertex without parent, gives the vertex inserted, and the
    connector allowed one scan returns the same tree and path. *)
Theorem plan_tree_shape {M : Libm} {R : RandomSource} (this : RRTStar)
    (gas fuel : nat) (start goal : PoseStamped) (gen : Gen)
    (tree' : list Vertex.t) (raw : list PoseStamped) :
  plan_raw this gas fuel start goal gen = Ret (tree', raw) ->
  exists (t : list Vertex.t) (ev : Vertex.t) (c : nat) (candidate : Vertex.t)
         (min_cost : double),
    let gx := geometry_msgs.px goal in
    let gy := geometry_msgs.py goal in
    let near :=
      findVerticesInsideCircle t gx gy
        (2 * calculateBallRadius (calculateBallRadiusConstant this)
               (Z.of_nat (length t)) 2 2.0)%float in
    tree' = t ++ [ev]
    /\ Z.of_nat (length t) = Z.max 1 (max_iterations_ this)
    /\ t !! 0%nat = Some (start_vertex start)
    /\ Vertex.x ev = gx /\ Vertex.y ev = gy
    /\ Vertex.parent ev = Some c /\ t !! c = Some candidate /\ c ∈ near
    /\ Vertex.cost ev = calculate_distance gx gy candidate
    /\ goal_via this gas goal t (Vertex.new gx gy) c min_cost
    /\ (min_cost <? 10000)%float = true
    /\ (forall (c' : nat) (r : double),
          c' ∈ near -> goal_via this gas goal t (Vertex.new gx gy) c' r ->
          (r <? min_cost)%float = false)
    /\ goal_scan this gas goal t near (Vertex.new gx gy) = Ret (min_cost, ev)
    /\ connect_goal this gas 1 goal t near (Vertex.new gx gy) [goal_pose goal]
       = Ret (tree', raw).
Proof.
  unfold plan_raw. intros H.
  apply bind_Ret_inv in H as ([gen1 tree1] & Hg & H). simpl in H.
  pose proof (grow_length _ _ _ _ _ _ _ _ _ _ Hg eq_refl) as Hlen.
  destruct (root_only_range this gas start) as (Hr0 & _ & Hroot).
  apply (grow_snoc_inv _ _ (rooted start)) in Hg as (_ & [H0 _]); auto;
    [|intros; eapply rooted_snoc; eauto].
  apply connect_goal_first_scan in H as (mc & ev & Hs & Hlt & -> & He).
  pose proof (goal_scan_scanned _ _ _ _ _ _ _ Hs) as (Hx & Hy & Hch & Hopt).
  simpl in Hx, Hy, Hch, Hopt.
  destruct Hch as [[-> _]|(c & cand & Hin & Hc & Hv & Hp & Hcost & _)];
    [discriminate|].
  exists tree1, ev, c, cand, mc. cbv zeta.
  do 12 (split; [solve [auto]|]). split; [exact Hs|].
  simpl. rewrite Hs. simpl. rewrite Hlt, He. reflexivity.
Qed.

(** ** The path *)

Section Path.

Context {M : Libm}.
Variable gas : nat.
Local Open Scope float_scope.

(** X10. The loop that makes the path denser along an edge: when its
    condition [i < steps - 1] holds for [i = 0, ..., n - 1] and fails for
    [i = n], it puts [n] poses in front of the path, the points reached
    from the child by 1, ..., [n] increments, the one after [n] increments
    first. *)
Theorem densify_loop_spec (n : nat) (steps xi yi x y : double)
    (poses : list PoseStamped) :
  (forall j : nat, (j < n)%nat ->
                   (Double.of_int (Z.of_nat j) <? steps - 1) = true) ->
  (Double.of_int (Z.of_nat n) <? steps - 1) = false ->
  (n <= gas)%nat -> (Z.of_nat n <= INT_MAX)%Z ->
  densify_loop gas 0 steps xi yi x y poses
  = Ret (densified n x y xi yi ++ poses)
  /\ length (densified n x y xi yi) = n
  /\ forall k : nat,
       (k < n)%nat ->
       densified n x y xi yi !! k
       = Some (let p := sample_point (n - k) x y xi yi in pose_at p.1 p.2).
Proof.
  intros Hin Hout Hf Hi. split; [|split].
  - apply densify_loop_trips; auto.
  - unfold densified. rewrite length_rev, length_fmap, length_seq. reflexivity.
  - intros k Hk. unfold densified.
    rewrite rev_alt.
    change (rev_append ?l []) with (reverse l).
    rewrite reverse_lookup; rewrite length_fmap, length_seq; [|exact Hk].
    rewrite list_lookup_fmap, lookup_seq_lt by lia.
    replace (1 + (n - S k))%nat with (n - k)%nat by lia. reflexivity.
Qed.

Lemma zero_length_steps `{!LibmLaws M} (a b : double) :
  (0 <? ceil (hypot (a - a) (b - b) * 10) - 1) = false.
Proof.
  assert (ceil (hypot (a - a) (b - b) * 10) = 0
          \/ ceil (hypot (a - a) (b - b) * 10) = nan) as [-> | ->];
    [|reflexivity|reflexivity].
  destruct (DoubleFacts.sub_diag a) as [-> | ->],
           (DoubleFacts.sub_diag b) as [-> | ->].
  - left. rewrite hypot_zero. change (0 * 10) with 0. apply ceil_zero.
  - right. rewrite hypot_zero_nan. change (nan * 10) with nan. apply ceil_nan.
  - right. rewrite hypot_nan_zero. change (nan * 10) with nan. apply ceil_nan.
  - right. rewrite hypot_nan_nan. change (nan * 10) with nan. apply ceil_nan.
Qed.

(** X11. An edge of length zero: a vertex at the position of its parent
    contributes its own pose and no other, whatever the bound on the
    inner loop; the increments, quotients by a number of steps that is 0,
    are never used. *)
Theorem extract_path_zero_length_edge `{!LibmLaws M} (fuel : nat)
    (tree_ : list Vertex.t) (v par : Vertex.t) (p : nat)
    (poses : list PoseStamped) :
  Vertex.parent v = Some p -> tree_ !! p = Some par ->
  Vertex.x par = Vertex.x v -> Vertex.y par = Vertex.y v ->
  extract_path gas (S fuel) tree_ (Some v) poses
  = extract_path gas fuel tree_ (Some par)
      (pose_at (Vertex.x v) (Vertex.y v) :: poses).
Proof.
  intros Hp Hpar Hx Hy. simpl. rewrite Hp. unfold tree_at. rewrite Hpar. simpl.
  rewrite Hx, Hy.
  assert (forall xi yi x y l,
             densify_loop gas 0
               (ceil (hypot (Vertex.x v - Vertex.x v) (Vertex.y v - Vertex.y v) * 10))
               xi yi x y l = Ret l) as ->; [|reflexivity].
  intros xi yi x y l. destruct gas; simpl; rewrite zero_length_steps; reflexivity.
Qed.

Lemma plain_pose_at (x y : double) : plain (pose_at x y).
Proof. repeat split. Qed.

Lemma plain_computeBezierPoint (P0 P1 P2 P3 : PoseStamped) (t : double) :
  plain (computeBezierPoint P0 P1 P2 P3 t).
Proof. repeat split. Qed.

Lemma densify_plain (fuel : nat) :
  forall (i : Z) (steps xi yi x y : double) (poses poses' : list PoseStamped),
    densify_loop fuel i steps xi yi x y poses = Ret poses' ->
    exists pre, poses' = pre ++ poses /\ Forall plain pre.
Proof.
  induction fuel as [|fuel IH]; intros i steps xi yi x y poses poses' H; simpl in H.
  - destruct (_ <? _); [discriminate|]. injection H as <-. exists []. auto.
  - destruct (_ <? _).
    + destruct (i =? INT_MAX)%Z; [discriminate|].
      apply IH in H as (pre & -> & Hpre).
      exists (pre ++ [pose_at (x + xi) (y + yi)]).
      rewrite <- app_assoc. split; [reflexivity|].
      apply Forall_app. split; [exact Hpre|].
      constructor; [apply plain_pose_at|constructor].
    + injection H as <-. exists []. auto.
Qed.

(** The walk puts at least the pose of the vertex it starts from in
    front of the path, and plain poses only. *)
Lemma extract_plain (fuel : nat) :
  forall (tree_ : list Vertex.t) (cur_ver : option Vertex.t)
         (poses poses' : list PoseStamped),
    extract_path gas fuel tree_ cur_ver poses = Ret poses' ->
    exists pre, poses' = pre ++ poses /\ Forall plain pre
                /\ (cur_ver <> None -> pre <> []).
Proof.
  induction fuel as [|fuel IH]; intros tree_ cur poses poses' H;
    destruct cur as [v|]; simpl in H; try discriminate;
    try (injection H as <-; exists []; auto).
  assert (exists pre, poses' = pre ++ pose_at (Vertex.x v) (Vertex.y v) :: poses
                      /\ Forall plain pre) as (pre & -> & Hpre).
  { destruct (Vertex.parent v) as [p|].
    - apply bind_Ret_inv in H as (par & _ & H).
      apply bind_Ret_inv in H as (poses1 & Hd & H).
      apply densify_plain in Hd as (pre1 & -> & Hpre1).
      apply IH in H as (pre & -> & Hpre & _).
      exists (pre ++ pre1). rewrite <- app_assoc. split; [reflexivity|].
      apply Forall_app. auto.
    - apply IH in H as (pre & -> & Hpre & _). exists pre. auto. }
  exists (pre ++ [pose_at (Vertex.x v) (Vertex.y v)]).
  rewrite <- app_assoc. split; [reflexivity|]. split.
  - apply Forall_app. split; [exact Hpre|].
    constructor; [apply plain_pose_at|constructor].
  - intros _ E. apply app_eq_nil in E as [_ E]. discriminate.
Qed.

Lemma smooth_windows_plain (poses : list PoseStamped) (l : list nat) :
  forall acc r : list PoseStamped,
    for_each (smooth_window gas poses) l acc = Ret r ->
    exists suf, r = acc ++ suf /\ Forall plain suf.
Proof.
  induction l as [|i l IH]; intros acc r H; simpl in H.
  - injection H as <-. exists []. rewrite app_nil_r. auto.
  - apply bind_Ret_inv in H as (acc1 & H1 & H).
    unfold smooth_window in H1.
    apply bind_Ret_inv in H1 as (P0 & _ & H1).
    apply bind_Ret_inv in H1 as (P1 & _ & H1).
    apply bind_Ret_inv in H1 as (P2 & _ & H1).
    apply bind_Ret_inv in H1 as (P3 & _ & H1).
    rewrite bezier_loop_params in H1.
    destruct (bezier_exits gas 0); [|discriminate]. injection H1 as <-.
    apply IH in H as (suf & -> & Hsuf).
    eexists. rewrite <- app_assoc. split; [reflexivity|].
    apply Forall_app. split; [|exact Hsuf].
    apply Forall_fmap, Forall_forall. intros t _.
    apply plain_computeBezierPoint.
Qed.

Lemma pose_idx_Ret (poses : list PoseStamped) (i : nat) (p : PoseStamped) :
  pose_idx poses i = Ret p -> poses !! i = Some p.
Proof.
  unfold pose_idx. destruct (poses !! i); [|discriminate].
  intros H. injection H as <-. reflexivity.
Qed.

(** Whatever it returns, [smoothPath] keeps the frame and the two ends of
    the path, and puts plain poses between them. *)
Lemma smoothPath_ends (path path' : nav_msgs.Path) (h l : PoseStamped)
    (mid : list PoseStamped) :
  nav_msgs.poses path = h :: mid ++ [l] -> Forall plain mid ->
  smoothPath gas path = Ret path' ->
  nav_msgs.frame_id path' = nav_msgs.frame_id path
  /\ exists mid', nav_msgs.poses path' = h :: mid' ++ [l] /\ Forall plain mid'.
Proof.
  intros Hp Hmid. unfold smoothPath.
  destruct (length (nav_msgs.poses path) <? 4)%nat.
  - intros H. injection H as <-. eauto.
  - intros H. apply bind_Ret_inv in H as (first & Hf & H).
    apply bind_Ret_inv in H as (sm & Hs & H).
    apply bind_Ret_inv in H as (back & Hb & H). injection H as <-. simpl.
    split; [reflexivity|].
    apply pose_idx_Ret in Hf, Hb. rewrite Hp in Hf, Hb. simpl in Hf.
    injection Hf as <-.
    assert (back = l) as ->.
    { simpl in Hb. rewrite length_app, Nat.sub_0_r in Hb. simpl in Hb.
      replace (length mid + 1)%nat with (S (length mid)) in Hb by lia.
      simpl in Hb. rewrite list_lookup_middle in Hb by reflexivity. congruence. }
    apply smooth_windows_plain in Hs as (suf & -> & Hsuf). exists suf. auto.
Qed.

End Path.

Lemma windows_lookup {M : Libm} (poses : list PoseStamped) (m : nat) :
  forall a w k : nat,
    (w < m)%nat -> (k < 20)%nat ->
    (seq a m ≫= window_samples poses) !! (20 * w + k)%nat
    = window_samples poses (a + w) !! k.
Proof.
  induction m as [|m IH]; intros a w k Hw Hk; [lia|].
  cbn [seq]. rewrite bind_cons. destruct w as [|w].
  - rewrite lookup_app_l by (rewrite window_samples_length; lia).
    rewrite Nat.add_0_r. reflexivity.
  - rewrite lookup_app_r by (rewrite window_samples_length; lia).
    rewrite window_samples_length.
    replace (20 * S w + k - 20)%nat with (20 * w + k)%nat by lia.
    rewrite IH by lia. replace (a + S w)%nat with (S a + w)%nat by lia.
    reflexivity.
Qed.

(** X12. The content of a smoothed path of [n >= 4] poses, in the frame
    of the path: the first pose, the last pose at the end, and between them
    the windows in order, sample [k] of the window over the poses
    [w, ..., w + 3] at index [1 + 20 * w + k]; consecutive windows share
    three poses. *)
Theorem smoothPath_windows {M : Libm} (gas : nat) (path : nav_msgs.Path) :
  (20 <= gas)%nat -> (4 <= length (nav_msgs.poses path))%nat ->
  exists path',
    smoothPath gas path = Ret path'
    /\ nav_msgs.frame_id path' = nav_msgs.frame_id path
    /\ nav_msgs.poses path' !! 0%nat = nav_msgs.poses path !! 0%nat
    /\ last (nav_msgs.poses path') = last (nav_msgs.poses path)
    /\ forall w k : nat,
         (w < length (nav_msgs.poses path) - 3)%nat -> (k < 20)%nat ->
         nav_msgs.poses path' !! (1 + 20 * w + k)%nat
         = window_samples (nav_msgs.poses path) (1 + w) !! k.
Proof.
  intros Hg Hn. eexists. split; [apply smoothPath_long; assumption|].
  cbv zeta. cbn [nav_msgs.poses nav_msgs.frame_id].
  split; [reflexivity|]. split; [|split].
  - destruct (nth_lookup_or_length (nav_msgs.poses path) 0
                geometry_msgs.default_pose) as [->|?]; [reflexivity|lia].
  - rewrite app_comm_cons, last_snoc, last_lookup.
    replace (Init.Nat.pred (length (nav_msgs.poses path)))
      with (length (nav_msgs.poses path) - 1)%nat by lia.
    destruct (nth_lookup_or_length (nav_msgs.poses path)
                (length (nav_msgs.poses path) - 1)
                geometry_msgs.default_pose) as [->|?]; [reflexivity|lia].
  - intros w k Hw Hk.
    replace (1 + 20 * w + k)%nat with (S (20 * w + k)) by lia.
    rewrite <- lookup_tail. cbn [tail].
    rewrite lookup_app_l by (rewrite windows_length, length_seq; nia).
    apply windows_lookup; assumption.
Qed.

Lemma head_of_path {A : Type} (h g : A) (rest pre : list A) :
  h :: rest = pre ++ [g] -> pre <> [] -> exists mid, pre = h :: mid.
Proof.
  destruct pre as [|a pre]; simpl; intros H Hne; [contradiction|].
  exists pre. congruence.
Qed.

(** X13. What [createPlan] returns, when it returns: the empty path
    with an empty frame when the frame of the start or of the goal is not
    the global frame; else a path in the global frame that starts with the
    position of the start and ends with the pose of the goal, position and
    orientation.  Every pose has an empty frame and [z = 0], and every pose
    but the last the default orientation. *)
Theorem createPlan_endpoints {M : Libm} {R : RandomSource} (this : RRTStar)
    (gas fuel : nat) (start goal : PoseStamped) (gen : Gen)
    (path : nav_msgs.Path) :
  createPlan this gas fuel start goal gen = Ret path ->
  (geometry_msgs.frame_id start <> global_frame_ this
   \/ geometry_msgs.frame_id goal <> global_frame_ this ->
   path = {| nav_msgs.frame_id := EmptyString; nav_msgs.poses := [] |})
  /\ (geometry_msgs.frame_id start = global_frame_ this ->
      geometry_msgs.frame_id goal = global_frame_ this ->
      nav_msgs.frame_id path = global_frame_ this
      /\ exists mid,
           nav_msgs.poses path
           = pose_at (geometry_msgs.px start) (geometry_msgs.py start)
             :: mid ++ [goal_pose goal]
           /\ Forall plain mid
           /\ geometry_msgs.frame_id (goal_pose goal) = EmptyString
           /\ geometry_msgs.z (geometry_msgs.position
                                 (geometry_msgs.pose (goal_pose goal))) = 0%float
           /\ geometry_msgs.orientation (geometry_msgs.pose (goal_pose goal))
              = geometry_msgs.orientation (geometry_msgs.pose goal)).
Proof.
  unfold createPlan. intros H.
  destruct (String.eqb_spec (geometry_msgs.frame_id start) (global_frame_ this))
    as [Es|Es]; simpl in H.
  2: { injection H as <-. split; [reflexivity|contradiction]. }
  destruct (String.eqb_spec (geometry_msgs.frame_id goal) (global_frame_ this))
    as [Eg|Eg]; simpl in H.
  2: { injection H as <-. split; [reflexivity|contradiction]. }
  split; [intros [?|?]; contradiction|]. intros _ _.
  apply bind_Ret_inv in H as ([tree' raw] & Hraw & H). simpl in H.
  assert (exists mid,
             raw = pose_at (geometry_msgs.px start) (geometry_msgs.py start)
                   :: mid ++ [goal_pose goal]
             /\ Forall plain mid) as (mid & Hmid & Hplain).
  { unfold plan_raw in Hraw.
    apply bind_Ret_inv in Hraw as ([gen1 tree1] & Hg & Hc). simpl in Hc.
    destruct (root_only_range this gas start) as (Hr0 & _ & Hroot).
    apply (grow_snoc_inv _ _ (rooted start)) in Hg as (_ & Hrooted); auto;
      [|intros; eapply rooted_snoc; eauto].
    apply connect_goal_vertex in Hc
      as (ev & c & cand & -> & _ & _ & Hp & _ & _ & He).
    pose proof (extract_plain _ _ _ _ _ _ He) as (pre & Hpre & Hpl & Hne).
    eapply (extract_head gas start) with (i := length tree1) in He
      as [rest Hrest].
    - rewrite Hrest in Hpre.
      destruct (head_of_path _ _ _ _ Hpre ltac:(apply Hne; discriminate))
        as (mid & ->).
      exists mid. split; [rewrite Hrest; exact Hpre|].
      apply Forall_cons in Hpl as [_ Hpl]. exact Hpl.
    - eapply rooted_snoc; eauto.
    - apply list_lookup_middle. reflexivity. }
  eapply smoothPath_ends in H as [Hf (mid' & Hp & Hpl)]; eauto.
  split; [exact Hf|]. exists mid'. repeat split; auto.
Qed.

(** ** The cost from the start *)

Section CostFromStart.

Context {M : Libm}.
Local Open Scope float_scope.

Lemma add_not_neg (a b : double) :
  (a <? 0) = false -> (0 <=? b) = true -> (a + b <? 0) = false.
Proof.
  rewrite !FloatAxioms.ltb_spec, FloatAxioms.leb_spec, FloatAxioms.add_spec.
  change (Prim2SF 0) with (S754_zero false). unfold SF64add.
  destruct (Prim2SF a) as [sa|sa| |sa ma ea], (Prim2SF b) as [sb|sb| |sb mb eb];
    try destruct sa; try destruct sb; try discriminate; try reflexivity.
  intros _ _. unfold SFadd. cbn [cond_Zopp].
  change (Z.pos ?p + Z.pos ?q)%Z with (Z.pos (p + q)).
  cbn [binary_normalize]. unfold binary_round.
  destruct (shl_align _ _ (fexp _ _ _)) as [mz ez].
  destruct (DoubleFacts.binary_round_aux_cases false (Zpos mz) ez loc_Exact)
    as [H|[H|[H|(m' & e' & H)]]]; simpl in H; rewrite H; reflexivity.
Qed.

Lemma cost_walk_not_neg (start : PoseStamped) (tree_ : list Vertex.t) :
  tree_inv start tree_ ->
  forall (fuel i : nat) (v : Vertex.t) (acc c : double),
    tree_ !! i = Some v -> (acc <? 0) = false ->
    cost_walk fuel tree_ v acc = Ret c -> (c <? 0) = false.
Proof.
  intros [H0 Hi].
  assert (forall i v, tree_ !! i = Some v -> (0 <=? Vertex.cost v) = true) as Hc.
  { intros [|i] v Hv.
    - assert (v = start_vertex start) as -> by congruence. reflexivity.
    - destruct (Hi (S i) v Hv ltac:(lia)) as (_ & _ & _ & H). exact H. }
  induction fuel as [|fuel IH]; intros i v acc c Hv Hacc H; simpl in H;
    destruct (Vertex.parent v) as [p|]; try discriminate;
    try (injection H as <-; apply add_not_neg; eauto).
  destruct (tree_ !! p) as [w|] eqn:Hw; [|discriminate].
  apply (IH p w (acc + Vertex.cost v) c Hw); [|exact H].
  apply add_not_neg; eauto.
Qed.

(** X14. In a tree that has the invariant, the cost from the start of a
    vertex, the sum of the edge costs along its parent chain, is never
    negative; it is at least 0 when it is a number. *)
Theorem cost_from_start_not_negative (gas : nat) (start : PoseStamped)
    (tree_ : list Vertex.t) (i : nat) (v : Vertex.t) (c : double) :
  tree_inv start tree_ -> tree_ !! i = Some v ->
  calculate_cost_from_start gas tree_ v = Ret c ->
  (c <? 0) = false /\ (is_nan c = false -> (0 <=? c) = true).
Proof.
  intros Hinv Hv H.
  assert ((c <? 0) = false) as Hc
    by (eapply cost_walk_not_neg; eauto; reflexivity).
  split; [exact Hc|]. intros Hn. apply DoubleFacts.not_neg_nonneg; assumption.
Qed.

End CostFromStart.

(** ** Instances of the theorems above *)

Lemma example_tree_inv : tree_inv example_start example_tree.
Proof.
  split; [reflexivity|]. intros i v Hv Hi.
  destruct i as [|[|[|i]]]; [lia| | |discriminate]; simpl in Hv;
    injection Hv as <-; eexists; (split; [reflexivity|]); split; (lia || reflexivity).
Qed.

Lemma nearest_neighbor_first_minimum_witness :
  nearest_neighbor (M := Ref.libm) example_tree 1.5 0.5 = Some 1%nat
  /\ exists v, example_tree !! 1%nat = Some v
               /\ (calculate_distance (M := Ref.libm) 1.5 0.5 v <? infinity)%float
                  = true.
Proof.
  assert (nearest_neighbor (M := Ref.libm) example_tree 1.5 0.5 = Some 1%nat) as H
    by (vm_compute; reflexivity).
  split; [exact H|].
  destruct (nearest_neighbor_first_minimum (M := Ref.libm) _ _ _ _ H)
    as (v & Hv & Hinf & _).
  exists v. auto.
Defined.

Lemma calculate_distance_metric_witness :
  LibmLaws Ref.libm
  /\ calculate_distance (M := Ref.libm) 0 0 (Vertex.new 3 4)
     = calculate_distance (M := Ref.libm) 3 4 (Vertex.new 0 0).
Proof.
  split; [exact ref_libm_laws|].
  apply (@calculate_distance_metric Ref.libm ref_libm_laws
           (Vertex.new 0 0) (Vertex.new 3 4)).
Defined.

Lemma goal_scan_best_witness :
  exists min_cost end_vertex',
    goal_scan (M := Ref.libm) example_planner 1000 (Ref.pose 1.5 0.5)
      [start_vertex example_start] [0%nat] (Vertex.new 1.5 0.5)
    = Ret (min_cost, end_vertex')
    /\ Vertex.x end_vertex' = 1.5%float.
Proof.
  assert (exists s,
             goal_scan (M := Ref.libm) example_planner 1000 (Ref.pose 1.5 0.5)
               [start_vertex example_start] [0%nat] (Vertex.new 1.5 0.5) = Ret s)
    as [[mc ev] Hs] by (eexists; vm_compute; reflexivity).
  exists mc, ev. split; [exact Hs|].
  apply (goal_scan_best (M := Ref.libm) _ _ _ _ _ _ _ _ Hs).
Defined.

Lemma growth_keeps_costs_witness :
  parents_in_range [start_vertex example_start]
  /\ exists gen' tree',
       grow (M := Ref.libm) (R := Ref.lcg) example_planner 1000 3000 example_goal
         10 1 42%Z [start_vertex example_start] = Ret (gen', tree')
       /\ tree' !! 0%nat = Some (start_vertex example_start).
Proof.
  assert (parents_in_range [start_vertex example_start]) as Hr.
  { intros i v p Hv Hp. destruct i; simpl in Hv; [|discriminate].
    injection Hv as <-. discriminate. }
  split; [exact Hr|].
  assert (exists r,
             grow (M := Ref.libm) (R := Ref.lcg) example_planner 1000 3000
               example_goal 10 1 42%Z [start_vertex example_start] = Ret r)
    as [[gen' tree'] H] by (eexists; vm_compute; reflexivity).
  exists gen', tree'. split; [exact H|].
  destruct (growth_keeps_costs (M := Ref.libm) (R := Ref.lcg) _ _ _ _ _ _ _ _ _ _
              Hr H) as [_ Hk].
  apply (Hk 0%nat (start_vertex example_start) eq_refl).
Defined.

Lemma plan_edges_checked_witness :
  exists tree' raw,
    plan_raw (M := Ref.libm) (R := Ref.lcg) example_planner 1000 3000
      example_start example_goal 42%Z = Ret (tree', raw)
    /\ parents_in_range tree'
    /\ edges_checked (M := Ref.libm) example_planner 1000 tree'.
Proof.
  assert (exists r,
             plan_raw (M := Ref.libm) (R := Ref.lcg) example_planner 1000 3000
               example_start example_goal 42%Z = Ret r) as [[tree' raw] H]
    by (eexists; vm_compute; reflexivity).
  exists tree', raw. split; [exact H|].
  apply (plan_edges_checked (M := Ref.libm) (R := Ref.lcg) _ _ _ _ _ _ _ _ H).
Defined.

Lemma plan_tree_shape_witness :
  exists tree' raw,
    plan_raw (M := Ref.libm) (R := Ref.lcg) example_planner 1000 3000
      example_start example_goal 7%Z = Ret (tree', raw)
    /\ length tree' = 1001%nat.
Proof.
  assert (exists r,
             plan_raw (M := Ref.libm) (R := Ref.lcg) example_planner 1000 3000
               example_start example_goal 7%Z = Ret r) as [[tree' raw] H]
    by (eexists; vm_compute; reflexivity).
  exists tree', raw. split; [exact H|].
  destruct (plan_tree_shape (M := Ref.libm) (R := Ref.lcg) _ _ _ _ _ _ _ _ H)
    as (t & ev & c & cand & mc & -> & Hlen & _).
  rewrite length_app. simpl in *. lia.
Defined.

Lemma densify_loop_spec_witness :
  densify_loop 5 0 3 0.5 0.25 0 0 []
  = Ret [pose_at 1 0.5; pose_at 0.5 0.25].
Proof.
  apply (densify_loop_spec 5 2 3 0.5 0.25 0 0 []).
  - intros j Hj. destruct j as [|[|j]]; [reflexivity|reflexivity|lia].
  - reflexivity.
  - lia.
  - vm_compute. discriminate.
Defined.

Lemma extract_path_zero_length_edge_witness :
  LibmLaws Ref.libm
  /\ extract_path (M := Ref.libm) 0 3 example_tree
       (Some (Vertex.mk 1.5 0.5 0 (Some 1%nat))) []
     = extract_path (M := Ref.libm) 0 2 example_tree
         (Some (Vertex.mk 1.5 0.5 1 (Some 0%nat))) [pose_at 1.5 0.5].
Proof.
  split; [exact ref_libm_laws|].
  apply (@extract_path_zero_length_edge Ref.libm 0 ref_libm_laws 2 example_tree
           (Vertex.mk 1.5 0.5 0 (Some 1%nat)) (Vertex.mk 1.5 0.5 1 (Some 0%nat))
           1%nat []); reflexivity.
Defined.

Lemma smoothPath_windows_witness :
  exists path',
    smoothPath (M := Ref.libm) 20 example_path = Ret path'
    /\ nav_msgs.frame_id path' = "map"%string.
Proof.
  destruct (smoothPath_windows (M := Ref.libm) 20 example_path ltac:(lia)
              ltac:(simpl; lia)) as (path' & Hs & Hf & _).
  exists path'. split; [exact Hs|exact Hf].
Defined.

Lemma createPlan_endpoints_witness :
  exists path,
    createPlan (M := Ref.libm) (R := Ref.lcg) example_planner 1000 3000
      (in_frame "map" example_start) (in_frame "map" example_goal) 42%Z
    = Ret path
    /\ nav_msgs.frame_id path = "map"%string.
Proof.
  assert (exists r,
             createPlan (M := Ref.libm) (R := Ref.lcg) example_planner 1000 3000
               (in_frame "map" example_start) (in_frame "map" example_goal) 42%Z
             = Ret r) as [path H] by (eexists; vm_compute; reflexivity).
  exists path. split; [exact H|].
  destruct (createPlan_endpoints (M := Ref.libm) (R := Ref.lcg) _ _ _ _ _ _ _ H)
    as [_ Hmain].
  apply (Hmain eq_refl eq_refl).
Defined.

Lemma cost_from_start_not_negative_witness :
  tree_inv example_start example_tree
  /\ (calculate_cost_from_start 5 example_tree (Vertex.mk 1.5 0.5 0 (Some 1%nat))
      = Ret 1%float)
  /\ (1 <? 0)%float = false.
Proof.
  split; [exact example_tree_inv|]. split; [reflexivity|].
  apply (cost_from_start_not_negative 5 example_start example_tree 2
           (Vertex.mk 1.5 0.5 0 (Some 1%nat)) 1 example_tree_inv eq_refl eq_refl).
Defined.
